(** * alphasignal: cash-flow rate solver and rolling-window indicators

    A shallow embedding of [backend/cpp_finance/finance_calc.cpp] and
    [backend/cpp_indicators/indicators.cpp].

    Number model.  A C++ [double] is read as a real number ([R]): every
    arithmetic operation is the exact one, [std::pow] is [Rpower] (the two
    agree for a positive base, which is where the solver evaluates it once
    the rate is clamped), [std::sqrt] is [sqrt], and a comparison is the
    corresponding decision on [R].  Rounding, overflow and the propagation
    of not-a-number values are outside this model; the not-a-number
    sentinel returned by the solver is the constructor [NaN] of [solution].
    Functions on [R] do not compute: the worked examples evaluate them by
    unfolding and by deciding each comparison with [lra].
    The test [std_x > 0 && std_y > 0] of the rolling correlation hinges
    on rounding: that function is modelled a second time on binary64
    floating-point numbers (module [Binary64]), whose operations are those
    of IEEE 754 and do compute.

    Memory model.  A [std::vector<double>] or a numpy buffer of [n] cells
    is a [list R] of length [n].  Every read and write is checked: an index
    outside the buffer gives [None], which stands for the undefined
    behaviour of the C++ access.  An [int] is a [Z]; a [size_t] loop
    counter is a [nat], and the conversion of an [int] to [size_t] is
    written out in [to_size_t]. *)

From Stdlib Require Import Reals Ranalysis5 Lra Lia ZArith List.
From Stdlib Require PrimFloat.
From stdpp Require Import base option list.

Open Scope R_scope.

(** ** Cash-flow valuation and the rate solver *)

Module Finance.

Record CashFlow : Type := mkCashFlow
  { days_from_start : R;   (* days from the first cash flow *)
    amount : R }.

(** One iteration of the summation loop of [calculate_npv]. *)
Definition npv_step (rate : R) (npv : R) (cf : CashFlow) : R :=
  let years := days_from_start cf / 365.25 in
  npv + amount cf / Rpower (1 + rate) years.

Definition calculate_npv (cashflows : list CashFlow) (rate : R) : R :=
  fold_left (npv_step rate) cashflows 0.

(** One iteration of the summation loop of [calculate_npv_derivative]. *)
Definition npv_derivative_step (rate : R) (derivative : R) (cf : CashFlow) : R :=
  let years := days_from_start cf / 365.25 in
  derivative + - years * amount cf / Rpower (1 + rate) (years + 1).

Definition calculate_npv_derivative (cashflows : list CashFlow) (rate : R) : R :=
  fold_left (npv_derivative_step rate) cashflows 0.

Definition MAX_NEWTON_ITERATIONS : nat := 50.
Definition MAX_BINARY_ITERATIONS : nat := 100.
Definition TOLERANCE : R := 1e-7.
Definition MIN_RATE : R := -0.999.
Definition MAX_RATE : R := 10.

(** The value of a [double] that is either a rate or the quiet
    not-a-number sentinel. *)
Inductive solution : Type :=
| Rate (r : R)
| NaN.

(** How the Newton loop is left: by one of its two [return rate]
    statements, or towards the bisection fallback (a [break], or the
    iteration cap). *)
Inductive newton_exit : Type :=
| Returned (rate : R)
| Fallback.

(** The clamp [std::max(MIN_RATE, std::min(MAX_RATE, new_rate))]. *)
Definition clamp (new_rate : R) : R := Rmax MIN_RATE (Rmin MAX_RATE new_rate).

(** The Newton-Raphson loop, [iterations] being the number of
    iterations that are left. *)
Fixpoint newton (iterations : nat) (cashflows : list CashFlow) (rate : R)
  : newton_exit :=
  match iterations with
  | O => Fallback
  | S iterations' =>
      let npv := calculate_npv cashflows rate in
      let continue :=
        let derivative := calculate_npv_derivative cashflows rate in
        if Rlt_dec (Rabs derivative) 1e-10 then Fallback
        else
          let new_rate := clamp (rate - npv / derivative) in
          if Rlt_dec (Rabs (new_rate - rate)) TOLERANCE then
            let rate := new_rate in
            let npv := calculate_npv cashflows rate in
            if Rlt_dec (Rabs npv) TOLERANCE then Returned rate else Fallback
          else newton iterations' cashflows new_rate in
      if Rlt_dec (Rabs npv) TOLERANCE then
        if Rgt_dec rate MIN_RATE then
          if Rlt_dec rate MAX_RATE then Returned rate else continue
        else continue
      else continue
  end.

(** The bisection loop.  [npv_high] is assigned by the source but never
    read inside the loop; it is kept as part of the loop state. *)
Fixpoint binary_search (iterations : nat) (cashflows : list CashFlow)
    (low high npv_low npv_high : R) : solution :=
  match iterations with
  | O => NaN
  | S iterations' =>
      let mid := (low + high) / 2 in
      let npv_mid := calculate_npv cashflows mid in
      if Rlt_dec (Rabs npv_mid) TOLERANCE then Rate mid
      else
        let '(low, high, npv_low, npv_high) :=
          if Rlt_dec (npv_mid * npv_low) 0
          then (low, mid, npv_low, npv_mid)
          else (mid, high, npv_mid, npv_high) in
        if Rlt_dec (high - low) TOLERANCE then Rate ((low + high) / 2)
        else binary_search iterations' cashflows low high npv_low npv_high
  end.

(** Phase 2 of [calculate_xirr]: the bracket check and the bisection. *)
Definition fallback (cashflows : list CashFlow) : solution :=
  let low := MIN_RATE in
  let high := MAX_RATE in
  let npv_low := calculate_npv cashflows low in
  let npv_high := calculate_npv cashflows high in
  if Rgt_dec (npv_low * npv_high) 0 then NaN
  else binary_search MAX_BINARY_ITERATIONS cashflows low high npv_low npv_high.

Definition calculate_xirr (cashflows : list CashFlow) (initial_guess : R)
  : solution :=
  if (length cashflows <? 2)%nat then NaN
  else
    match newton MAX_NEWTON_ITERATIONS cashflows initial_guess with
    | Returned rate => Rate rate
    | Fallback => fallback cashflows
    end.

(** The default value of the parameter [initial_guess]. *)
Definition default_guess : R := 0.1.

End Finance.

(** ** Capital-ratio metrics *)

Module Ratios.

(** The value of a [double] that is either a ratio or the quiet
    not-a-number sentinel. *)
Inductive metric : Type :=
| Value (v : R)
| NotANumber.

Definition calculate_moic (total_distributions current_value total_invested : R)
  : metric :=
  if Rle_dec total_invested 0 then NotANumber
  else Value ((total_distributions + current_value) / total_invested).

Definition calculate_dpi (total_distributions total_invested : R) : metric :=
  if Rle_dec total_invested 0 then NotANumber
  else Value (total_distributions / total_invested).

Definition calculate_tvpi (total_distributions current_value total_invested : R)
  : metric :=
  if Rle_dec total_invested 0 then NotANumber
  else Value ((total_distributions + current_value) / total_invested).

Definition calculate_rvpi (current_value total_invested : R) : metric :=
  if Rle_dec total_invested 0 then NotANumber
  else Value (current_value / total_invested).

(** The sum of two [double]s, not-a-number as soon as one of them is. *)
Definition metric_add (a b : metric) : metric :=
  match a, b with
  | Value x, Value y => Value (x + y)
  | _, _ => NotANumber
  end.

End Ratios.

(** ** Rolling-window indicators *)

Module Indicators.

(** [std::vector<double> v(n, 0.0)]. *)
Definition zeros (n : nat) : list R := replicate n 0.

(** The checked write [v[i] = x]. *)
Definition write (v : list R) (i : nat) (x : R) : option (list R) :=
  if decide (i < length v)%nat then Some (<[i := x]> v) else None.

(** Conversion of an [int] to [size_t]: a negative value wraps around. *)
Definition to_size_t (z : Z) : nat :=
  Z.to_nat (if (z <? 0)%Z then z + 2 ^ 64 else z)%Z.

(** The checked read [ptr[i - j]] for a [size_t i] and an [int j]: the
    subtraction is unsigned, so a negative difference wraps around. *)
Definition read_back (v : list R) (i j : nat) : option R :=
  v !! to_size_t (Z.of_nat i - Z.of_nat j).

(** A counted loop [for (i = first; ...; ++i)] running [count] times
    over a state, stopping at the first access outside a buffer. *)
Fixpoint for_loop {St : Type} (count first : nat)
    (body : nat -> St -> option St) (s : St) : option St :=
  match count with
  | O => Some s
  | S count' => s' ← body first s; for_loop count' (S first) body s'
  end.

(** *** Relative-strength oscillator *)

(** Body of the price-change loop. *)
Definition rsi_change (ptr : list R) (i : nat) (s : list R * list R)
  : option (list R * list R) :=
  let '(gains, losses) := s in
  p ← ptr !! i;
  q ← ptr !! (i - 1)%nat;
  let change := p - q in
  if Rgt_dec change 0
  then gains ← write gains i change; Some (gains, losses)
  else losses ← write losses i (- change); Some (gains, losses).

(** Body of the seeding loop. *)
Definition rsi_seed (gains losses : list R) (i : nat) (s : R * R) : option (R * R) :=
  let '(avg_gain, avg_loss) := s in
  g ← gains !! i;
  l ← losses !! i;
  Some (avg_gain + g, avg_loss + l).

(** Wilder's smoothing of one average. *)
Definition wilder (period : Z) (avg current : R) : R :=
  (avg * IZR (period - 1) + current) / IZR period.

(** The value stored in [rsi[i]] for the smoothed averages. *)
Definition rsi_value (avg_gain avg_loss : R) : R :=
  if Req_dec_T avg_loss 0 then 100
  else
    let rs := avg_gain / avg_loss in
    100 - 100 / (1 + rs).

(** Body of the smoothing loop. *)
Definition rsi_smooth (period : Z) (gains losses : list R) (i : nat)
    (s : list R * R * R) : option (list R * R * R) :=
  let '(rsi, avg_gain, avg_loss) := s in
  g ← gains !! i;
  l ← losses !! i;
  let avg_gain := wilder period avg_gain g in
  let avg_loss := wilder period avg_loss l in
  rsi ← write rsi i (rsi_value avg_gain avg_loss);
  Some (rsi, avg_gain, avg_loss).

(** The price-change loop, from fresh [gains] and [losses] buffers. *)
Definition rsi_changes (ptr : list R) : option (list R * list R) :=
  let n := length ptr in
  let gains := zeros n in
  let losses := zeros n in
  for_loop (n - 1) 1 (rsi_change ptr) (gains, losses).

(** The seeding loop followed by the two divisions by [period]. *)
Definition rsi_initial_average (gains losses : list R) (period : Z)
  : option (R * R) :=
  '(avg_gain, avg_loss) ←
    for_loop (Z.to_nat period) 1 (rsi_seed gains losses) (0, 0);
  Some (avg_gain / IZR period, avg_loss / IZR period).

(** The first [steps] iterations of the smoothing loop. *)
Definition rsi_smoothing (steps : nat) (period : Z) (gains losses : list R)
    (rsi : list R) (avg_gain avg_loss : R) : option (list R * R * R) :=
  for_loop steps (to_size_t period) (rsi_smooth period gains losses)
    (rsi, avg_gain, avg_loss).

Definition calculate_rsi (ptr : list R) (period : Z) : option (list R) :=
  let n := length ptr in
  let rsi := zeros n in
  '(gains, losses) ← rsi_changes ptr;
  '(avg_gain, avg_loss) ← rsi_initial_average gains losses period;
  '(rsi, _, _) ←
    rsi_smoothing (n - to_size_t period) period gains losses rsi avg_gain avg_loss;
  Some rsi.

(** *** Convergence/divergence indicator *)

Record MACDResult : Type := mkMACDResult
  { macd : list R; signal : list R; histogram : list R }.

(** Body of the loop computing both moving averages and their spread. *)
Definition macd_ema (ptr : list R) (alpha_fast alpha_slow : R) (i : nat)
    (s : list R * list R * list R) : option (list R * list R * list R) :=
  let '(ema_fast, ema_slow, macd) := s in
  p ← ptr !! i;
  fast_prev ← ema_fast !! (i - 1)%nat;
  ema_fast ← write ema_fast i (alpha_fast * p + (1 - alpha_fast) * fast_prev);
  slow_prev ← ema_slow !! (i - 1)%nat;
  ema_slow ← write ema_slow i (alpha_slow * p + (1 - alpha_slow) * slow_prev);
  fast ← ema_fast !! i;
  slow ← ema_slow !! i;
  macd ← write macd i (fast - slow);
  Some (ema_fast, ema_slow, macd).

(** Body of the signal-line loop. *)
Definition macd_signal (macd : list R) (alpha_signal : R) (i : nat)
    (s : list R * list R) : option (list R * list R) :=
  let '(signal, histogram) := s in
  m ← macd !! i;
  signal_prev ← signal !! (i - 1)%nat;
  signal ← write signal i (alpha_signal * m + (1 - alpha_signal) * signal_prev);
  sig ← signal !! i;
  histogram ← write histogram i (m - sig);
  Some (signal, histogram).

Definition calculate_macd (ptr : list R)
    (fast_period slow_period signal_period : Z) : option MACDResult :=
  let n := length ptr in
  let ema_fast := zeros n in
  let ema_slow := zeros n in
  let macd := zeros n in
  let signal := zeros n in
  let histogram := zeros n in
  let alpha_fast := 2 / IZR (fast_period + 1) in
  let alpha_slow := 2 / IZR (slow_period + 1) in
  let alpha_signal := 2 / IZR (signal_period + 1) in
  p0 ← ptr !! 0%nat;
  ema_fast ← write ema_fast 0 p0;
  ema_slow ← write ema_slow 0 p0;
  '(ema_fast, ema_slow, macd) ←
    for_loop (n - 1) 1 (macd_ema ptr alpha_fast alpha_slow)
      (ema_fast, ema_slow, macd);
  m ← macd !! to_size_t slow_period;
  signal ← write signal (to_size_t slow_period) m;
  '(signal, histogram) ←
    for_loop (n - to_size_t (slow_period + 1)) (to_size_t (slow_period + 1))
      (macd_signal macd alpha_signal) (signal, histogram);
  Some (mkMACDResult macd signal histogram).

(** *** Volatility bands *)

Record BollingerBands : Type := mkBollingerBands
  { upper : list R; middle : list R; lower : list R }.

(** The loop [for (int j = 0; j < period; ++j) sum += ptr[i - j]]. *)
Definition window_sum (ptr : list R) (period : Z) (i : nat) : option R :=
  for_loop (Z.to_nat period) 0
    (fun j sum => p ← read_back ptr i j; Some (sum + p)) 0.

(** The loop accumulating the squared differences to [mean]. *)
Definition window_variance (ptr : list R) (period : Z) (i : nat) (mean : R)
  : option R :=
  for_loop (Z.to_nat period) 0
    (fun j variance =>
       p ← read_back ptr i j;
       let diff := p - mean in
       Some (variance + diff * diff)) 0.

(** Body of the outer loop. *)
Definition bollinger_step (ptr : list R) (period : Z) (num_std : R) (i : nat)
    (s : list R * list R * list R) : option (list R * list R * list R) :=
  let '(middle, upper, lower) := s in
  sum ← window_sum ptr period i;
  let mean := sum / IZR period in
  middle ← write middle i mean;
  variance ← window_variance ptr period i mean;
  let std := sqrt (variance / IZR period) in
  upper ← write upper i (mean + num_std * std);
  lower ← write lower i (mean - num_std * std);
  Some (middle, upper, lower).

Definition calculate_bollinger_bands (ptr : list R) (period : Z) (num_std : R)
  : option BollingerBands :=
  let n := length ptr in
  let middle := zeros n in
  let upper := zeros n in
  let lower := zeros n in
  '(middle, upper, lower) ←
    for_loop (n - to_size_t (period - 1)) (to_size_t (period - 1))
      (bollinger_step ptr period num_std) (middle, upper, lower);
  Some (mkBollingerBands upper middle lower).

(** *** Rolling correlation *)

(** The five running sums of the inner loop. *)
Record sums : Type := mkSums
  { sum_x : R; sum_y : R; sum_xx : R; sum_yy : R; sum_xy : R }.

(** Body of the inner loop. *)
Definition correlation_accumulate (ptr_x ptr_y : list R) (i j : nat) (s : sums)
  : option sums :=
  vx ← read_back ptr_x i j;
  vy ← read_back ptr_y i j;
  Some (mkSums (sum_x s + vx) (sum_y s + vy) (sum_xx s + vx * vx)
               (sum_yy s + vy * vy) (sum_xy s + vx * vy)).

Definition correlation_sums (ptr_x ptr_y : list R) (window : Z) (i : nat)
  : option sums :=
  for_loop (Z.to_nat window) 0 (correlation_accumulate ptr_x ptr_y i)
    (mkSums 0 0 0 0 0).

(** The rolling standard deviation computed from a sum and a sum of
    squares. *)
Definition rolling_std (window : Z) (sum sum_sq : R) : R :=
  let mean := sum / IZR window in
  sqrt (sum_sq / IZR window - mean * mean).

(** Body of the outer loop. *)
Definition correlation_step (ptr_x ptr_y : list R) (window : Z) (i : nat)
    (corr : list R) : option (list R) :=
  s ← correlation_sums ptr_x ptr_y window i;
  let mean_x := sum_x s / IZR window in
  let mean_y := sum_y s / IZR window in
  let cov := sum_xy s / IZR window - mean_x * mean_y in
  let std_x := rolling_std window (sum_x s) (sum_xx s) in
  let std_y := rolling_std window (sum_y s) (sum_yy s) in
  if Rgt_dec std_x 0 then
    if Rgt_dec std_y 0 then write corr i (cov / (std_x * std_y))
    else Some corr
  else Some corr.

Definition rolling_correlation (ptr_x ptr_y : list R) (window : Z)
  : option (list R) :=
  let n := length ptr_x in
  let corr := zeros n in
  for_loop (n - to_size_t (window - 1)) (to_size_t (window - 1))
    (correlation_step ptr_x ptr_y window) corr.

End Indicators.

(** ** The rolling correlation on binary64 doubles

    The same function with a [double] read as a binary64 floating-point
    number: every operation rounds to nearest as IEEE 754 prescribes, one
    operation at a time (a product and the sum that takes it are not
    fused), and a comparison with a not-a-number value is false. *)

Module Binary64.
Import PrimFloat.

(** Conversion of a positive [int] to [double], digit by digit; every
    step is exact below [2 ^ 53]. *)
Fixpoint double_of_positive (p : positive) : float :=
  match p with
  | xH => 1%float
  | xO q => (2 * double_of_positive q)%float
  | xI q => (2 * double_of_positive q + 1)%float
  end.

(** Conversion of an [int] to [double]. *)
Definition double_of_int (z : Z) : float :=
  match z with
  | Z0 => 0%float
  | Zpos p => double_of_positive p
  | Zneg p => (- double_of_positive p)%float
  end.

(** [std::vector<double> v(n, 0.0)]. *)
Definition zeros (n : nat) : list float := replicate n 0%float.

(** The checked write [v[i] = x]. *)
Definition write (v : list float) (i : nat) (x : float) : option (list float) :=
  if decide (i < length v)%nat then Some (<[i := x]> v) else None.

(** The checked read [ptr[i - j]]. *)
Definition read_back (v : list float) (i j : nat) : option float :=
  v !! Indicators.to_size_t (Z.of_nat i - Z.of_nat j).

(** The five running sums of the inner loop. *)
Record sums : Type := mkSums
  { sum_x : float; sum_y : float; sum_xx : float; sum_yy : float;
    sum_xy : float }.

(** Body of the inner loop. *)
Definition correlation_accumulate (ptr_x ptr_y : list float) (i j : nat)
    (s : sums) : option sums :=
  vx ← read_back ptr_x i j;
  vy ← read_back ptr_y i j;
  Some (mkSums (sum_x s + vx) (sum_y s + vy) (sum_xx s + vx * vx)
               (sum_yy s + vy * vy) (sum_xy s + vx * vy))%float.

Definition correlation_sums (ptr_x ptr_y : list float) (window : Z) (i : nat)
  : option sums :=
  Indicators.for_loop (Z.to_nat window) 0 (correlation_accumulate ptr_x ptr_y i)
    (mkSums 0 0 0 0 0)%float.

(** The rolling standard deviation computed from a sum and a sum of
    squares. *)
Definition rolling_std (window : Z) (sum sum_sq : float) : float :=
  let mean := (sum / double_of_int window)%float in
  sqrt (sum_sq / double_of_int window - mean * mean)%float.

(** The covariance computed from the sums. *)
Definition rolling_cov (window : Z) (s : sums) : float :=
  let mean_x := (sum_x s / double_of_int window)%float in
  let mean_y := (sum_y s / double_of_int window)%float in
  (sum_xy s / double_of_int window - mean_x * mean_y)%float.

(** Body of the outer loop. *)
Definition correlation_step (ptr_x ptr_y : list float) (window : Z) (i : nat)
    (corr : list float) : option (list float) :=
  s ← correlation_sums ptr_x ptr_y window i;
  let cov := rolling_cov window s in
  let std_x := rolling_std window (sum_x s) (sum_xx s) in
  let std_y := rolling_std window (sum_y s) (sum_yy s) in
  if (0 <? std_x)%float then
    if (0 <? std_y)%float then write corr i (cov / (std_x * std_y))%float
    else Some corr
  else Some corr.

Definition rolling_correlation (ptr_x ptr_y : list float) (window : Z)
  : option (list float) :=
  let n := length ptr_x in
  let corr := zeros n in
  Indicators.for_loop (n - Indicators.to_size_t (window - 1))
    (Indicators.to_size_t (window - 1))
    (correlation_step ptr_x ptr_y window) corr.

End Binary64.

(** ** The statistics named by the specification

    These follow the words of the specification, not the code: the
    trailing window ending at an index, its simple mean and its population
    standard deviation (variance divided by the window length). *)

Module Statistics.

Definition sum_list (xs : list R) : R := foldr Rplus 0 xs.

(** The [w] entries of [xs] ending at index [i]. *)
Definition trailing_window (xs : list R) (w i : nat) : list R :=
  take w (drop (S i - w) xs).

Definition mean (xs : list R) : R := sum_list xs / INR (length xs).

Definition population_variance (xs : list R) : R :=
  sum_list (map (fun x => (x - mean xs) * (x - mean xs)) xs) / INR (length xs).

Definition population_std (xs : list R) : R := sqrt (population_variance xs).

End Statistics.

(** ** Auxiliary notions for the proofs

    Sample inputs, the summands of the present value, and the invariants
    of the indicator loops. *)

Module FinanceAux.
Import Finance.

(** The contribution of one cash flow to the present value. *)
Definition discounted (rate : R) (cf : CashFlow) : R :=
  amount cf / Rpower (1 + rate) (days_from_start cf / 365.25).

(** The cash flows [(0, -1000), (365, 1100)]. *)
Definition one_year_gain : list CashFlow :=
  [mkCashFlow 0 (-1000); mkCashFlow 365 1100].

(** The rate at which their present value vanishes: 365 days are
    [365 / 365.25] of a year. *)
Definition one_year_root : R := Rpower 1.1 (365.25 / 365) - 1.

(** Two cash flows on day 0 that cancel out: the present value is zero
    at every rate. *)
Definition balanced : list CashFlow := [mkCashFlow 0 (-1); mkCashFlow 0 1].

(** Two small inflows: their present value is below the absolute
    tolerance at the initial guess. *)
Definition small_inflows : list CashFlow :=
  [mkCashFlow 0 1e-8; mkCashFlow 365 1e-8].

(** The example of the specification for a sequence without sign change. *)
Definition all_inflows : list CashFlow :=
  [mkCashFlow 0 100; mkCashFlow 365 50].

(** A loan: an inflow on day 0 repaid with interest one year later. *)
Definition loan : list CashFlow :=
  [mkCashFlow 0 1000; mkCashFlow 365.25 (-1100)].

End FinanceAux.

Module IndicatorsAux.
Import Indicators Statistics.

Definition nonnegative (v : list R) : Prop := Forall (fun x => 0 <= x) v.

Definition percentages (v : list R) : Prop := Forall (fun x => 0 <= x <= 100) v.

(** What the three buffers hold once the outer loop has reached index
    [k]: zeros before the first full window, the statistics of the
    trailing window from there up to [k]. *)
Definition bands_upto (ptr : list R) (period : Z) (num_std : R) (k : nat)
    (s : list R * list R * list R) : Prop :=
  let '(middle, upper, lower) := s in
  length middle = length ptr /\ length upper = length ptr
  /\ length lower = length ptr
  /\ (forall i, (i < Z.to_nat (period - 1))%nat -> (i < length ptr)%nat ->
        middle !! i = Some 0 /\ upper !! i = Some 0 /\ lower !! i = Some 0)
  /\ (forall i, (Z.to_nat (period - 1) <= i < k)%nat ->
        let w := trailing_window ptr (Z.to_nat period) i in
        middle !! i = Some (mean w)
        /\ upper !! i = Some (mean w + num_std * population_std w)
        /\ lower !! i = Some (mean w - num_std * population_std w)).

(** What the buffer holds once the outer loop has reached index [k]:
    zeros before the first full window and from [k] on, and zero at every
    index already passed whose window has a zero standard deviation in
    either input. *)
Definition correlation_upto (ptr_x ptr_y : list R) (window : Z) (k : nat)
    (corr : list R) : Prop :=
  length corr = length ptr_x
  /\ (forall i, (i < Z.to_nat (window - 1))%nat -> (i < length ptr_x)%nat ->
        corr !! i = Some 0)
  /\ (forall i, (k <= i < length ptr_x)%nat -> corr !! i = Some 0)
  /\ (forall i, (Z.to_nat (window - 1) <= i < k)%nat ->
        population_std (trailing_window ptr_x (Z.to_nat window) i) = 0
        \/ population_std (trailing_window ptr_y (Z.to_nat window) i) = 0 ->
        corr !! i = Some 0).

(** The spread of the two moving averages at index 1. *)
Definition first_spread (alpha_fast alpha_slow p0 p1 : R) : R :=
  (alpha_fast * p1 + (1 - alpha_fast) * p0)
  - (alpha_slow * p1 + (1 - alpha_slow) * p0).

(** What the three buffers of the first loop hold once it has reached
    index [k]. *)
Definition ema_upto (ptr : list R) (alpha_fast alpha_slow p0 : R) (k : nat)
    (s : list R * list R * list R) : Prop :=
  let '(ema_fast, ema_slow, spread) := s in
  length ema_fast = length ptr /\ length ema_slow = length ptr
  /\ length spread = length ptr
  /\ ema_fast !! 0%nat = Some p0 /\ ema_slow !! 0%nat = Some p0
  /\ spread !! 0%nat = Some 0
  /\ ((2 <= k)%nat -> forall p1, ptr !! 1%nat = Some p1 ->
        spread !! 1%nat = Some (first_spread alpha_fast alpha_slow p0 p1)).

(** What the two buffers of the signal loop hold at every point. *)
Definition signal_upto (n : nat) (slow_period : Z) (s : list R * list R) : Prop :=
  let '(signal_line, histogram_line) := s in
  length signal_line = n /\ length histogram_line = n
  /\ (forall i, (i < Z.to_nat slow_period)%nat -> signal_line !! i = Some 0)
  /\ (forall i, (i <= Z.to_nat slow_period)%nat ->
        histogram_line !! i = Some 0).

(** A series of 27 prices, one more than the default slow period, that
    starts 1, 2. *)
Definition rising_prices : list R := 1 :: 2 :: replicate 25 3.

End IndicatorsAux.

(** ** The recurrences and the coefficient behind the indicators

    Functions of the index, written without buffers: the exponential
    moving average, the signal line seeded at the slow period, and the
    correlation coefficient of two windows computed from their sums. *)

Module Recurrences.
Import Indicators Statistics.

(** The exponential moving average seeded with the first price. *)
Fixpoint ema_at (alpha : R) (ptr : list R) (i : nat) : R :=
  match i with
  | O => nth 0 ptr 0
  | S j => alpha * nth (S j) ptr 0 + (1 - alpha) * ema_at alpha ptr j
  end.

(** The spread of the fast and the slow average. *)
Definition spread_at (alpha_fast alpha_slow : R) (ptr : list R) (i : nat) : R :=
  ema_at alpha_fast ptr i - ema_at alpha_slow ptr i.

(** The moving average of a line [m] that is zero before index [seed],
    equal to the line at [seed], and smoothed from there on. *)
Fixpoint signal_at (alpha : R) (m : nat -> R) (seed : nat) (i : nat) : R :=
  match i with
  | O => if (seed =? 0)%nat then m O else 0
  | S j =>
      if (S j <? seed)%nat then 0
      else if (S j =? seed)%nat then m seed
      else alpha * m (S j) + (1 - alpha) * signal_at alpha m seed j
  end.

(** The difference of a line and its signal, zero up to the seed. *)
Definition histogram_at (alpha : R) (m : nat -> R) (seed : nat) (i : nat) : R :=
  if (i <=? seed)%nat then 0 else m i - signal_at alpha m seed i.

(** The sum of the products of two windows, entry by entry. *)
Definition sum_products (wx wy : list R) : R :=
  sum_list (zip_with Rmult wx wy).

(** The correlation coefficient of two windows from their five sums,
    zero unless both standard deviations are positive. *)
Definition pearson (wx wy : list R) : R :=
  let n := INR (length wx) in
  let mean_x := sum_list wx / n in
  let mean_y := sum_list wy / n in
  let cov := sum_products wx wy / n - mean_x * mean_y in
  let std_x := sqrt (sum_products wx wx / n - mean_x * mean_x) in
  let std_y := sqrt (sum_products wy wy / n - mean_y * mean_y) in
  if Rgt_dec std_x 0 then
    if Rgt_dec std_y 0 then cov / (std_x * std_y) else 0
  else 0.

Definition all_zero (v : list R) : Prop := Forall (fun x => x = 0) v.

(** What the three buffers of the first loop of the convergence/divergence
    indicator hold below index [k]: the two averages and their spread. *)
Definition ema_values_upto (ptr : list R) (alpha_fast alpha_slow : R) (k : nat)
    (s : list R * list R * list R) : Prop :=
  let '(ema_fast, ema_slow, spread) := s in
  length ema_fast = length ptr /\ length ema_slow = length ptr
  /\ length spread = length ptr
  /\ forall j, (j < k)%nat -> (j < length ptr)%nat ->
       ema_fast !! j = Some (ema_at alpha_fast ptr j)
       /\ ema_slow !! j = Some (ema_at alpha_slow ptr j)
       /\ spread !! j = Some (spread_at alpha_fast alpha_slow ptr j).

(** What the two buffers of its second loop hold below index [k]. *)
Definition signal_values_upto (n : nat) (alpha : R) (m : nat -> R) (seed k : nat)
    (s : list R * list R) : Prop :=
  let '(signal_line, histogram_line) := s in
  length signal_line = n /\ length histogram_line = n
  /\ (forall j, (j < k)%nat -> (j < n)%nat ->
        signal_line !! j = Some (signal_at alpha m seed j))
  /\ (forall j, (j < n)%nat ->
        histogram_line !! j
        = Some (if (j <? k)%nat then histogram_at alpha m seed j else 0)).

(** What the buffer of the rolling correlation holds once the outer loop
    has reached index [k]: the coefficient of the two trailing windows at
    the indices already passed, zero elsewhere. *)
Definition correlation_values_upto (ptr_x ptr_y : list R) (window : Z) (k : nat)
    (corr : list R) : Prop :=
  length corr = length ptr_x
  /\ forall i, (i < length ptr_x)%nat ->
       corr !! i
       = Some (if (i <? Z.to_nat (window - 1))%nat then 0
               else if (i <? k)%nat then
                 pearson (trailing_window ptr_x (Z.to_nat window) i)
                         (trailing_window ptr_y (Z.to_nat window) i)
               else 0).

(** A series in which no price is below the one before it. *)
Definition rising (ptr : list R) : Prop :=
  forall i p q, ptr !! i = Some p -> ptr !! S i = Some q -> p <= q.

(** A series in which every price is below the one before it. *)
Definition falling (ptr : list R) : Prop :=
  forall i p q, ptr !! i = Some p -> ptr !! S i = Some q -> q < p.

(** The same cash flows dated [d] days later. *)
Definition postpone (d : R) (cfs : list Finance.CashFlow) : list Finance.CashFlow :=
  map (fun cf => Finance.mkCashFlow (Finance.days_from_start cf + d)
                   (Finance.amount cf)) cfs.

(** The sum of the amounts of a cash-flow sequence. *)
Definition total_amount (cfs : list Finance.CashFlow) : R :=
  sum_list (map Finance.amount cfs).

End Recurrences.

(** ** Auxiliary notions for the binary64 model *)

Module Binary64Aux.
Import PrimFloat Binary64.

(** The doubles nearest to 0.3 and to 0.7. *)
Definition three_tenths : float := 0x1.3333333333333p-2%float.
Definition seven_tenths : float := 0x1.6666666666666p-1%float.

(** What the outer loop leaves at an index with a full window, given the
    sums of that window: the quotient when both computed standard
    deviations compare greater than zero, the initial zero otherwise. *)
Definition correlation_entry (window : Z) (s : sums) : float :=
  let std_x := rolling_std window (sum_x s) (sum_xx s) in
  let std_y := rolling_std window (sum_y s) (sum_yy s) in
  if (0 <? std_x)%float then
    if (0 <? std_y)%float then (rolling_cov window s / (std_x * std_y))%float
    else 0%float
  else 0%float.

(** What the buffer holds once the outer loop has reached index [k]. *)
Definition entries_upto (ptr_x ptr_y : list float) (window : Z) (k : nat)
    (corr : list float) : Prop :=
  length corr = length ptr_x
  /\ forall i, (i < length ptr_x)%nat ->
       if decide (Z.to_nat (window - 1) <= i < k)%nat then
         exists s, correlation_sums ptr_x ptr_y window i = Some s
                   /\ corr !! i = Some (correlation_entry window s)
       else corr !! i = Some 0%float.

End Binary64Aux.

(** ** Elementary bounds on [exp], [ln] and [Rpower] *)

Module RealFacts.

Lemma exp_le_compat (x y : R) : x <= y -> exp x <= exp y.
Proof.
  intros [Hlt| ->]; [left; apply exp_increasing, Hlt|right; reflexivity].
Qed.

Lemma ln_le_compat (x y : R) : 0 < x -> x <= y -> ln x <= ln y.
Proof.
  intros Hx [Hlt| ->]; [left; apply ln_increasing; assumption|right; reflexivity].
Qed.

Lemma ln_upper (x : R) : 0 < x -> ln x <= x - 1.
Proof.
  intros Hx. destruct (Rle_or_lt (ln x) (x - 1)) as [H|H]; [exact H|].
  apply exp_increasing in H. rewrite exp_ln in H by exact Hx.
  pose proof (exp_ineq1_le (x - 1)). lra.
Qed.

Lemma ln_lower (x : R) : 0 < x -> 1 - / x <= ln x.
Proof.
  intros Hx. assert (Hi : 0 < / x) by (apply Rinv_0_lt_compat, Hx).
  pose proof (ln_upper (/ x) Hi) as H. rewrite ln_Rinv in H by exact Hx. lra.
Qed.

Lemma exp_opp_upper (t : R) : 0 <= t -> exp (- t) <= / (1 + t).
Proof.
  intros Ht. rewrite exp_Ropp.
  apply Rinv_le_contravar; [lra|]. pose proof (exp_ineq1_le t). lra.
Qed.

Lemma exp_upper (t : R) : t < 1 -> exp t <= / (1 - t).
Proof.
  intros Ht. pose proof (exp_ineq1_le (- t)) as H.
  rewrite <- (Ropp_involutive t) at 1. rewrite exp_Ropp.
  apply Rinv_le_contravar; lra.
Qed.

Lemma Rpower_0 (x : R) : Rpower x 0 = 1.
Proof. unfold Rpower. rewrite Rmult_0_l. apply exp_0. Qed.

Lemma Rpower_positive (x y : R) : 0 < Rpower x y.
Proof. unfold Rpower. apply exp_pos. Qed.

(** For a negative exponent the power decreases with the base. *)
Lemma Rpower_lt_base_neg (a b c : R) :
  c < 0 -> 0 < a < b -> Rpower b c < Rpower a c.
Proof.
  intros Hc Hab.
  assert (Hd : 0 < - c) by lra. revert Hd.
  replace c with (- (- c)) at 2 3 by lra. generalize (- c) as d. intros d Hd.
  rewrite (Rpower_Ropp b d), (Rpower_Ropp a d).
  apply Rinv_lt_contravar.
  - apply Rmult_lt_0_compat; apply Rpower_positive.
  - apply Rlt_Rpower_l; lra.
Qed.

(** [a / p] does not increase with the positive denominator [p] when
    [a] is nonnegative, and the other way round when it is nonpositive. *)
Lemma div_antitone (a p q : R) : 0 <= a -> 0 < p -> p <= q -> a / q <= a / p.
Proof.
  intros Ha Hp Hpq. unfold Rdiv. apply Rmult_le_compat_l; [exact Ha|].
  apply Rinv_le_contravar; assumption.
Qed.

Lemma div_antitone_strict (a p q : R) : 0 < a -> 0 < p -> p < q -> a / q < a / p.
Proof.
  intros Ha Hp Hpq. unfold Rdiv. apply Rmult_lt_compat_l; [exact Ha|].
  apply Rinv_lt_contravar; [nra|exact Hpq].
Qed.

Lemma div_lower (a d c : R) : 0 < d -> c * d <= a -> c <= a / d.
Proof.
  intros Hd H. apply (Rmult_le_reg_r d); [exact Hd|].
  unfold Rdiv. rewrite Rmult_assoc, Rinv_l by lra. lra.
Qed.

Lemma div_upper (a d c : R) : 0 < d -> a <= c * d -> a / d <= c.
Proof.
  intros Hd H. apply (Rmult_le_reg_r d); [exact Hd|].
  unfold Rdiv. rewrite Rmult_assoc, Rinv_l by lra. lra.
Qed.

End RealFacts.

(** ** Facts about the valuation engine and the solver *)

Module FinanceFacts.
Import Finance FinanceAux RealFacts.

Lemma fold_npv_step (rate : R) (cfs : list CashFlow) (acc : R) :
  fold_left (npv_step rate) cfs acc
  = acc + fold_left (npv_step rate) cfs 0.
Proof.
  revert acc. induction cfs as [|cf cfs IH]; intros acc; simpl.
  - lra.
  - rewrite IH. rewrite (IH (npv_step rate 0 cf)). unfold npv_step. lra.
Qed.

Lemma calculate_npv_nil (rate : R) : calculate_npv [] rate = 0.
Proof. reflexivity. Qed.

Lemma calculate_npv_cons (rate : R) (cf : CashFlow) (cfs : list CashFlow) :
  calculate_npv (cf :: cfs) rate = discounted rate cf + calculate_npv cfs rate.
Proof.
  unfold calculate_npv. simpl. rewrite fold_npv_step.
  unfold npv_step, discounted. lra.
Qed.

Lemma fold_npv_derivative_step (rate : R) (cfs : list CashFlow) (acc : R) :
  fold_left (npv_derivative_step rate) cfs acc
  = acc + fold_left (npv_derivative_step rate) cfs 0.
Proof.
  revert acc. induction cfs as [|cf cfs IH]; intros acc; simpl.
  - lra.
  - rewrite IH. rewrite (IH (npv_derivative_step rate 0 cf)).
    unfold npv_derivative_step. lra.
Qed.

Lemma calculate_npv_derivative_cons (rate : R) (cf : CashFlow) (cfs : list CashFlow) :
  calculate_npv_derivative (cf :: cfs) rate
  = - (days_from_start cf / 365.25) * amount cf
      / Rpower (1 + rate) (days_from_start cf / 365.25 + 1)
    + calculate_npv_derivative cfs rate.
Proof.
  unfold calculate_npv_derivative. simpl. rewrite fold_npv_derivative_step.
  unfold npv_derivative_step. lra.
Qed.

Lemma clamp_bounds (x : R) : MIN_RATE <= clamp x <= MAX_RATE.
Proof.
  unfold clamp, MIN_RATE, MAX_RATE, Rmax, Rmin.
  repeat destruct Rle_dec; lra.
Qed.

(** One iteration of the Newton loop that ends in a [return]: the
    immediate accept, the accept after a converged step, or a return of a
    later iteration started from the clamped step. *)
Lemma newton_iteration (k : nat) (cfs : list CashFlow) (rate r : R) :
  newton (S k) cfs rate = Returned r ->
  let new_rate :=
    clamp (rate - calculate_npv cfs rate / calculate_npv_derivative cfs rate) in
  (r = rate /\ Rabs (calculate_npv cfs rate) < TOLERANCE
   /\ MIN_RATE < rate < MAX_RATE)
  \/ (r = new_rate /\ Rabs (new_rate - rate) < TOLERANCE
      /\ Rabs (calculate_npv cfs new_rate) < TOLERANCE)
  \/ newton k cfs new_rate = Returned r.
Proof.
  intros Hret new_rate. simpl in Hret. fold new_rate in Hret.
  assert (Hcont :
    (if Rlt_dec (Rabs (calculate_npv_derivative cfs rate)) 1e-10
     then Fallback
     else
       if Rlt_dec (Rabs (new_rate - rate)) TOLERANCE
       then
         if Rlt_dec (Rabs (calculate_npv cfs new_rate)) TOLERANCE
         then Returned new_rate
         else Fallback
       else newton k cfs new_rate) = Returned r ->
    (r = new_rate /\ Rabs (new_rate - rate) < TOLERANCE
     /\ Rabs (calculate_npv cfs new_rate) < TOLERANCE)
    \/ newton k cfs new_rate = Returned r).
  { destruct (Rlt_dec (Rabs (calculate_npv_derivative cfs rate)) 1e-10) as [|_];
      [discriminate|].
    destruct (Rlt_dec (Rabs (new_rate - rate)) TOLERANCE) as [Hstep|_];
      [|intros H; right; exact H].
    destruct (Rlt_dec (Rabs (calculate_npv cfs new_rate)) TOLERANCE) as [Hnpv|_];
      [|discriminate].
    intros [= <-]. left. auto. }
  destruct (Rlt_dec (Rabs (calculate_npv cfs rate)) TOLERANCE) as [Hnpv|_];
    [|right; exact (Hcont Hret)].
  destruct (Rgt_dec rate MIN_RATE) as [Hlo|_]; [|right; exact (Hcont Hret)].
  destruct (Rlt_dec rate MAX_RATE) as [Hhi|_]; [|right; exact (Hcont Hret)].
  injection Hret as <-. left. auto.
Qed.

(** A returned rate has a present value within the tolerance and lies in
    [[MIN_RATE, MAX_RATE]]. *)
Lemma newton_Returned_range (iterations : nat) (cfs : list CashFlow) (guess r : R) :
  newton iterations cfs guess = Returned r ->
  Rabs (calculate_npv cfs r) < TOLERANCE /\ MIN_RATE <= r <= MAX_RATE.
Proof.
  revert guess. induction iterations as [|k IH]; intros guess Hret.
  - discriminate.
  - apply newton_iteration in Hret
      as [(-> & Hnpv & Hin)|[(-> & _ & Hnpv)|Hlater]].
    + split; [exact Hnpv|lra].
    + split; [exact Hnpv|apply clamp_bounds].
    + exact (IH _ Hlater).
Qed.

(** The Newton loop cannot return where the present value stays at or
    above the tolerance in absolute value. *)
Lemma newton_Fallback (iterations : nat) (cfs : list CashFlow) (guess : R) :
  (forall rate, TOLERANCE <= Rabs (calculate_npv cfs rate)) ->
  newton iterations cfs guess = Fallback.
Proof.
  intros Hbig. destruct (newton iterations cfs guess) as [r|] eqn:E; [|reflexivity].
  apply newton_Returned_range in E as [Hnpv _]. specialize (Hbig r). lra.
Qed.


(** *** Monotonicity of the present value *)

(** A cash flow whose offset and amount have the same sign is worth less
    at a higher rate. *)
Lemma discounted_strictly_decreasing (rate1 rate2 : R) (cf : CashFlow) :
  -1 < rate1 -> rate1 < rate2 ->
  0 < days_from_start cf * amount cf ->
  discounted rate2 cf < discounted rate1 cf.
Proof.
  intros H1 H12 Hsign. unfold discounted.
  set (years := days_from_start cf / 365.25).
  destruct (Rtotal_order years 0) as [Hneg|[Hzero|Hpos]].
  - assert (Ha : 0 < - amount cf) by (unfold years in Hneg; nra).
    assert (Hp : Rpower (1 + rate2) years < Rpower (1 + rate1) years)
      by (apply Rpower_lt_base_neg; [exact Hneg|lra]).
    pose proof (div_antitone_strict (- amount cf) _ _ Ha
                  (Rpower_positive (1 + rate2) years) Hp) as H.
    unfold Rdiv in *. lra.
  - unfold years in Hzero. nra.
  - assert (Ha : 0 < amount cf) by (unfold years in Hpos; nra).
    apply div_antitone_strict; [exact Ha|apply Rpower_positive|].
    apply Rlt_Rpower_l; [exact Hpos|lra].
Qed.

Lemma discounted_decreasing (rate1 rate2 : R) (cf : CashFlow) :
  -1 < rate1 -> rate1 < rate2 ->
  0 <= days_from_start cf * amount cf ->
  discounted rate2 cf <= discounted rate1 cf.
Proof.
  intros H1 H12 [Hsign|Hzero].
  - left. apply discounted_strictly_decreasing; assumption.
  - right. unfold discounted. symmetry in Hzero.
    apply Rmult_integral in Hzero as [Hd|Ha].
    + rewrite Hd. replace (0 / 365.25) with 0 by lra.
      rewrite !Rpower_0. reflexivity.
    + rewrite Ha. unfold Rdiv. rewrite !Rmult_0_l. reflexivity.
Qed.

Lemma calculate_npv_decreasing (cfs : list CashFlow) (rate1 rate2 : R) :
  -1 < rate1 -> rate1 < rate2 ->
  Forall (fun cf => 0 <= days_from_start cf * amount cf) cfs ->
  calculate_npv cfs rate2 <= calculate_npv cfs rate1.
Proof.
  intros H1 H12 Hall. induction Hall as [|cf cfs Hcf _ IH].
  - rewrite !calculate_npv_nil. lra.
  - rewrite !calculate_npv_cons.
    pose proof (discounted_decreasing rate1 rate2 cf H1 H12 Hcf). lra.
Qed.

Lemma calculate_npv_strictly_decreasing (cfs : list CashFlow) (rate1 rate2 : R) :
  -1 < rate1 -> rate1 < rate2 ->
  Forall (fun cf => 0 <= days_from_start cf * amount cf) cfs ->
  Exists (fun cf => 0 < days_from_start cf * amount cf) cfs ->
  calculate_npv cfs rate2 < calculate_npv cfs rate1.
Proof.
  intros H1 H12 Hall Hex. induction Hex as [cf cfs Hcf|cf cfs _ IH].
  - inversion Hall as [|? ? _ Hrest]; subst. rewrite !calculate_npv_cons.
    pose proof (discounted_strictly_decreasing rate1 rate2 cf H1 H12 Hcf).
    pose proof (calculate_npv_decreasing cfs rate1 rate2 H1 H12 Hrest). lra.
  - inversion Hall as [|? ? Hcf Hrest]; subst. rewrite !calculate_npv_cons.
    pose proof (discounted_decreasing rate1 rate2 cf H1 H12 Hcf).
    specialize (IH Hrest). lra.
Qed.

(** The summand of [calculate_npv_derivative] for one cash flow. *)
Lemma derivative_term_sign (rate : R) (cf : CashFlow) :
  (0 <= days_from_start cf * amount cf ->
   - (days_from_start cf / 365.25) * amount cf
     / Rpower (1 + rate) (days_from_start cf / 365.25 + 1) <= 0)
  /\ (0 < days_from_start cf * amount cf ->
      - (days_from_start cf / 365.25) * amount cf
        / Rpower (1 + rate) (days_from_start cf / 365.25 + 1) < 0).
Proof.
  pose proof (Rpower_positive (1 + rate) (days_from_start cf / 365.25 + 1)) as Hp.
  apply Rinv_0_lt_compat in Hp. unfold Rdiv.
  split; intros Hsign; nra.
Qed.

Lemma calculate_npv_derivative_nonpos (cfs : list CashFlow) (rate : R) :
  Forall (fun cf => 0 <= days_from_start cf * amount cf) cfs ->
  calculate_npv_derivative cfs rate <= 0.
Proof.
  intros Hall. induction Hall as [|cf cfs Hcf _ IH].
  - unfold calculate_npv_derivative. simpl. lra.
  - rewrite calculate_npv_derivative_cons.
    pose proof (proj1 (derivative_term_sign rate cf) Hcf). lra.
Qed.

Lemma calculate_npv_derivative_negative (cfs : list CashFlow) (rate : R) :
  Forall (fun cf => 0 <= days_from_start cf * amount cf) cfs ->
  Exists (fun cf => 0 < days_from_start cf * amount cf) cfs ->
  calculate_npv_derivative cfs rate < 0.
Proof.
  intros Hall Hex. induction Hex as [cf cfs Hcf|cf cfs _ IH].
  - inversion Hall as [|? ? _ Hrest]; subst.
    rewrite calculate_npv_derivative_cons.
    pose proof (proj2 (derivative_term_sign rate cf) Hcf).
    pose proof (calculate_npv_derivative_nonpos cfs rate Hrest). lra.
  - inversion Hall as [|? ? Hcf Hrest]; subst.
    rewrite calculate_npv_derivative_cons.
    pose proof (proj1 (derivative_term_sign rate cf) Hcf).
    specialize (IH Hrest). lra.
Qed.

(** *** Bisection *)

(** Bisection started on a bracket where the present value goes from
    positive to negative, and given enough iterations to shrink the
    bracket below the tolerance, returns a rate: either one where the
    present value is within tolerance, or the midpoint of a bracket
    narrower than the tolerance that still holds the sign change. *)
Lemma binary_search_bracket (cfs : list CashFlow) (iterations : nat) :
  forall low high npv_low npv_high,
    npv_low = calculate_npv cfs low ->
    0 < npv_low ->
    calculate_npv cfs high < 0 ->
    TOLERANCE <= high - low ->
    high - low < TOLERANCE * 2 ^ iterations ->
    exists r,
      binary_search iterations cfs low high npv_low npv_high = Rate r
      /\ low < r < high
      /\ (Rabs (calculate_npv cfs r) < TOLERANCE
          \/ exists l h,
               low <= l /\ h <= high /\ l < r < h /\ h - l < TOLERANCE
               /\ 0 < calculate_npv cfs l /\ calculate_npv cfs h < 0).
Proof.
  assert (Htol : 0 < TOLERANCE) by (unfold TOLERANCE; lra).
  induction iterations as [|k IH]; intros low high npv_low npv_high Hlow Hpos Hneg Hwide Hfuel.
  - simpl in Hfuel. lra.
  - simpl. set (mid := (low + high) / 2).
    assert (Hmid : low < mid < high) by (unfold mid; lra).
    destruct (Rlt_dec (Rabs (calculate_npv cfs mid)) TOLERANCE) as [Hacc|Hrej].
    { exists mid. split; [reflexivity|]. split; [exact Hmid|]. left. exact Hacc. }
    assert (Hpow : high - low < TOLERANCE * 2 * 2 ^ k)
      by (simpl in Hfuel; lra).
    destruct (Rlt_dec (calculate_npv cfs mid * npv_low) 0) as [Hsign|Hsign].
    + assert (Hm : calculate_npv cfs mid < 0) by nra.
      destruct (Rlt_dec (mid - low) TOLERANCE) as [Hnarrow|Hnarrow].
      * exists ((low + mid) / 2). split; [reflexivity|]. split; [lra|].
        right. exists low, mid. subst npv_low. repeat split; lra.
      * destruct (IH low mid npv_low (calculate_npv cfs mid))
          as (r & Hr & Hin & Hres); try assumption; try lra.
        { unfold mid. lra. }
        exists r. split; [exact Hr|]. split; [lra|].
        destruct Hres as [Hres|(l & h & Hl & Hh & Hres)]; [left; exact Hres|].
        right. exists l, h. repeat split; try tauto; lra.
    + assert (Hm : 0 < calculate_npv cfs mid).
      { assert (Hge : 0 <= calculate_npv cfs mid) by nra.
        unfold Rabs in Hrej. destruct (Rcase_abs (calculate_npv cfs mid)); lra. }
      destruct (Rlt_dec (high - mid) TOLERANCE) as [Hnarrow|Hnarrow].
      * exists ((mid + high) / 2). split; [reflexivity|]. split; [lra|].
        right. exists mid, high. repeat split; lra.
      * destruct (IH mid high (calculate_npv cfs mid) npv_high)
          as (r & Hr & Hin & Hres); try assumption; try lra.
        { unfold mid. lra. }
        exists r. split; [exact Hr|]. split; [lra|].
        destruct Hres as [Hres|(l & h & Hl & Hh & Hres)]; [left; exact Hres|].
        right. exists l, h. repeat split; try tauto; lra.
Qed.

(** *** The one-year example *)

Lemma one_year_npv (rate : R) :
  calculate_npv one_year_gain rate
  = 1100 / Rpower (1 + rate) (365 / 365.25) - 1000.
Proof.
  unfold one_year_gain. rewrite !calculate_npv_cons, calculate_npv_nil.
  unfold discounted. simpl.
  replace (0 / 365.25) with 0 by lra. rewrite Rpower_0. lra.
Qed.

Lemma ln_11_bounds : 0.0947 < ln 1.1 < 0.0960.
Proof.
  split.
  - assert (H : ln (1.01198 ^ 8) <= ln 1.1)
      by (apply ln_le_compat; lra).
    rewrite ln_pow in H by lra. simpl INR in H.
    pose proof (ln_lower 1.01198 ltac:(lra)). lra.
  - assert (H : ln 1.1 <= ln (1.01199 ^ 8))
      by (apply ln_le_compat; lra).
    rewrite ln_pow in H by lra. simpl INR in H.
    pose proof (ln_upper 1.01199 ltac:(lra)). lra.
Qed.

Lemma one_year_root_bounds : 0.100071 < one_year_root < 0.100073.
Proof.
  unfold one_year_root.
  replace (365.25 / 365) with (1 + / 1460) by lra.
  rewrite Rpower_plus, Rpower_1 by lra.
  unfold Rpower. replace (/ 1460 * ln 1.1) with (ln 1.1 / 1460) by lra.
  pose proof ln_11_bounds as [Hlo Hhi].
  pose proof (exp_ineq1_le (ln 1.1 / 1460)) as Hexp_lo.
  assert (Hx : ln 1.1 / 1460 <= 0.0960 / 1460) by lra.
  apply exp_le_compat in Hx.
  pose proof (exp_upper (0.0960 / 1460) ltac:(lra)) as Hexp_hi.
  split; lra.
Qed.

Lemma one_year_root_power :
  Rpower (1 + one_year_root) (365 / 365.25) = 1.1.
Proof.
  unfold one_year_root.
  replace (1 + (Rpower 1.1 (365.25 / 365) - 1)) with (Rpower 1.1 (365.25 / 365))
    by lra.
  rewrite Rpower_mult.
  replace (365.25 / 365 * (365 / 365.25)) with 1 by lra.
  apply Rpower_1. lra.
Qed.

Lemma one_year_npv_root : calculate_npv one_year_gain one_year_root = 0.
Proof. rewrite one_year_npv, one_year_root_power. lra. Qed.

Lemma one_year_scale (p : R) : 0 < p -> 1100 / (1.1 * p) = 1000 * / p.
Proof.
  intros Hp. assert (Hnz : 1.1 * p <> 0) by lra.
  apply (Rmult_eq_reg_r (1.1 * p)); [|exact Hnz].
  unfold Rdiv. rewrite Rmult_assoc, Rinv_l by exact Hnz.
  rewrite (Rmult_comm 1.1 p), Rmult_assoc, <- (Rmult_assoc (/ p)), Rinv_l by lra.
  lra.
Qed.

Lemma one_year_monotone :
  Forall (fun cf => 0 <= days_from_start cf * amount cf) one_year_gain
  /\ Exists (fun cf => 0 < days_from_start cf * amount cf) one_year_gain.
Proof.
  split.
  - repeat constructor; simpl; lra.
  - right. left. simpl. lra.
Qed.

(** Away from the root the present value of the example is far outside
    the tolerance. *)
Lemma one_year_npv_far (rate : R) :
  -1 < rate -> 1e-6 <= Rabs (rate - one_year_root) ->
  TOLERANCE <= Rabs (calculate_npv one_year_gain rate).
Proof.
  intros Hdom Hfar. rewrite one_year_npv.
  pose proof one_year_root_bounds as [Hr1 Hr2].
  set (q := (1 + rate) / (1 + one_year_root)).
  assert (Hq : 0 < q)
    by (unfold q; apply Rdiv_lt_0_compat; lra).
  assert (Hsplit : Rpower (1 + rate) (365 / 365.25)
                   = 1.1 * Rpower q (365 / 365.25)).
  { rewrite <- one_year_root_power. rewrite Rpower_mult_distr by lra.
    f_equal. unfold q. field. lra. }
  rewrite Hsplit.
  pose proof (Rpower_positive q (365 / 365.25)) as HQ.
  unfold TOLERANCE.
  destruct (Rle_or_lt one_year_root rate) as [Hge|Hlt].
  - (* the rate is above the root: the value is below -TOLERANCE *)
    assert (Hrate : one_year_root + 1e-6 <= rate).
    { unfold Rabs in Hfar. destruct (Rcase_abs (rate - one_year_root)); lra. }
    assert (Hq1 : 1 + 9e-7 <= q).
    { unfold q. apply div_lower; [lra|]. nra. }
    assert (Hln : 8e-7 <= ln q).
    { pose proof (ln_le_compat (1 + 9e-7) q ltac:(lra) Hq1).
      pose proof (ln_lower (1 + 9e-7) ltac:(lra)). lra. }
    assert (Hpow : 1 + 7e-7 <= Rpower q (365 / 365.25)).
    { unfold Rpower.
      pose proof (exp_ineq1_le (365 / 365.25 * ln q)). nra. }
    assert (Hval : 1100 / (1.1 * Rpower q (365 / 365.25)) - 1000 <= - 1e-7).
    { assert (Hinv : / Rpower q (365 / 365.25) <= / (1 + 7e-7))
        by (apply Rinv_le_contravar; lra).
      rewrite (one_year_scale _ HQ).
      lra. }
    unfold Rabs. destruct Rcase_abs; lra.
  - (* the rate is below the root: the value is above TOLERANCE *)
    assert (Hrate : rate <= one_year_root - 1e-6).
    { unfold Rabs in Hfar. destruct (Rcase_abs (rate - one_year_root)); lra. }
    assert (Hq1 : q <= 1 - 9e-7).
    { unfold q. apply div_upper; [lra|]. nra. }
    assert (Hln : ln q <= - 9e-7).
    { pose proof (ln_upper q Hq). lra. }
    assert (Hpow : Rpower q (365 / 365.25) <= / (1 + 8e-7)).
    { unfold Rpower.
      assert (Hx : 365 / 365.25 * ln q <= - 8e-7) by nra.
      eapply Rle_trans; [|apply exp_opp_upper; lra].
      apply exp_le_compat. lra. }
    assert (Hval : 1e-7 <= 1100 / (1.1 * Rpower q (365 / 365.25)) - 1000).
    { assert (Hinv : 1 + 8e-7 <= / Rpower q (365 / 365.25)).
      { rewrite <- (Rinv_inv (1 + 8e-7)).
        apply Rinv_le_contravar; [exact HQ|exact Hpow]. }
      rewrite (one_year_scale _ HQ).
      lra. }
    unfold Rabs. destruct Rcase_abs; lra.
Qed.

(** The immediate-accept exit of the Newton loop. *)
Lemma newton_accept (iterations : nat) (cfs : list CashFlow) (rate : R) :
  Rabs (calculate_npv cfs rate) < TOLERANCE ->
  MIN_RATE < rate < MAX_RATE ->
  newton (S iterations) cfs rate = Returned rate.
Proof.
  intros Hnpv [Hlo Hhi]. simpl.
  destruct (Rlt_dec (Rabs (calculate_npv cfs rate)) TOLERANCE); [|contradiction].
  destruct (Rgt_dec rate MIN_RATE) as [|Hn]; [|exfalso; apply Hn; exact Hlo].
  destruct (Rlt_dec rate MAX_RATE); [reflexivity|contradiction].
Qed.

(** Whatever the Newton phase does on the one-year example, the solver
    ends within [1e-6] of the root. *)
Lemma one_year_solution :
  exists r,
    calculate_xirr one_year_gain default_guess = Rate r
    /\ Rabs (r - one_year_root) < 1e-6.
Proof.
  pose proof one_year_root_bounds as [Hr1 Hr2].
  pose proof one_year_monotone as [Hall Hex].
  assert (Hclose : forall r, -1 < r ->
            Rabs (calculate_npv one_year_gain r) < TOLERANCE ->
            Rabs (r - one_year_root) < 1e-6).
  { intros r Hdom Hnpv.
    destruct (Rlt_or_le (Rabs (r - one_year_root)) 1e-6) as [H|H]; [exact H|].
    pose proof (one_year_npv_far r Hdom H). lra. }
  unfold calculate_xirr. simpl (length one_year_gain <? 2)%nat. cbv iota.
  destruct (newton MAX_NEWTON_ITERATIONS one_year_gain default_guess)
    as [r|] eqn:E.
  - exists r. split; [reflexivity|].
    apply newton_Returned_range in E as [Hnpv Hrange].
    apply Hclose; [unfold MIN_RATE in Hrange; lra|exact Hnpv].
  - unfold fallback.
    assert (Hlow : 0 < calculate_npv one_year_gain MIN_RATE).
    { rewrite <- one_year_npv_root.
      apply calculate_npv_strictly_decreasing; try assumption;
        unfold MIN_RATE; lra. }
    assert (Hhigh : calculate_npv one_year_gain MAX_RATE < 0).
    { rewrite <- one_year_npv_root.
      apply calculate_npv_strictly_decreasing; try assumption;
        unfold MAX_RATE; lra. }
    destruct (Rgt_dec (calculate_npv one_year_gain MIN_RATE
                       * calculate_npv one_year_gain MAX_RATE) 0) as [Hbad|_];
      [nra|].
    destruct (binary_search_bracket one_year_gain MAX_BINARY_ITERATIONS
                MIN_RATE MAX_RATE (calculate_npv one_year_gain MIN_RATE)
                (calculate_npv one_year_gain MAX_RATE))
      as (r & Hr & Hin & Hres); try assumption; try reflexivity.
    { unfold TOLERANCE, MIN_RATE, MAX_RATE. lra. }
    { unfold TOLERANCE, MIN_RATE, MAX_RATE, MAX_BINARY_ITERATIONS. lra. }
    exists r. split; [exact Hr|].
    destruct Hres as [Hnpv|(l & h & Hl & Hh & Hlh & Hnarrow & Hnl & Hnh)].
    + apply Hclose; [unfold MIN_RATE in Hin; lra|exact Hnpv].
    + assert (Hl_root : l < one_year_root).
      { destruct (Rlt_or_le l one_year_root) as [H|[H|H]]; [exact H| |].
        - pose proof (calculate_npv_decreasing one_year_gain one_year_root l
                        ltac:(lra) H Hall) as Hd.
          rewrite one_year_npv_root in Hd. lra.
        - rewrite <- H, one_year_npv_root in Hnl. lra. }
      assert (Hroot_h : one_year_root < h).
      { destruct (Rlt_or_le one_year_root h) as [H|[H|H]]; [exact H| |].
        - pose proof (calculate_npv_decreasing one_year_gain h one_year_root
                        ltac:(unfold MIN_RATE in *; lra) H Hall) as Hd.
          rewrite one_year_npv_root in Hd. lra.
        - rewrite H, one_year_npv_root in Hnh. lra. }
      unfold TOLERANCE in Hnarrow. apply Rabs_def1; lra.
Qed.

(** *** The claims *)

(** C1 (as amended).  On the cash flows [(0, -1000), (365, 1100)] and
    the default initial guess [0.1] the solver returns a rate within
    [1e-6] of [1.1 ^ (365.25 / 365) - 1], the rate that zeroes the
    present value under the 365.25-day year; that rate lies between
    [0.10007] and [0.10008]. *)
Theorem xirr_one_year_gain :
  exists r,
    calculate_xirr one_year_gain default_guess = Rate r
    /\ Rabs (r - one_year_root) < 1e-6
    /\ 0.10007 < r < 0.10008.
Proof.
  destruct one_year_solution as (r & Hr & Hclose).
  exists r. split; [exact Hr|]. split; [exact Hclose|].
  pose proof one_year_root_bounds as [Hr1 Hr2].
  apply Rabs_def2 in Hclose. lra.
Qed.

(** C1 as stated fails: the returned rate is not within [1e-6] of
    [0.10]. *)
Lemma xirr_one_year_gain_not_ten_percent :
  ~ exists r,
      calculate_xirr one_year_gain default_guess = Rate r
      /\ Rabs (r - 0.10) <= 1e-6.
Proof.
  intros (r & Hr & Hten).
  destruct one_year_solution as (r' & Hr' & Hclose).
  rewrite Hr in Hr'. injection Hr' as <-.
  pose proof one_year_root_bounds as [Hr1 Hr2].
  apply Rabs_def2 in Hclose.
  unfold Rabs in Hten. destruct (Rcase_abs (r - 0.10)); lra.
Qed.

(** C2.  A rate returned by the Newton phase has a present value within
    the tolerance; it is either the current rate, strictly inside
    [(MIN_RATE, MAX_RATE)], or the clamped Newton step from a rate less
    than the tolerance away, at which the present value was evaluated
    again. *)
Theorem newton_return_within_tolerance
    (iterations : nat) (cfs : list CashFlow) (guess r : R) :
  newton iterations cfs guess = Returned r ->
  Rabs (calculate_npv cfs r) < TOLERANCE
  /\ (MIN_RATE < r < MAX_RATE
      \/ exists rate,
           r = clamp (rate - calculate_npv cfs rate
                               / calculate_npv_derivative cfs rate)
           /\ Rabs (r - rate) < TOLERANCE).
Proof.
  revert guess. induction iterations as [|k IH]; intros guess Hret.
  - discriminate.
  - apply newton_iteration in Hret
      as [(-> & Hnpv & Hin)|[(-> & Hstep & Hnpv)|Hlater]].
    + split; [exact Hnpv|left; exact Hin].
    + split; [exact Hnpv|]. right. exists guess. split; [reflexivity|exact Hstep].
    + exact (IH _ Hlater).
Qed.

Lemma balanced_npv (rate : R) : calculate_npv balanced rate = 0.
Proof.
  unfold balanced. rewrite !calculate_npv_cons, calculate_npv_nil.
  unfold discounted. simpl.
  replace (0 / 365.25) with 0 by lra. rewrite Rpower_0. lra.
Qed.

Lemma balanced_newton :
  newton MAX_NEWTON_ITERATIONS balanced default_guess = Returned default_guess.
Proof.
  apply (newton_accept 49).
  - rewrite balanced_npv, Rabs_R0. unfold TOLERANCE. lra.
  - unfold MIN_RATE, MAX_RATE, default_guess. lra.
Qed.

Example calculate_xirr_balanced :
  calculate_xirr balanced default_guess = Rate default_guess.
Proof.
  unfold calculate_xirr. simpl (length balanced <? 2)%nat. cbv iota.
  rewrite balanced_newton. reflexivity.
Qed.

Lemma newton_return_within_tolerance_witness :
  Rabs (calculate_npv balanced default_guess) < TOLERANCE
  /\ (MIN_RATE < default_guess < MAX_RATE
      \/ exists rate,
           default_guess
           = clamp (rate - calculate_npv balanced rate
                             / calculate_npv_derivative balanced rate)
           /\ Rabs (default_guess - rate) < TOLERANCE).
Proof.
  exact (newton_return_within_tolerance MAX_NEWTON_ITERATIONS balanced
           default_guess default_guess balanced_newton).
Defined.

Lemma small_inflows_npv :
  Rabs (calculate_npv small_inflows default_guess) < TOLERANCE.
Proof.
  unfold small_inflows. rewrite !calculate_npv_cons, calculate_npv_nil.
  unfold discounted, default_guess. simpl.
  replace (0 / 365.25) with 0 by lra. rewrite Rpower_0.
  set (p := Rpower (1 + 0.1) (365 / 365.25)).
  assert (Hp : 1 <= p).
  { unfold p, Rpower. replace (1 + 0.1) with 1.1 by lra.
    pose proof ln_11_bounds as [Hln _].
    pose proof (exp_ineq1_le (365 / 365.25 * ln 1.1)). nra. }
  assert (Hd : 0 < 1e-8 / p <= 1e-8).
  { split.
    - apply Rdiv_lt_0_compat; lra.
    - apply div_upper; [lra|nra]. }
  unfold TOLERANCE. apply Rabs_def1; lra.
Qed.

(** With all amounts positive every summand of the present value is
    positive. *)
Lemma calculate_npv_positive (cfs : list CashFlow) (rate : R) :
  Forall (fun cf => 0 < amount cf) cfs -> 0 <= calculate_npv cfs rate.
Proof.
  intros Hall. induction Hall as [|cf cfs Hcf _ IH].
  - rewrite calculate_npv_nil. lra.
  - rewrite calculate_npv_cons.
    assert (0 < discounted rate cf)
      by (apply Rdiv_lt_0_compat; [exact Hcf|apply Rpower_positive]).
    lra.
Qed.

Lemma calculate_npv_above_tolerance (cfs : list CashFlow) (rate : R) :
  Forall (fun cf => 0 < amount cf) cfs ->
  Exists (fun cf => days_from_start cf = 0 /\ TOLERANCE <= amount cf) cfs ->
  TOLERANCE <= calculate_npv cfs rate.
Proof.
  intros Hall Hex. induction Hex as [cf cfs [Hday Hamt]|cf cfs _ IH].
  - inversion Hall as [|? ? _ Hrest]; subst. rewrite calculate_npv_cons.
    pose proof (calculate_npv_positive cfs rate Hrest).
    unfold discounted. rewrite Hday.
    replace (0 / 365.25) with 0 by lra. rewrite Rpower_0. lra.
  - inversion Hall as [|? ? Hcf Hrest]; subst. rewrite calculate_npv_cons.
    assert (0 < discounted rate cf)
      by (apply Rdiv_lt_0_compat; [exact Hcf|apply Rpower_positive]).
    specialize (IH Hrest). lra.
Qed.

(** C3 (as amended).  On at least two cash flows, all with a positive
    amount and one of them on day 0 with an amount of at least the
    tolerance, and for an initial guess above -1, the Newton phase cannot
    accept any rate, the present value is positive at both ends of
    [[MIN_RATE, MAX_RATE]], and the solver returns the not-a-number
    sentinel. *)
Theorem xirr_all_inflows (cfs : list CashFlow) (initial_guess : R) :
  (2 <= length cfs)%nat ->
  Forall (fun cf => 0 < amount cf) cfs ->
  Exists (fun cf => days_from_start cf = 0 /\ TOLERANCE <= amount cf) cfs ->
  -1 < initial_guess ->
  0 < calculate_npv cfs MIN_RATE * calculate_npv cfs MAX_RATE
  /\ calculate_xirr cfs initial_guess = NaN.
Proof.
  intros Hlen Hall Hex _.
  assert (Htol : 0 < TOLERANCE) by (unfold TOLERANCE; lra).
  assert (Hbig : forall rate, TOLERANCE <= calculate_npv cfs rate)
    by (intros rate; apply calculate_npv_above_tolerance; assumption).
  assert (Hprod : 0 < calculate_npv cfs MIN_RATE * calculate_npv cfs MAX_RATE).
  { apply Rmult_lt_0_compat.
    - specialize (Hbig MIN_RATE). lra.
    - specialize (Hbig MAX_RATE). lra. }
  split; [exact Hprod|].
  unfold calculate_xirr.
  destruct (length cfs <? 2)%nat eqn:E; [apply Nat.ltb_lt in E; lia|].
  rewrite newton_Fallback.
  - unfold fallback. destruct Rgt_dec as [|Hn]; [reflexivity|].
    exfalso. apply Hn. exact Hprod.
  - intros rate. specialize (Hbig rate).
    unfold Rabs. destruct Rcase_abs; lra.
Qed.

Lemma xirr_all_inflows_witness :
  0 < calculate_npv all_inflows MIN_RATE * calculate_npv all_inflows MAX_RATE
  /\ calculate_xirr all_inflows default_guess = NaN.
Proof.
  apply (xirr_all_inflows all_inflows default_guess).
  - simpl. lia.
  - unfold all_inflows. repeat constructor; simpl; lra.
  - left. simpl. unfold TOLERANCE. split; lra.
  - unfold default_guess. lra.
Defined.

(** C3 as stated fails: two positive amounts of [1e-8] are a sequence
    without sign change on which the solver returns the initial guess. *)
Lemma xirr_small_inflows_returns_guess :
  (2 <= length small_inflows)%nat
  /\ Forall (fun cf => 0 < amount cf) small_inflows
  /\ calculate_xirr small_inflows default_guess = Rate default_guess
  /\ calculate_xirr small_inflows default_guess <> NaN.
Proof.
  assert (E : calculate_xirr small_inflows default_guess = Rate default_guess).
  { unfold calculate_xirr. simpl (length small_inflows <? 2)%nat. cbv iota.
    rewrite (newton_accept 49); [reflexivity|exact small_inflows_npv|].
    unfold MIN_RATE, MAX_RATE, default_guess. lra. }
  split; [simpl; lia|]. split.
  - unfold small_inflows. repeat constructor; simpl; lra.
  - split; [exact E|]. rewrite E. discriminate.
Qed.

(** C4.  With fewer than two cash flows the solver returns the
    not-a-number sentinel, whatever the initial guess; the function is
    total, so nothing is raised. *)
Theorem xirr_undersupplied (cfs : list CashFlow) (initial_guess : R) :
  (length cfs < 2)%nat -> calculate_xirr cfs initial_guess = NaN.
Proof.
  intros Hlen. unfold calculate_xirr.
  destruct (length cfs <? 2)%nat eqn:E; [reflexivity|].
  apply Nat.ltb_ge in E. lia.
Qed.

Lemma xirr_undersupplied_witness :
  calculate_xirr [] default_guess = NaN
  /\ calculate_xirr [mkCashFlow 0 (-1000)] default_guess = NaN.
Proof.
  split.
  - apply (xirr_undersupplied [] default_guess). simpl. lia.
  - apply (xirr_undersupplied [mkCashFlow 0 (-1000)] default_guess). simpl. lia.
Defined.

(** *** The closed-form derivative *)

Lemma derivable_pt_lim_ext (f g : R -> R) (x l : R) :
  (forall z, f z = g z) -> derivable_pt_lim f x l -> derivable_pt_lim g x l.
Proof.
  intros Heq Hf eps Heps. destruct (Hf eps Heps) as [delta Hdelta].
  exists delta. intros h Hh Hsmall. rewrite <- !Heq. apply Hdelta; assumption.
Qed.

Lemma discounted_derivative (cf : CashFlow) (rate : R) :
  -1 < rate ->
  derivable_pt_lim (fun r => discounted r cf) rate
    (- (days_from_start cf / 365.25) * amount cf
     / Rpower (1 + rate) (days_from_start cf / 365.25 + 1)).
Proof.
  intros Hdom. set (years := days_from_start cf / 365.25).
  assert (Hshift : derivable_pt_lim (fun r => 1 + r) rate (0 + 1)).
  { apply (derivable_pt_lim_plus (fun _ => 1) (fun r => r)).
    - apply derivable_pt_lim_const.
    - apply derivable_pt_lim_id. }
  assert (Hpow : derivable_pt_lim (fun x => Rpower x (- years)) (1 + rate)
                   (- years * Rpower (1 + rate) (- years - 1)))
    by (apply derivable_pt_lim_power; lra).
  pose proof (derivable_pt_lim_comp _ _ _ _ _ Hshift Hpow) as Hcomp.
  pose proof (derivable_pt_lim_scal _ (amount cf) _ _ Hcomp) as Hscal.
  replace (- years * amount cf / Rpower (1 + rate) (years + 1))
    with (amount cf * (- years * Rpower (1 + rate) (- years - 1) * (0 + 1))).
  - refine (derivable_pt_lim_ext _ _ _ _ _ Hscal).
    intros z. unfold mult_real_fct, comp, discounted. fold years.
    rewrite Rpower_Ropp. reflexivity.
  - replace (- years - 1) with (- (years + 1)) by lra.
    rewrite Rpower_Ropp. unfold Rdiv. lra.
Qed.

(** [calculate_npv_derivative] is the derivative of [calculate_npv] with
    respect to the rate wherever [1 + rate] is positive. *)
Lemma calculate_npv_derivable (cfs : list CashFlow) (rate : R) :
  -1 < rate ->
  derivable_pt_lim (calculate_npv cfs) rate (calculate_npv_derivative cfs rate).
Proof.
  intros Hdom. induction cfs as [|cf cfs IH].
  - apply (derivable_pt_lim_ext (fun _ => 0)); [reflexivity|].
    apply derivable_pt_lim_const.
  - rewrite calculate_npv_derivative_cons.
    pose proof (derivable_pt_lim_plus _ _ _ _ _
                  (discounted_derivative cf rate Hdom) IH) as Hsum.
    refine (derivable_pt_lim_ext _ _ _ _ _ Hsum).
    intros z. unfold plus_fct. rewrite calculate_npv_cons. reflexivity.
Qed.

Lemma Rpower_base_1 (y : R) : Rpower 1 y = 1.
Proof. unfold Rpower. rewrite ln_1, Rmult_0_r. apply exp_0. Qed.

(** C5 as stated fails: the loan has a cash flow with positive offset and
    nonzero amount, yet its present value is larger at rate 1 than at
    rate 0 and its derivative at rate 0 is positive. *)
Lemma loan_npv_increases :
  Exists (fun cf => 0 < days_from_start cf /\ amount cf <> 0) loan
  /\ calculate_npv loan 0 < calculate_npv loan 1
  /\ 0 < calculate_npv_derivative loan 0.
Proof.
  split; [right; left; simpl; split; lra|].
  unfold loan.
  rewrite !calculate_npv_cons, !calculate_npv_nil.
  rewrite !calculate_npv_derivative_cons.
  unfold discounted, calculate_npv_derivative. simpl.
  replace (0 / 365.25) with 0 by lra.
  replace (365.25 / 365.25) with 1 by lra.
  replace (1 + 0) with 1 by lra. replace (1 + 1) with 2 by lra.
  rewrite !Rpower_base_1, Rpower_0, Rpower_1 by lra.
  split; lra.
Qed.

(** C5 (as amended).  When no cash flow has an offset and an amount of
    opposite signs, and at least one has a positive offset and a positive
    amount, the present value is strictly decreasing in the rate wherever
    [1 + rate] is positive, and [calculate_npv_derivative], which is its
    derivative there, is strictly negative. *)
Theorem npv_strictly_decreasing (cfs : list CashFlow) :
  Forall (fun cf => 0 <= days_from_start cf * amount cf) cfs ->
  Exists (fun cf => 0 < days_from_start cf /\ 0 < amount cf) cfs ->
  (forall rate1 rate2, -1 < rate1 -> rate1 < rate2 ->
     calculate_npv cfs rate2 < calculate_npv cfs rate1)
  /\ (forall rate, -1 < rate ->
        derivable_pt_lim (calculate_npv cfs) rate
          (calculate_npv_derivative cfs rate)
        /\ calculate_npv_derivative cfs rate < 0).
Proof.
  intros Hall Hex.
  assert (Hex' : Exists (fun cf => 0 < days_from_start cf * amount cf) cfs).
  { apply (Exists_impl _ _ _ Hex). intros cf [Hd Ha]. nra. }
  split.
  - intros rate1 rate2 H1 H12.
    apply calculate_npv_strictly_decreasing; assumption.
  - intros rate Hdom. split.
    + apply calculate_npv_derivable. exact Hdom.
    + apply calculate_npv_derivative_negative; assumption.
Qed.

Lemma npv_strictly_decreasing_witness :
  (forall rate1 rate2, -1 < rate1 -> rate1 < rate2 ->
     calculate_npv one_year_gain rate2 < calculate_npv one_year_gain rate1)
  /\ (forall rate, -1 < rate ->
        derivable_pt_lim (calculate_npv one_year_gain) rate
          (calculate_npv_derivative one_year_gain rate)
        /\ calculate_npv_derivative one_year_gain rate < 0).
Proof.
  apply (npv_strictly_decreasing one_year_gain).
  - unfold one_year_gain. repeat constructor; simpl; lra.
  - right. left. simpl. split; lra.
Defined.

End FinanceFacts.

(** ** Facts about the indicators *)

Module IndicatorsFacts.
Import Indicators Statistics IndicatorsAux RealFacts.

(** *** Loops and buffers *)

(** A loop whose body keeps an invariant, and cannot fail where the
    invariant holds, runs to its end and establishes the invariant
    there. *)
Lemma for_loop_invariant {St : Type} (P : nat -> St -> Prop)
    (body : nat -> St -> option St) (count : nat) :
  forall first s,
    P first s ->
    (forall i t, (first <= i < first + count)%nat -> P i t ->
       exists t', body i t = Some t' /\ P (S i) t') ->
    exists s', for_loop count first body s = Some s' /\ P (first + count)%nat s'.
Proof.
  induction count as [|count IH]; intros first s Hinit Hstep.
  - exists s. split; [reflexivity|]. rewrite Nat.add_0_r. exact Hinit.
  - destruct (Hstep first s ltac:(lia) Hinit) as (t & Hbody & Ht).
    destruct (IH (S first) t Ht) as (s' & Hloop & Hs').
    { intros i u Hi Hu. apply Hstep; [lia|exact Hu]. }
    exists s'. split.
    + simpl. rewrite Hbody. simpl. exact Hloop.
    + replace (first + S count)%nat with (S first + count)%nat by lia. exact Hs'.
Qed.

(** A loop that reaches an index where its body fails in every state
    fails. *)
Lemma for_loop_fails {St : Type} (body : nat -> St -> option St)
    (count : nat) (bad : nat) :
  forall first s,
    (first <= bad < first + count)%nat ->
    (forall t, body bad t = None) ->
    for_loop count first body s = None.
Proof.
  induction count as [|count IH]; intros first s Hbad Hfail; [lia|].
  simpl. destruct (body first s) as [t|] eqn:Hbody; simpl; [|reflexivity].
  destruct (decide (first = bad)) as [->|Hne].
  - rewrite Hfail in Hbody. discriminate.
  - apply IH; [lia|exact Hfail].
Qed.

Lemma length_zeros (n : nat) : length (zeros n) = n.
Proof. apply length_replicate. Qed.

Lemma lookup_zeros (n i : nat) : (i < n)%nat -> zeros n !! i = Some 0.
Proof. apply lookup_replicate_2. Qed.

Lemma write_Some (v : list R) (i : nat) (x : R) :
  (i < length v)%nat -> write v i x = Some (<[i := x]> v).
Proof. intros Hi. unfold write. destruct decide; [reflexivity|lia]. Qed.

Lemma write_None (v : list R) (i : nat) (x : R) :
  (length v <= i)%nat -> write v i x = None.
Proof. intros Hi. unfold write. destruct decide; [lia|reflexivity]. Qed.

Lemma to_size_t_nonneg (z : Z) : (0 <= z)%Z -> to_size_t z = Z.to_nat z.
Proof.
  intros Hz. unfold to_size_t.
  destruct (z <? 0)%Z eqn:E; [apply Z.ltb_lt in E; lia|reflexivity].
Qed.

Lemma read_back_eq (v : list R) (i j : nat) :
  (j <= i)%nat -> read_back v i j = v !! (i - j)%nat.
Proof.
  intros Hj. unfold read_back. rewrite to_size_t_nonneg by lia.
  f_equal. lia.
Qed.

(** *** Sums over trailing windows *)

Lemma sum_list_app (xs ys : list R) :
  sum_list (xs ++ ys) = sum_list xs + sum_list ys.
Proof.
  unfold sum_list. induction xs as [|x xs IH]; simpl; [|rewrite IH]; lra.
Qed.

Lemma length_trailing_window (xs : list R) (w i : nat) :
  (w <= S i)%nat -> (i < length xs)%nat -> length (trailing_window xs w i) = w.
Proof.
  intros Hw Hi. unfold trailing_window.
  rewrite length_take, length_drop. lia.
Qed.

(** The inner loops read the window backwards, from index [i] down. *)
Lemma window_fold (f : R -> R) (xs : list R) (i count : nat) :
  forall j acc,
    (j + count <= S i)%nat -> (i < length xs)%nat ->
    for_loop count j (fun j acc => p ← read_back xs i j; Some (acc + f p)) acc
    = Some (acc + sum_list (map f (take count (drop (S i - j - count) xs)))).
Proof.
  induction count as [|count IH]; intros j acc Hj Hi.
  - simpl. unfold sum_list. simpl. f_equal. lra.
  - simpl for_loop. rewrite read_back_eq by lia.
    destruct (lookup_lt_is_Some_2 xs (i - j) ltac:(lia)) as [p Hp].
    rewrite Hp. simpl. rewrite IH by lia. f_equal.
    replace (S i - S j - count)%nat with (S i - j - S count)%nat by lia.
    rewrite (take_S_r _ count p).
    + rewrite map_app, sum_list_app. unfold sum_list at 3. simpl. lra.
    + rewrite lookup_drop. rewrite <- Hp. f_equal. lia.
Qed.

(** *** Relative-strength oscillator *)

Lemma nonnegative_zeros (n : nat) : nonnegative (zeros n).
Proof. apply Forall_replicate. lra. Qed.

Lemma percentages_zeros (n : nat) : percentages (zeros n).
Proof. apply Forall_replicate. lra. Qed.

Lemma rsi_changes_buffers (ptr : list R) :
  exists gains losses,
    rsi_changes ptr = Some (gains, losses)
    /\ length gains = length ptr /\ length losses = length ptr
    /\ nonnegative gains /\ nonnegative losses.
Proof.
  unfold rsi_changes.
  destruct (for_loop_invariant
              (fun _ s => length s.1 = length ptr /\ length s.2 = length ptr
                          /\ nonnegative s.1 /\ nonnegative s.2)
              (rsi_change ptr) (length ptr - 1) 1
              (zeros (length ptr), zeros (length ptr)))
    as ([gains losses] & Hloop & Hg & Hl & Hgn & Hln).
  - simpl. rewrite length_zeros. auto using nonnegative_zeros.
  - intros i [gains losses] Hi (Hg & Hl & Hgn & Hln). simpl in *.
    destruct (lookup_lt_is_Some_2 ptr i ltac:(lia)) as [p Hp].
    destruct (lookup_lt_is_Some_2 ptr (i - 1) ltac:(lia)) as [q Hq].
    unfold rsi_change. rewrite Hp, Hq. simpl.
    destruct (Rgt_dec (p - q) 0) as [Hup|Hdown].
    + rewrite write_Some by lia. simpl. eexists. split; [reflexivity|]. simpl.
      rewrite length_insert. repeat split; try assumption.
      apply Forall_insert; [exact Hgn|lra].
    + rewrite write_Some by lia. simpl. eexists. split; [reflexivity|]. simpl.
      rewrite length_insert. repeat split; try assumption.
      apply Forall_insert; [exact Hln|lra].
  - exists gains, losses. simpl in *. auto.
Qed.

Lemma rsi_initial_average_nonneg (gains losses : list R) (period : Z) :
  (1 <= period)%Z -> (period < Z.of_nat (length gains))%Z ->
  length losses = length gains ->
  nonnegative gains -> nonnegative losses ->
  exists avg_gain avg_loss,
    rsi_initial_average gains losses period = Some (avg_gain, avg_loss)
    /\ 0 <= avg_gain /\ 0 <= avg_loss.
Proof.
  intros Hp Hn Hlen Hgn Hln. unfold rsi_initial_average.
  destruct (for_loop_invariant (fun _ s => 0 <= s.1 /\ 0 <= s.2)
              (rsi_seed gains losses) (Z.to_nat period) 1 (0, 0))
    as ([sum_gain sum_loss] & Hloop & Hsg & Hsl).
  - simpl. lra.
  - intros i [a b] Hi [Ha Hb]. simpl in *.
    destruct (lookup_lt_is_Some_2 gains i ltac:(lia)) as [g Hg].
    destruct (lookup_lt_is_Some_2 losses i ltac:(lia)) as [l Hl].
    unfold rsi_seed. rewrite Hg, Hl. simpl.
    eexists. split; [reflexivity|]. simpl.
    pose proof (Forall_lookup_1 _ _ _ _ Hgn Hg) as Hg0.
    pose proof (Forall_lookup_1 _ _ _ _ Hln Hl) as Hl0.
    simpl in *. lra.
  - rewrite Hloop. simpl in *.
    assert (Hpos : 0 < IZR period) by (apply IZR_lt; lia).
    exists (sum_gain / IZR period), (sum_loss / IZR period).
    split; [reflexivity|].
    split; apply Rmult_le_pos; try assumption;
      left; apply Rinv_0_lt_compat; exact Hpos.
Qed.

(** Wilder's smoothing keeps an average nonnegative. *)
Lemma wilder_nonneg (period : Z) (avg current : R) :
  (1 <= period)%Z -> 0 <= avg -> 0 <= current -> 0 <= wilder period avg current.
Proof.
  intros Hp Havg Hcur. unfold wilder.
  assert (Hpos : 0 < IZR period) by (apply IZR_lt; lia).
  assert (Hpred : 0 <= IZR (period - 1)) by (apply IZR_le; lia).
  apply Rmult_le_pos; [nra|left; apply Rinv_0_lt_compat; exact Hpos].
Qed.

Lemma rsi_value_zero_loss (avg_gain : R) : rsi_value avg_gain 0 = 100.
Proof. unfold rsi_value. destruct Req_dec_T; [reflexivity|contradiction]. Qed.

Lemma rsi_value_range (avg_gain avg_loss : R) :
  0 <= avg_gain -> 0 <= avg_loss -> 0 <= rsi_value avg_gain avg_loss <= 100.
Proof.
  intros Hg Hl. unfold rsi_value. destruct Req_dec_T as [|Hnz]; [lra|].
  assert (Hpos : 0 < avg_loss) by lra.
  assert (Hrs : 0 <= avg_gain / avg_loss).
  { apply Rmult_le_pos; [exact Hg|left; apply Rinv_0_lt_compat; exact Hpos]. }
  assert (Hq : 0 < 100 / (1 + avg_gain / avg_loss) <= 100).
  { split.
    - apply Rdiv_lt_0_compat; lra.
    - apply div_upper; nra. }
  lra.
Qed.

Lemma rsi_smoothing_invariant (steps : nat) (period : Z)
    (gains losses rsi : list R) (avg_gain avg_loss : R) :
  (1 <= period)%Z ->
  (Z.to_nat period + steps <= length rsi)%nat ->
  length gains = length rsi -> length losses = length rsi ->
  nonnegative gains -> nonnegative losses ->
  percentages rsi ->
  (forall i, (i < Z.to_nat period)%nat -> rsi !! i = Some 0) ->
  0 <= avg_gain -> 0 <= avg_loss ->
  exists rsi' avg_gain' avg_loss',
    rsi_smoothing steps period gains losses rsi avg_gain avg_loss
    = Some (rsi', avg_gain', avg_loss')
    /\ length rsi' = length rsi /\ percentages rsi'
    /\ (forall i, (i < Z.to_nat period)%nat -> rsi' !! i = Some 0)
    /\ 0 <= avg_gain' /\ 0 <= avg_loss'.
Proof.
  intros Hp Hsteps Hglen Hllen Hgn Hln Hrange Hzero Hag Hal.
  unfold rsi_smoothing. rewrite to_size_t_nonneg by lia.
  destruct (for_loop_invariant
              (fun _ s => length s.1.1 = length rsi /\ percentages s.1.1
                          /\ (forall i, (i < Z.to_nat period)%nat ->
                                s.1.1 !! i = Some 0)
                          /\ 0 <= s.1.2 /\ 0 <= s.2)
              (rsi_smooth period gains losses) steps (Z.to_nat period)
              (rsi, avg_gain, avg_loss))
    as ([[rsi' ag] al] & Hloop & Hres).
  - simpl. auto.
  - intros i [[r ag] al] Hi (Hlen & Hr & Hz & Hag' & Hal'). simpl in *.
    destruct (lookup_lt_is_Some_2 gains i ltac:(lia)) as [g Hg].
    destruct (lookup_lt_is_Some_2 losses i ltac:(lia)) as [l Hl].
    unfold rsi_smooth. rewrite Hg, Hl. simpl.
    rewrite write_Some by lia. simpl. eexists. split; [reflexivity|]. simpl.
    pose proof (Forall_lookup_1 _ _ _ _ Hgn Hg) as Hg0.
    pose proof (Forall_lookup_1 _ _ _ _ Hln Hl) as Hl0.
    simpl in *.
    pose proof (wilder_nonneg period ag g Hp Hag' Hg0) as Hwg.
    pose proof (wilder_nonneg period al l Hp Hal' Hl0) as Hwl.
    rewrite length_insert. repeat split; try assumption.
    + apply Forall_insert; [exact Hr|]. apply rsi_value_range; assumption.
    + intros k Hk. rewrite list_lookup_insert_ne by lia. apply Hz. exact Hk.
  - exists rsi', ag, al. simpl in *. tauto.
Qed.

(** The oscillator on a series longer than the period. *)
Lemma calculate_rsi_seeded (ptr : list R) (period : Z) :
  (1 <= period)%Z -> (period < Z.of_nat (length ptr))%Z ->
  exists rsi,
    calculate_rsi ptr period = Some rsi
    /\ length rsi = length ptr /\ percentages rsi
    /\ (forall i, (i < Z.to_nat period)%nat -> rsi !! i = Some 0).
Proof.
  intros Hp Hn. unfold calculate_rsi.
  destruct (rsi_changes_buffers ptr) as (gains & losses & -> & Hg & Hl & Hgn & Hln).
  simpl.
  destruct (rsi_initial_average_nonneg gains losses period)
    as (ag & al & -> & Hag & Hal); try assumption; try lia.
  simpl.
  destruct (rsi_smoothing_invariant (length ptr - to_size_t period) period
              gains losses (zeros (length ptr)) ag al)
    as (rsi & ag' & al' & -> & Hlen & Hrange & Hzero & _);
    rewrite ?length_zeros; try assumption; try lia.
  - rewrite to_size_t_nonneg by lia. lia.
  - apply percentages_zeros.
  - intros i Hi. apply lookup_zeros. lia.
  - simpl. exists rsi. rewrite length_zeros in Hlen. auto.
Qed.

(** *** Volatility bands *)

Lemma INR_to_nat (z : Z) : (0 <= z)%Z -> INR (Z.to_nat z) = IZR z.
Proof. intros Hz. rewrite INR_IZR_INZ, Z2Nat.id by exact Hz. reflexivity. Qed.

Lemma window_sum_eq (ptr : list R) (period : Z) (i : nat) :
  (Z.to_nat period <= S i)%nat -> (i < length ptr)%nat ->
  window_sum ptr period i
  = Some (sum_list (trailing_window ptr (Z.to_nat period) i)).
Proof.
  intros Hw Hi. unfold window_sum, trailing_window.
  etransitivity; [apply (window_fold (fun p => p)); lia|].
  rewrite map_id, Nat.sub_0_r. f_equal. lra.
Qed.

Lemma window_variance_eq (ptr : list R) (period : Z) (i : nat) (mean : R) :
  (Z.to_nat period <= S i)%nat -> (i < length ptr)%nat ->
  window_variance ptr period i mean
  = Some (sum_list (map (fun p => (p - mean) * (p - mean))
                        (trailing_window ptr (Z.to_nat period) i))).
Proof.
  intros Hw Hi. unfold window_variance, trailing_window.
  etransitivity;
    [apply (window_fold (fun p => (p - mean) * (p - mean))); lia|].
  rewrite Nat.sub_0_r. f_equal. lra.
Qed.

Lemma bollinger_step_upto (ptr : list R) (period : Z) (num_std : R) (i : nat)
    (s : list R * list R * list R) :
  (1 <= period)%Z -> (Z.to_nat (period - 1) <= i < length ptr)%nat ->
  bands_upto ptr period num_std i s ->
  exists s', bollinger_step ptr period num_std i s = Some s'
             /\ bands_upto ptr period num_std (S i) s'.
Proof.
  intros Hp Hi. destruct s as [[middle upper] lower].
  intros (Hm & Hu & Hl & Hzero & Hdone).
  unfold bollinger_step.
  rewrite window_sum_eq by lia. simpl.
  rewrite write_Some by lia. simpl.
  rewrite window_variance_eq by lia. simpl.
  rewrite !write_Some by lia. simpl.
  eexists. split; [reflexivity|].
  set (w := trailing_window ptr (Z.to_nat period) i).
  assert (Hlen : INR (length w) = IZR period).
  { unfold w. rewrite length_trailing_window by lia. apply INR_to_nat. lia. }
  assert (Hmean : sum_list w / IZR period = mean w)
    by (unfold mean; rewrite Hlen; reflexivity).
  assert (Hstd : sqrt (sum_list
                         (map (fun p => (p - sum_list w / IZR period)
                                        * (p - sum_list w / IZR period)) w)
                       / IZR period) = population_std w).
  { unfold population_std, population_variance. rewrite Hlen, Hmean. reflexivity. }
  unfold bands_upto. rewrite !length_insert.
  split; [exact Hm|]. split; [exact Hu|]. split; [exact Hl|]. split.
  - intros k Hk Hkn. rewrite !list_lookup_insert_ne by lia. apply Hzero; assumption.
  - intros k Hk. destruct (decide (k = i)) as [->|Hne].
    + rewrite !list_lookup_insert_eq by lia. fold w.
      rewrite Hstd, Hmean. auto.
    + rewrite !list_lookup_insert_ne by lia. apply Hdone. lia.
Qed.

(** The volatility bands on any series. *)
Lemma calculate_bollinger_bands_full (ptr : list R) (period : Z) (num_std : R) :
  (1 <= period)%Z ->
  exists bands,
    calculate_bollinger_bands ptr period num_std = Some bands
    /\ bands_upto ptr period num_std (length ptr)
         (middle bands, upper bands, lower bands).
Proof.
  intros Hp. unfold calculate_bollinger_bands.
  rewrite to_size_t_nonneg by lia.
  set (start := Z.to_nat (period - 1)).
  destruct (for_loop_invariant
              (fun k s => bands_upto ptr period num_std (Nat.min k (length ptr)) s)
              (bollinger_step ptr period num_std) (length ptr - start) start
              (zeros (length ptr), zeros (length ptr), zeros (length ptr)))
    as ([[middle upper] lower] & Hloop & Hres).
  - unfold bands_upto. rewrite !length_zeros.
    do 3 (split; [reflexivity|]). split.
    + intros i Hi Hin. rewrite lookup_zeros by lia. auto.
    + intros i Hi. unfold start in *. lia.
  - intros i s Hi Hs.
    replace (Nat.min i (length ptr)) with i in Hs by lia.
    replace (Nat.min (S i) (length ptr)) with (S i) by lia.
    apply bollinger_step_upto; [exact Hp|unfold start in *; lia|exact Hs].
  - rewrite Hloop. simpl. eexists. split; [reflexivity|]. simpl.
    destruct (decide (start <= length ptr)%nat) as [Hle|Hgt].
    + replace (Nat.min (start + (length ptr - start)) (length ptr))
        with (length ptr) in Hres by lia.
      exact Hres.
    + destruct Hres as (Hm & Hu & Hl & Hzero & _).
      unfold bands_upto. do 3 (split; [assumption|]). split; [exact Hzero|].
      intros i Hi. unfold start in *. lia.
Qed.

(** *** Rolling correlation *)

Lemma sum_take_S (f : R -> R) (xs : list R) (d c : nat) (p : R) :
  xs !! (d + c)%nat = Some p ->
  sum_list (map f (take (S c) (drop d xs)))
  = sum_list (map f (take c (drop d xs))) + f p.
Proof.
  intros Hp. rewrite (take_S_r _ c p) by (rewrite lookup_drop; exact Hp).
  rewrite map_app, sum_list_app.
  replace (sum_list (map f [p])) with (f p) by (unfold sum_list; simpl; lra).
  reflexivity.
Qed.

Lemma correlation_sums_fold (ptr_x ptr_y : list R) (i count : nat) :
  forall j s0,
    (j + count <= S i)%nat -> (i < length ptr_x)%nat -> (i < length ptr_y)%nat ->
    exists s,
      for_loop count j (correlation_accumulate ptr_x ptr_y i) s0 = Some s
      /\ sum_x s = sum_x s0
           + sum_list (map (fun v => v) (take count (drop (S i - j - count) ptr_x)))
      /\ sum_y s = sum_y s0
           + sum_list (map (fun v => v) (take count (drop (S i - j - count) ptr_y)))
      /\ sum_xx s = sum_xx s0
           + sum_list (map (fun v => v * v) (take count (drop (S i - j - count) ptr_x)))
      /\ sum_yy s = sum_yy s0
           + sum_list (map (fun v => v * v) (take count (drop (S i - j - count) ptr_y))).
Proof.
  induction count as [|count IH]; intros j s0 Hj Hx Hy.
  - exists s0. simpl. unfold sum_list. simpl. repeat split; lra.
  - destruct (lookup_lt_is_Some_2 ptr_x (i - j) ltac:(lia)) as [vx Hvx].
    destruct (lookup_lt_is_Some_2 ptr_y (i - j) ltac:(lia)) as [vy Hvy].
    assert (Hbody : correlation_accumulate ptr_x ptr_y i j s0
                    = Some (mkSums (sum_x s0 + vx) (sum_y s0 + vy)
                              (sum_xx s0 + vx * vx) (sum_yy s0 + vy * vy)
                              (sum_xy s0 + vx * vy))).
    { unfold correlation_accumulate. rewrite !read_back_eq by lia.
      rewrite Hvx, Hvy. reflexivity. }
    simpl for_loop. rewrite Hbody. simpl.
    destruct (IH (S j) (mkSums (sum_x s0 + vx) (sum_y s0 + vy)
                          (sum_xx s0 + vx * vx) (sum_yy s0 + vy * vy)
                          (sum_xy s0 + vx * vy)))
      as (s & Hloop & Hsx & Hsy & Hsxx & Hsyy); try lia.
    exists s. split; [exact Hloop|]. simpl in *.
    replace (S i - j - S count)%nat with (i - j - count)%nat by lia.
    assert (Hix : ptr_x !! (i - j - count + count)%nat = Some vx)
      by (rewrite <- Hvx; f_equal; lia).
    assert (Hiy : ptr_y !! (i - j - count + count)%nat = Some vy)
      by (rewrite <- Hvy; f_equal; lia).
    rewrite !(sum_take_S _ ptr_x _ _ vx Hix), !(sum_take_S _ ptr_y _ _ vy Hiy).
    repeat split; lra.
Qed.

Lemma correlation_sums_eq (ptr_x ptr_y : list R) (window : Z) (i : nat) :
  (Z.to_nat window <= S i)%nat ->
  (i < length ptr_x)%nat -> (i < length ptr_y)%nat ->
  exists s,
    correlation_sums ptr_x ptr_y window i = Some s
    /\ sum_x s = sum_list (trailing_window ptr_x (Z.to_nat window) i)
    /\ sum_y s = sum_list (trailing_window ptr_y (Z.to_nat window) i)
    /\ sum_xx s = sum_list (map (fun v => v * v)
                              (trailing_window ptr_x (Z.to_nat window) i))
    /\ sum_yy s = sum_list (map (fun v => v * v)
                              (trailing_window ptr_y (Z.to_nat window) i)).
Proof.
  intros Hw Hx Hy. unfold correlation_sums, trailing_window.
  destruct (correlation_sums_fold ptr_x ptr_y i (Z.to_nat window) 0
              (mkSums 0 0 0 0 0))
    as (s & Hloop & Hsx & Hsy & Hsxx & Hsyy); try lia.
  exists s. split; [exact Hloop|].
  rewrite !map_id in *. rewrite Nat.sub_0_r in *. simpl in *.
  repeat split; lra.
Qed.

(** The sum of squared deviations from any centre [m]. *)
Lemma sum_squared_deviations (xs : list R) (m : R) :
  sum_list (map (fun x => (x - m) * (x - m)) xs)
  = sum_list (map (fun x => x * x) xs) - 2 * m * sum_list xs
    + INR (length xs) * m * m.
Proof.
  unfold sum_list. induction xs as [|x xs IH].
  - simpl. lra.
  - cbn [map foldr length]. rewrite IH, S_INR. lra.
Qed.

(** The standard deviation computed from the running sums is the
    population standard deviation of the window. *)
Lemma rolling_std_population (window : Z) (xs : list R) :
  (1 <= window)%Z -> length xs = Z.to_nat window ->
  rolling_std window (sum_list xs) (sum_list (map (fun v => v * v) xs))
  = population_std xs.
Proof.
  intros Hw Hlen. unfold rolling_std, population_std, population_variance, mean.
  rewrite sum_squared_deviations.
  assert (Hn : INR (length xs) = IZR window)
    by (rewrite Hlen; apply INR_to_nat; lia).
  rewrite Hn.
  assert (Hpos : 0 < IZR window) by (apply IZR_lt; lia).
  f_equal. field. lra.
Qed.

Lemma correlation_step_upto (ptr_x ptr_y : list R) (window : Z) (i : nat)
    (corr : list R) :
  (1 <= window)%Z -> (length ptr_x <= length ptr_y)%nat ->
  (Z.to_nat (window - 1) <= i < length ptr_x)%nat ->
  correlation_upto ptr_x ptr_y window i corr ->
  exists corr', correlation_step ptr_x ptr_y window i corr = Some corr'
                /\ correlation_upto ptr_x ptr_y window (S i) corr'.
Proof.
  intros Hw Hxy Hi (Hlen & Hzero & Hrest & Hdone).
  unfold correlation_step.
  destruct (correlation_sums_eq ptr_x ptr_y window i)
    as (s & -> & Hsx & Hsy & Hsxx & Hsyy); try lia.
  simpl. rewrite Hsx, Hsy, Hsxx, Hsyy.
  rewrite !rolling_std_population
    by (try exact Hw; apply length_trailing_window; lia).
  set (wx := trailing_window ptr_x (Z.to_nat window) i).
  set (wy := trailing_window ptr_y (Z.to_nat window) i).
  assert (Hkeep : correlation_upto ptr_x ptr_y window (S i) corr).
  { split; [exact Hlen|]. split; [exact Hzero|]. split.
    - intros k Hk. apply Hrest. lia.
    - intros k Hk Hdeg. destruct (decide (k = i)) as [->|Hne].
      + apply Hrest. lia.
      + apply Hdone; [lia|exact Hdeg]. }
  destruct (Rgt_dec (population_std wx) 0) as [Hx|Hx];
    [|exists corr; split; [reflexivity|exact Hkeep]].
  destruct (Rgt_dec (population_std wy) 0) as [Hy|Hy];
    [|exists corr; split; [reflexivity|exact Hkeep]].
  rewrite write_Some by lia. eexists. split; [reflexivity|].
  split; [rewrite length_insert; exact Hlen|]. split; [|split].
  - intros k Hk Hkn. rewrite list_lookup_insert_ne by lia. apply Hzero; assumption.
  - intros k Hk. rewrite list_lookup_insert_ne by lia. apply Hrest. lia.
  - intros k Hk Hdeg. destruct (decide (k = i)) as [->|Hne].
    + fold wx wy in Hdeg. destruct Hdeg; lra.
    + rewrite list_lookup_insert_ne by lia. apply Hdone; [lia|exact Hdeg].
Qed.

(** The rolling correlation on any two series, the second at least as
    long as the first. *)
Lemma rolling_correlation_full (ptr_x ptr_y : list R) (window : Z) :
  (1 <= window)%Z -> (length ptr_x <= length ptr_y)%nat ->
  exists corr,
    rolling_correlation ptr_x ptr_y window = Some corr
    /\ correlation_upto ptr_x ptr_y window (length ptr_x) corr.
Proof.
  intros Hw Hxy. unfold rolling_correlation.
  rewrite to_size_t_nonneg by lia.
  set (start := Z.to_nat (window - 1)).
  destruct (for_loop_invariant
              (fun k corr =>
                 correlation_upto ptr_x ptr_y window (Nat.min k (length ptr_x)) corr)
              (correlation_step ptr_x ptr_y window) (length ptr_x - start) start
              (zeros (length ptr_x)))
    as (corr & Hloop & Hres).
  - split; [apply length_zeros|]. split; [|split].
    + intros i _ Hi. apply lookup_zeros. exact Hi.
    + intros i Hi. apply lookup_zeros. lia.
    + intros i Hi. unfold start in *. lia.
  - intros i s Hi Hs.
    replace (Nat.min i (length ptr_x)) with i in Hs by lia.
    replace (Nat.min (S i) (length ptr_x)) with (S i) by lia.
    apply correlation_step_upto; try assumption. unfold start in *. lia.
  - exists corr. split; [exact Hloop|].
    destruct (decide (start <= length ptr_x)%nat) as [Hle|Hgt].
    + replace (Nat.min (start + (length ptr_x - start)) (length ptr_x))
        with (length ptr_x) in Hres by lia.
      exact Hres.
    + destruct Hres as (Hlen & Hzero & Hrest & _).
      split; [exact Hlen|]. split; [exact Hzero|]. split.
      * intros i Hi. lia.
      * intros i Hi. unfold start in *. lia.
Qed.

(** *** Convergence/divergence indicator *)

Lemma macd_ema_upto (ptr : list R) (alpha_fast alpha_slow p0 : R) (i : nat)
    (s : list R * list R * list R) :
  (1 <= i < length ptr)%nat ->
  ema_upto ptr alpha_fast alpha_slow p0 i s ->
  exists s', macd_ema ptr alpha_fast alpha_slow i s = Some s'
             /\ ema_upto ptr alpha_fast alpha_slow p0 (S i) s'.
Proof.
  intros Hi. destruct s as [[ema_fast ema_slow] spread].
  intros (Hf & Hs & Hm & Hf0 & Hs0 & Hm0 & Hm1).
  destruct (lookup_lt_is_Some_2 ptr i ltac:(lia)) as [p Hp].
  destruct (lookup_lt_is_Some_2 ema_fast (i - 1) ltac:(lia)) as [fp Hfp].
  destruct (lookup_lt_is_Some_2 ema_slow (i - 1) ltac:(lia)) as [sp Hsp].
  unfold macd_ema. rewrite Hp. simpl. rewrite Hfp. simpl.
  rewrite write_Some by lia. simpl. rewrite Hsp. simpl.
  rewrite write_Some by lia. simpl.
  rewrite !list_lookup_insert_eq by lia. simpl.
  rewrite write_Some by lia. simpl.
  eexists. split; [reflexivity|].
  unfold ema_upto. rewrite !length_insert.
  do 3 (split; [assumption|]).
  rewrite !list_lookup_insert_ne by lia.
  do 3 (split; [assumption|]).
  intros _ p1 Hp1. destruct (decide (i = 1)%nat) as [->|Hne].
  - rewrite list_lookup_insert_eq by lia.
    simpl in Hfp, Hsp. rewrite Hf0 in Hfp. rewrite Hs0 in Hsp.
    rewrite Hp1 in Hp. injection Hp as <-. injection Hfp as <-.
    injection Hsp as <-. reflexivity.
  - rewrite list_lookup_insert_ne by lia. apply Hm1; [lia|exact Hp1].
Qed.

Lemma macd_signal_upto (spread : list R) (alpha_signal : R) (slow_period : Z)
    (i : nat) (s : list R * list R) :
  (Z.to_nat slow_period < i < length spread)%nat ->
  signal_upto (length spread) slow_period s ->
  exists s', macd_signal spread alpha_signal i s = Some s'
             /\ signal_upto (length spread) slow_period s'.
Proof.
  intros Hi. destruct s as [signal_line histogram_line].
  intros (Hs & Hh & Hs0 & Hh0).
  destruct (lookup_lt_is_Some_2 spread i ltac:(lia)) as [m Hm].
  destruct (lookup_lt_is_Some_2 signal_line (i - 1) ltac:(lia)) as [sp Hsp].
  unfold macd_signal. rewrite Hm. simpl. rewrite Hsp. simpl.
  rewrite write_Some by lia. simpl.
  rewrite list_lookup_insert_eq by lia. simpl.
  rewrite write_Some by lia. simpl.
  eexists. split; [reflexivity|].
  unfold signal_upto. rewrite !length_insert.
  do 2 (split; [assumption|]). split.
  - intros k Hk. rewrite list_lookup_insert_ne by lia. apply Hs0. exact Hk.
  - intros k Hk. rewrite list_lookup_insert_ne by lia. apply Hh0. exact Hk.
Qed.

(** The convergence/divergence indicator on a series longer than the
    slow period. *)
Lemma calculate_macd_full (ptr : list R) (fast_period slow_period signal_period : Z) :
  (0 <= slow_period)%Z -> (slow_period < Z.of_nat (length ptr))%Z ->
  exists result,
    calculate_macd ptr fast_period slow_period signal_period = Some result
    /\ length (macd result) = length ptr
    /\ signal_upto (length ptr) slow_period (signal result, histogram result)
    /\ macd result !! 0%nat = Some 0
    /\ (forall p0 p1, ptr !! 0%nat = Some p0 -> ptr !! 1%nat = Some p1 ->
          macd result !! 1%nat
          = Some (first_spread (2 / IZR (fast_period + 1))
                               (2 / IZR (slow_period + 1)) p0 p1)).
Proof.
  intros Hslow Hn. unfold calculate_macd.
  destruct (lookup_lt_is_Some_2 ptr 0 ltac:(lia)) as [p0 Hp0].
  rewrite Hp0. simpl.
  rewrite !write_Some by (rewrite length_zeros; lia). simpl.
  destruct (for_loop_invariant
              (fun k s => ema_upto ptr (2 / IZR (fast_period + 1))
                            (2 / IZR (slow_period + 1)) p0 k s)
              (macd_ema ptr (2 / IZR (fast_period + 1)) (2 / IZR (slow_period + 1)))
              (length ptr - 1) 1
              (<[0%nat := p0]> (zeros (length ptr)),
               <[0%nat := p0]> (zeros (length ptr)), zeros (length ptr)))
    as ([[ema_fast ema_slow] spread] & -> & Hema).
  - unfold ema_upto. rewrite !length_insert, !length_zeros.
    do 3 (split; [reflexivity|]).
    rewrite !list_lookup_insert_eq by (rewrite length_zeros; lia).
    do 2 (split; [reflexivity|]).
    split; [apply lookup_zeros; lia|]. intros Hk. lia.
  - intros i s Hi Hs. apply macd_ema_upto; [lia|exact Hs].
  - simpl. destruct Hema as (_ & _ & Hm & _ & _ & Hm0 & Hm1).
    rewrite (to_size_t_nonneg slow_period), (to_size_t_nonneg (slow_period + 1))
      by lia.
    destruct (lookup_lt_is_Some_2 spread (Z.to_nat slow_period) ltac:(lia))
      as [m Hmslow].
    rewrite Hmslow. simpl.
    rewrite write_Some by (rewrite length_zeros; lia). simpl.
    destruct (for_loop_invariant
                (fun _ s => signal_upto (length spread) slow_period s)
                (macd_signal spread (2 / IZR (signal_period + 1)))
                (length ptr - Z.to_nat (slow_period + 1))
                (Z.to_nat (slow_period + 1))
                (<[Z.to_nat slow_period := m]> (zeros (length ptr)),
                 zeros (length ptr)))
      as ([signal_line histogram_line] & -> & Hsig).
    + unfold signal_upto. rewrite length_insert, !length_zeros.
      do 2 (split; [congruence|]). split.
      * intros i Hi. rewrite list_lookup_insert_ne by lia.
        apply lookup_zeros. lia.
      * intros i Hi. apply lookup_zeros. lia.
    + intros i s Hi Hs. apply macd_signal_upto; [lia|exact Hs].
    + simpl. eexists. split; [reflexivity|]. simpl.
      split; [exact Hm|]. rewrite Hm in Hsig. split; [exact Hsig|].
      split; [exact Hm0|].
      intros q0 p1 Hq0 Hp1. assert (q0 = p0) as -> by congruence.
      apply Hm1; [|exact Hp1].
      apply lookup_lt_Some in Hp1. lia.
Qed.

(** *** The trailing window and worked examples *)

Lemma trailing_window_lookup (xs : list R) (w i j : nat) :
  (w <= S i)%nat -> (j < w)%nat ->
  trailing_window xs w i !! j = xs !! (S i - w + j)%nat.
Proof.
  intros Hw Hj. unfold trailing_window.
  rewrite lookup_take_lt by exact Hj. apply lookup_drop.
Qed.

Lemma sqrt_eq (x r : R) : 0 <= r -> x = r * r -> sqrt x = r.
Proof. intros Hr ->. apply sqrt_square. exact Hr. Qed.

(** Changes +1, -1, +2 with period 2: both seeds are 1/2, the smoothed
    averages are 1/4 and 3/4 at index 2, 9/8 and 3/8 at index 3. *)
Example calculate_rsi_example : calculate_rsi [1; 2; 1; 3] 2 = Some [0; 0; 25; 75].
Proof.
  unfold calculate_rsi, rsi_changes. simpl. unfold rsi_change. simpl.
  destruct (Rgt_dec (2 - 1) 0); [|exfalso; lra]. simpl.
  destruct (Rgt_dec (1 - 2) 0); [exfalso; lra|]. simpl.
  destruct (Rgt_dec (3 - 1) 0); [|exfalso; lra]. simpl.
  unfold rsi_smoothing, rsi_smooth. simpl. unfold wilder, rsi_value. simpl.
  change (2 - 1)%Z with 1%Z.
  destruct Req_dec_T as [E|_]; [exfalso; lra|].
  destruct Req_dec_T as [E|_]; [exfalso; lra|].
  do 4 f_equal; [|f_equal]; field_simplify_eq; lra.
Qed.

(** Fast period 1, slow period 2, signal period 1: the smoothing factors
    are 1, 2/3 and 1. *)
Example calculate_macd_example :
  calculate_macd [1; 2; 4; 8] 1 2 1
  = Some (mkMACDResult [0; 1 / 3; 7 / 9; 43 / 27] [0; 0; 7 / 9; 43 / 27]
            [0; 0; 0; 0]).
Proof.
  unfold calculate_macd. simpl. unfold macd_ema. simpl.
  unfold macd_signal. simpl.
  change (1 + 1)%Z with 2%Z. change (2 + 1)%Z with 3%Z.
  f_equal. f_equal; repeat (f_equal; try lra).
Qed.

(** The windows [1, 3] and [3, 5] have means 2 and 4 and standard
    deviation 1. *)
Example calculate_bollinger_bands_example :
  calculate_bollinger_bands [1; 3; 5] 2 2
  = Some (mkBollingerBands [0; 4; 6] [0; 2; 4] [0; 0; 2]).
Proof.
  unfold calculate_bollinger_bands. simpl. unfold bollinger_step. simpl.
  change (IZR 2) with 2.
  rewrite (sqrt_eq _ 1), (sqrt_eq _ 1) by lra.
  do 2 f_equal; repeat (f_equal; try lra).
Qed.

(** The window [5, 5] is constant, so index 1 keeps its zero; the windows
    [5, 7] and [2, 3] are perfectly correlated. *)
Example rolling_correlation_example :
  rolling_correlation [5; 5; 7] [1; 2; 3] 2 = Some [0; 0; 1].
Proof.
  unfold rolling_correlation. simpl. unfold correlation_step. simpl.
  unfold rolling_std. change (IZR 2) with 2.
  rewrite (sqrt_eq ((0 + 5 * 5 + 5 * 5) / 2 - _) 0) by lra.
  destruct (Rgt_dec 0 0) as [H|_]; [exfalso; lra|]. simpl.
  rewrite (sqrt_eq ((0 + 7 * 7 + 5 * 5) / 2 - _) 1) by lra.
  rewrite (sqrt_eq ((0 + 3 * 3 + 2 * 2) / 2 - _) (1 / 2)) by lra.
  destruct (Rgt_dec 1 0) as [_|H]; [|exfalso; lra].
  destruct (Rgt_dec (1 / 2) 0) as [_|H]; [|exfalso; lra].
  simpl. do 4 f_equal. lra.
Qed.

(** *** The claims *)

(** C6.  On a price series longer than the period, for a period of at
    least 1, the oscillator runs to its end and every value of its output
    lies in [[0, 100]].  The seeded averages are nonnegative and stay so
    after any number of steps of Wilder's smoothing, and a zero average
    loss gives exactly 100. *)
Theorem rsi_within_bounds (ptr : list R) (period : Z) :
  (1 <= period)%Z -> (period < Z.of_nat (length ptr))%Z ->
  (exists rsi,
     calculate_rsi ptr period = Some rsi
     /\ Forall (fun v => 0 <= v <= 100) rsi)
  /\ (exists gains losses avg_gain avg_loss,
        rsi_changes ptr = Some (gains, losses)
        /\ rsi_initial_average gains losses period = Some (avg_gain, avg_loss)
        /\ 0 <= avg_gain /\ 0 <= avg_loss
        /\ forall steps, (Z.to_nat period + steps <= length ptr)%nat ->
             exists rsi avg_gain' avg_loss',
               rsi_smoothing steps period gains losses (zeros (length ptr))
                 avg_gain avg_loss
               = Some (rsi, avg_gain', avg_loss')
               /\ 0 <= avg_gain' /\ 0 <= avg_loss')
  /\ (forall avg_gain, rsi_value avg_gain 0 = 100).
Proof.
  intros Hp Hn. split; [|split].
  - destruct (calculate_rsi_seeded ptr period Hp Hn) as (rsi & Hrsi & _ & Hrange & _).
    exists rsi. split; [exact Hrsi|exact Hrange].
  - destruct (rsi_changes_buffers ptr)
      as (gains & losses & Hchanges & Hg & Hl & Hgn & Hln).
    destruct (rsi_initial_average_nonneg gains losses period)
      as (ag & al & Hinit & Hag & Hal); try assumption; try lia.
    exists gains, losses, ag, al.
    do 4 (split; [assumption|]).
    intros steps Hsteps.
    destruct (rsi_smoothing_invariant steps period gains losses
                (zeros (length ptr)) ag al)
      as (rsi & ag' & al' & Hsmooth & _ & _ & _ & Hag' & Hal');
      rewrite ?length_zeros; try assumption; try lia.
    + apply percentages_zeros.
    + intros i Hi. apply lookup_zeros. lia.
    + exists rsi, ag', al'. auto.
  - apply rsi_value_zero_loss.
Qed.

Lemma rsi_within_bounds_witness :
  (exists rsi,
     calculate_rsi [1; 2; 1; 3] 2 = Some rsi
     /\ Forall (fun v => 0 <= v <= 100) rsi)
  /\ (exists gains losses avg_gain avg_loss,
        rsi_changes [1; 2; 1; 3] = Some (gains, losses)
        /\ rsi_initial_average gains losses 2 = Some (avg_gain, avg_loss)
        /\ 0 <= avg_gain /\ 0 <= avg_loss
        /\ forall steps, (Z.to_nat 2 + steps <= length [1; 2; 1; 3])%nat ->
             exists rsi avg_gain' avg_loss',
               rsi_smoothing steps 2 gains losses (zeros (length [1; 2; 1; 3]))
                 avg_gain avg_loss
               = Some (rsi, avg_gain', avg_loss')
               /\ 0 <= avg_gain' /\ 0 <= avg_loss')
  /\ (forall avg_gain, rsi_value avg_gain 0 = 100).
Proof.
  apply (rsi_within_bounds [1; 2; 1; 3] 2).
  - lia.
  - simpl. lia.
Defined.

(** C7 (as amended).  For a lookback [w] of at least 1: the volatility
    bands and the rolling correlation return, on every input, outputs as
    long as the input whose first [w - 1] entries are zero; on a series
    longer than [w] the oscillator returns an output as long as the input
    whose first [w] entries are zero; on a series longer than the slow
    period [w] the convergence/divergence indicator returns three outputs
    as long as the input, the signal line zero on its first [w] entries,
    the histogram on its first [w + 1], and the primary line at index 0. *)
Theorem indicator_alignment (ptr ptr_y : list R) (w : Z) (num_std : R)
    (fast_period signal_period : Z) :
  (1 <= w)%Z -> (length ptr <= length ptr_y)%nat ->
  (exists bands,
     calculate_bollinger_bands ptr w num_std = Some bands
     /\ length (upper bands) = length ptr
     /\ length (middle bands) = length ptr
     /\ length (lower bands) = length ptr
     /\ forall i, (i < Z.to_nat w - 1)%nat -> (i < length ptr)%nat ->
          upper bands !! i = Some 0 /\ middle bands !! i = Some 0
          /\ lower bands !! i = Some 0)
  /\ (exists corr,
        rolling_correlation ptr ptr_y w = Some corr
        /\ length corr = length ptr
        /\ forall i, (i < Z.to_nat w - 1)%nat -> (i < length ptr)%nat ->
             corr !! i = Some 0)
  /\ ((w < Z.of_nat (length ptr))%Z ->
      (exists rsi,
         calculate_rsi ptr w = Some rsi
         /\ length rsi = length ptr
         /\ forall i, (i < Z.to_nat w)%nat -> rsi !! i = Some 0)
      /\ (exists result,
            calculate_macd ptr fast_period w signal_period = Some result
            /\ length (macd result) = length ptr
            /\ length (signal result) = length ptr
            /\ length (histogram result) = length ptr
            /\ macd result !! 0%nat = Some 0
            /\ (forall i, (i < Z.to_nat w)%nat -> signal result !! i = Some 0)
            /\ (forall i, (i <= Z.to_nat w)%nat ->
                  histogram result !! i = Some 0))).
Proof.
  intros Hw Hxy. split; [|split].
  - destruct (calculate_bollinger_bands_full ptr w num_std Hw)
      as (bands & Hbands & Hm & Hu & Hl & Hzero & _).
    exists bands. do 4 (split; [assumption|]).
    intros i Hi Hin.
    destruct (Hzero i ltac:(lia) Hin) as (H1 & H2 & H3). auto.
  - destruct (rolling_correlation_full ptr ptr_y w Hw Hxy)
      as (corr & Hcorr & Hlen & Hzero & _).
    exists corr. do 2 (split; [assumption|]).
    intros i Hi Hin. apply Hzero; [lia|exact Hin].
  - intros Hn. split.
    + destruct (calculate_rsi_seeded ptr w Hw Hn) as (rsi & Hrsi & Hlen & _ & Hzero).
      exists rsi. auto.
    + destruct (calculate_macd_full ptr fast_period w signal_period ltac:(lia) Hn)
        as (result & Hres & Hlen & (Hs & Hh & Hs0 & Hh0) & Hm0 & _).
      exists result. auto 10.
Qed.

Lemma indicator_alignment_witness :
  (exists bands,
     calculate_bollinger_bands [1; 2; 4; 8] 2 2 = Some bands
     /\ length (upper bands) = 4%nat /\ length (middle bands) = 4%nat
     /\ length (lower bands) = 4%nat
     /\ upper bands !! 0%nat = Some 0 /\ middle bands !! 0%nat = Some 0
     /\ lower bands !! 0%nat = Some 0)
  /\ (exists corr,
        rolling_correlation [1; 2; 4; 8] [8; 4; 2; 1] 2 = Some corr
        /\ length corr = 4%nat /\ corr !! 0%nat = Some 0)
  /\ (exists rsi,
        calculate_rsi [1; 2; 4; 8] 2 = Some rsi
        /\ length rsi = 4%nat
        /\ rsi !! 0%nat = Some 0 /\ rsi !! 1%nat = Some 0)
  /\ (exists result,
        calculate_macd [1; 2; 4; 8] 1 2 1 = Some result
        /\ length (macd result) = 4%nat /\ length (signal result) = 4%nat
        /\ length (histogram result) = 4%nat
        /\ signal result !! 1%nat = Some 0
        /\ histogram result !! 2%nat = Some 0).
Proof.
  destruct (indicator_alignment [1; 2; 4; 8] [8; 4; 2; 1] 2 2 1 1)
    as (Hbands & Hcorr & Hseeded); [lia|simpl; lia|].
  destruct Hseeded as [Hrsi Hmacd]; [simpl; lia|].
  split; [|split; [|split]].
  - destruct Hbands as (bands & Hb & Hu & Hm & Hl & Hzero).
    exists bands. do 4 (split; [assumption|]).
    apply Hzero; simpl; lia.
  - destruct Hcorr as (corr & Hc & Hlen & Hzero).
    exists corr. do 2 (split; [assumption|]). apply Hzero; simpl; lia.
  - destruct Hrsi as (rsi & Hr & Hlen & Hzero).
    exists rsi. do 2 (split; [assumption|]). split; apply Hzero; simpl; lia.
  - destruct Hmacd as (result & Hr & Hm & Hs & Hh & _ & Hs0 & Hh0).
    exists result. do 4 (split; [assumption|]).
    split; [apply Hs0|apply Hh0]; simpl; lia.
Defined.

(** C7 as stated fails: with the default lookbacks 12, 26 and 9 the
    primary line of the convergence/divergence indicator is already
    nonzero at index 1, inside the first [w - 1] entries for each of the
    three lookbacks. *)
Lemma macd_primary_line_not_padded :
  exists result v,
    calculate_macd rising_prices 12 26 9 = Some result
    /\ (1 < 9 - 1)%nat
    /\ macd result !! 1%nat = Some v
    /\ v <> 0.
Proof.
  destruct (calculate_macd_full rising_prices 12 26 9)
    as (result & Hres & _ & _ & _ & Hm1); [lia|simpl; lia|].
  exists result, (first_spread (2 / IZR (12 + 1)) (2 / IZR (26 + 1)) 1 2).
  split; [exact Hres|]. split; [lia|]. split.
  - apply Hm1; reflexivity.
  - unfold first_spread.
    change (12 + 1)%Z with 13%Z. change (26 + 1)%Z with 27%Z. lra.
Qed.

(** C8.  At every index with a full trailing window of [period] prices the
    middle band is the simple mean of the window, and the upper and lower
    bands are the mean plus and minus [num_std] times its population
    standard deviation. *)
Theorem bollinger_window_statistics (ptr : list R) (period : Z) (num_std : R) :
  (1 <= period)%Z ->
  exists bands,
    calculate_bollinger_bands ptr period num_std = Some bands
    /\ forall i, (Z.to_nat period <= S i)%nat -> (i < length ptr)%nat ->
         let w := trailing_window ptr (Z.to_nat period) i in
         length w = Z.to_nat period
         /\ middle bands !! i = Some (mean w)
         /\ upper bands !! i = Some (mean w + num_std * population_std w)
         /\ lower bands !! i = Some (mean w - num_std * population_std w).
Proof.
  intros Hp.
  destruct (calculate_bollinger_bands_full ptr period num_std Hp)
    as (bands & Hbands & _ & _ & _ & _ & Hvalues).
  exists bands. split; [exact Hbands|].
  intros i Hi Hin w. split.
  - apply length_trailing_window; assumption.
  - apply Hvalues. lia.
Qed.

Lemma bollinger_window_statistics_witness :
  exists bands,
    calculate_bollinger_bands [1; 2; 4; 8] 2 2 = Some bands
    /\ forall i, (Z.to_nat 2 <= S i)%nat -> (i < length [1; 2; 4; 8])%nat ->
         let w := trailing_window [1; 2; 4; 8] (Z.to_nat 2) i in
         length w = Z.to_nat 2
         /\ middle bands !! i = Some (mean w)
         /\ upper bands !! i = Some (mean w + 2 * population_std w)
         /\ lower bands !! i = Some (mean w - 2 * population_std w).
Proof.
  apply (bollinger_window_statistics [1; 2; 4; 8] 2 2). lia.
Defined.

(** C10 fails on the code.  On a series no longer than the period (the
    period being at least 1) the price-change loop stays inside its
    buffers, but the seeding loop then reads [gains[i]] at an index
    [i <= period] past the end of the buffer: the checked read fails and
    the oscillator produces no output. *)
Theorem rsi_short_series_out_of_bounds (ptr : list R) (period : Z) :
  (1 <= period)%Z -> (Z.of_nat (length ptr) <= period)%Z ->
  exists gains losses,
    rsi_changes ptr = Some (gains, losses)
    /\ length gains = length ptr
    /\ gains !! Nat.max 1 (length ptr) = None
    /\ rsi_initial_average gains losses period = None
    /\ calculate_rsi ptr period = None.
Proof.
  intros Hp Hn.
  destruct (rsi_changes_buffers ptr) as (gains & losses & Hchanges & Hg & Hl & _).
  assert (Hread : gains !! Nat.max 1 (length ptr) = None)
    by (apply lookup_ge_None_2; lia).
  assert (Hseed : rsi_initial_average gains losses period = None).
  { unfold rsi_initial_average.
    rewrite (for_loop_fails _ _ (Nat.max 1 (length ptr))); [reflexivity|lia|].
    intros [a b]. unfold rsi_seed. rewrite Hread. reflexivity. }
  exists gains, losses. do 4 (split; [assumption|]).
  unfold calculate_rsi. rewrite Hchanges. simpl. rewrite Hseed. reflexivity.
Qed.

Lemma rsi_short_series_out_of_bounds_witness :
  calculate_rsi [] 14 = None /\ calculate_rsi [1; 2; 3] 14 = None.
Proof.
  split.
  - destruct (rsi_short_series_out_of_bounds [] 14)
      as (_ & _ & _ & _ & _ & _ & H); [lia|simpl; lia|exact H].
  - destruct (rsi_short_series_out_of_bounds [1; 2; 3] 14)
      as (_ & _ & _ & _ & _ & _ & H); [lia|simpl; lia|exact H].
Defined.


End IndicatorsFacts.


(** * The rolling correlation on binary64 doubles *)

Module Binary64Facts.
Import PrimFloat Binary64 Binary64Aux IndicatorsFacts.

Lemma binary64_length_zeros (n : nat) : length (zeros n) = n.
Proof. apply length_replicate. Qed.

Lemma binary64_lookup_zeros (n i : nat) :
  (i < n)%nat -> zeros n !! i = Some 0%float.
Proof. intros Hi. apply lookup_replicate_2. exact Hi. Qed.

Lemma binary64_write_Some (v : list float) (i : nat) (x : float) :
  (i < length v)%nat -> write v i x = Some (<[i := x]> v).
Proof. intros Hi. unfold write. destruct decide; [reflexivity|lia]. Qed.

Lemma binary64_read_back_eq (v : list float) (i j : nat) :
  (j <= i)%nat -> read_back v i j = v !! (i - j)%nat.
Proof.
  intros Hj. unfold read_back. rewrite to_size_t_nonneg by lia.
  f_equal. lia.
Qed.

(** A computed standard deviation that is exactly zero does not pass the
    guard. *)
Lemma binary64_zero_not_positive : (0 <? 0)%float = false.
Proof. reflexivity. Qed.

(** The inner loop stays inside both inputs at every index with a full
    window. *)
Lemma binary64_correlation_sums_total (ptr_x ptr_y : list float) (window : Z)
    (i : nat) :
  (Z.to_nat window <= S i)%nat -> (i < length ptr_x)%nat ->
  (length ptr_x <= length ptr_y)%nat ->
  exists s, correlation_sums ptr_x ptr_y window i = Some s.
Proof.
  intros Hfull Hi Hlen. unfold correlation_sums.
  destruct (for_loop_invariant (fun _ (_ : sums) => True)
              (correlation_accumulate ptr_x ptr_y i) (Z.to_nat window) 0%nat
              (mkSums 0 0 0 0 0) I) as (s & Hs & _).
  - intros j t Hj _. unfold correlation_accumulate.
    rewrite !binary64_read_back_eq by lia.
    destruct (lookup_lt_is_Some_2 ptr_x (i - j)%nat ltac:(lia)) as [vx ->].
    destruct (lookup_lt_is_Some_2 ptr_y (i - j)%nat ltac:(lia)) as [vy ->].
    simpl. eexists. split; [reflexivity|exact I].
  - exists s. exact Hs.
Qed.

(** What one iteration of the outer loop stores. *)
Lemma binary64_correlation_step_entry (ptr_x ptr_y : list float) (window : Z)
    (i : nat) (corr : list float) (s : sums) :
  correlation_sums ptr_x ptr_y window i = Some s ->
  (i < length corr)%nat -> corr !! i = Some 0%float ->
  correlation_step ptr_x ptr_y window i corr
    = Some (<[i := correlation_entry window s]> corr).
Proof.
  intros Hs Hi Hzero. unfold correlation_step, correlation_entry.
  rewrite Hs. simpl.
  destruct (0 <? rolling_std window (sum_x s) (sum_xx s))%float;
    [destruct (0 <? rolling_std window (sum_y s) (sum_yy s))%float|].
  - apply binary64_write_Some. exact Hi.
  - rewrite list_insert_id by exact Hzero. reflexivity.
  - rewrite list_insert_id by exact Hzero. reflexivity.
Qed.

Lemma binary64_correlation_step_upto (ptr_x ptr_y : list float) (window : Z)
    (i : nat) (corr : list float) :
  (1 <= window)%Z -> (length ptr_x <= length ptr_y)%nat ->
  (Z.to_nat (window - 1) <= i)%nat -> (i < length ptr_x)%nat ->
  entries_upto ptr_x ptr_y window i corr ->
  exists corr',
    correlation_step ptr_x ptr_y window i corr = Some corr'
    /\ entries_upto ptr_x ptr_y window (S i) corr'.
Proof.
  intros Hw Hlen Hfull Hi [Hlc Hent].
  destruct (binary64_correlation_sums_total ptr_x ptr_y window i)
    as [s Hs]; [lia|exact Hi|exact Hlen|].
  assert (corr !! i = Some 0%float) as Hzero.
  { specialize (Hent i Hi). destruct decide as [Hd|_]; [lia|exact Hent]. }
  exists (<[i := correlation_entry window s]> corr). split.
  - apply binary64_correlation_step_entry; [exact Hs|lia|exact Hzero].
  - split; [rewrite length_insert; exact Hlc|].
    intros k Hk. specialize (Hent k Hk).
    destruct (decide (k = i)) as [->|Hne].
    + clear Hent.
      destruct (decide (Z.to_nat (window - 1) <= i < S i)%nat) as [_|Hd];
        [|lia].
      exists s. split; [exact Hs|].
      apply list_lookup_insert_eq. lia.
    + rewrite list_lookup_insert_ne by lia.
      destruct (decide (Z.to_nat (window - 1) <= k < i)%nat) as [Hd|Hd];
        destruct (decide (Z.to_nat (window - 1) <= k < S i)%nat) as [Hd'|Hd'];
        try lia; exact Hent.
Qed.

Lemma binary64_rolling_correlation_full (ptr_x ptr_y : list float) (window : Z) :
  (1 <= window)%Z -> (length ptr_x <= length ptr_y)%nat ->
  exists corr,
    rolling_correlation ptr_x ptr_y window = Some corr
    /\ entries_upto ptr_x ptr_y window (length ptr_x) corr.
Proof.
  intros Hw Hlen. unfold rolling_correlation.
  rewrite to_size_t_nonneg by lia.
  set (first := Z.to_nat (window - 1)). set (n := length ptr_x).
  destruct (for_loop_invariant
              (fun k corr => entries_upto ptr_x ptr_y window k corr)
              (correlation_step ptr_x ptr_y window) (n - first) first (zeros n))
    as (corr & Hcorr & Hlc & Hent).
  - split; [apply binary64_length_zeros|].
    intros i Hi. destruct decide as [Hd|_]; [lia|].
    apply binary64_lookup_zeros. exact Hi.
  - intros i t Hi Ht.
    apply binary64_correlation_step_upto; try assumption; unfold first, n in *; lia.
  - exists corr. split; [exact Hcorr|]. split; [exact Hlc|].
    intros i Hi. specialize (Hent i Hi). unfold first, n in *.
    destruct (decide (Z.to_nat (window - 1) <= i
                      < Z.to_nat (window - 1)
                        + (length ptr_x - Z.to_nat (window - 1)))%nat)
      as [Hd|Hd];
      destruct (decide (Z.to_nat (window - 1) <= i < length ptr_x)%nat)
        as [Hd'|Hd']; try lia; exact Hent.
Qed.

(** C9 fails on the code.  The doubles nearest to 0.3 and to 0.7, each
    repeated three times, are two constant windows: their population
    standard deviations are zero.  With window 3 the sums round, the two
    standard deviations the code computes from them are small positive
    doubles, the test [std_x > 0 && std_y > 0] passes, and the entry at
    index 2 is the quotient [cov / (std_x * std_y)], a double greater
    than 1, where the claim has a zero. *)
Theorem rolling_correlation_constant_windows :
  let ptr_x := [three_tenths; three_tenths; three_tenths] in
  let ptr_y := [seven_tenths; seven_tenths; seven_tenths] in
  (exists s,
     correlation_sums ptr_x ptr_y 3 2 = Some s
     /\ rolling_std 3 (sum_x s) (sum_xx s) = 0x1p-28%float
     /\ rolling_std 3 (sum_y s) (sum_yy s) = 0x1.bb67ae8584caap-27%float
     /\ (0 <? rolling_std 3 (sum_x s) (sum_xx s))%float = true
     /\ (0 <? rolling_std 3 (sum_y s) (sum_yy s))%float = true)
  /\ rolling_correlation ptr_x ptr_y 3
     = Some [0; 0; 0x1.279a74590331dp+0]%float
  /\ (1 <? 0x1.279a74590331dp+0)%float = true.
Proof.
  split; [|split].
  - eexists. split; [vm_compute; reflexivity|].
    repeat split; vm_compute; reflexivity.
  - vm_compute. reflexivity.
  - vm_compute. reflexivity.
Qed.

(** X17.  On binary64 doubles, for a window of at least 1 and a second
    input at least as long as the first, [rolling_correlation] returns a
    buffer of the length of the first input.  An entry before the first
    full window is the initial zero.  At an index with a full window the
    five sums are computed inside both inputs, and the entry is the
    quotient [cov / (std_x * std_y)] when both computed standard
    deviations compare greater than zero, and the initial zero when one
    of them does not; in particular when one of them is exactly zero. *)
Theorem rolling_correlation_entries (ptr_x ptr_y : list float) (window : Z) :
  (1 <= window)%Z -> (length ptr_x <= length ptr_y)%nat ->
  exists corr,
    rolling_correlation ptr_x ptr_y window = Some corr
    /\ length corr = length ptr_x
    /\ (forall i, (S i < Z.to_nat window)%nat -> (i < length ptr_x)%nat ->
          corr !! i = Some 0%float)
    /\ forall i, (Z.to_nat window <= S i)%nat -> (i < length ptr_x)%nat ->
         exists s,
           correlation_sums ptr_x ptr_y window i = Some s
           /\ let std_x := rolling_std window (sum_x s) (sum_xx s) in
              let std_y := rolling_std window (sum_y s) (sum_yy s) in
              ((0 <? std_x)%float = true -> (0 <? std_y)%float = true ->
               corr !! i = Some (rolling_cov window s / (std_x * std_y))%float)
              /\ ((0 <? std_x)%float = false \/ (0 <? std_y)%float = false ->
                  corr !! i = Some 0%float)
              /\ (std_x = 0%float \/ std_y = 0%float ->
                  corr !! i = Some 0%float).
Proof.
  intros Hw Hlen.
  destruct (binary64_rolling_correlation_full ptr_x ptr_y window Hw Hlen)
    as (corr & Hcorr & Hlc & Hent).
  exists corr. split; [exact Hcorr|]. split; [exact Hlc|]. split.
  - intros i Hpad Hi. specialize (Hent i Hi).
    destruct decide as [Hd|_]; [lia|exact Hent].
  - intros i Hfull Hi. specialize (Hent i Hi).
    destruct decide as [_|Hd]; [|lia].
    destruct Hent as (s & Hs & Hval). exists s. split; [exact Hs|].
    unfold correlation_entry in Hval. cbv zeta.
    assert ((0 <? rolling_std window (sum_x s) (sum_xx s))%float = false
            \/ (0 <? rolling_std window (sum_y s) (sum_yy s))%float = false ->
            corr !! i = Some 0%float) as Hfail.
    { intros [Hx|Hy].
      - rewrite Hx in Hval. exact Hval.
      - rewrite Hy in Hval.
        destruct (0 <? rolling_std window (sum_x s) (sum_xx s))%float;
          exact Hval. }
    split; [|split].
    + intros Hx Hy. rewrite Hx, Hy in Hval. exact Hval.
    + exact Hfail.
    + intros [Hx|Hy]; apply Hfail; [left; rewrite Hx|right; rewrite Hy];
        exact binary64_zero_not_positive.
Qed.

Lemma rolling_correlation_entries_witness :
  exists corr,
    rolling_correlation [1; 2; 2]%float [2; 4; 4]%float 2 = Some corr
    /\ corr !! 1%nat = Some 1%float
    /\ corr !! 2%nat = Some 0%float.
Proof.
  destruct (rolling_correlation_entries [1; 2; 2]%float [2; 4; 4]%float 2)
    as (corr & Hcorr & _ & _ & Hfull); [lia|simpl; lia|].
  exists corr. split; [exact Hcorr|]. split.
  - destruct (Hfull 1%nat) as (s & Hs & Hpass & _); [simpl; lia|simpl; lia|].
    vm_compute in Hs. injection Hs as <-.
    rewrite Hpass by (vm_compute; reflexivity). vm_compute. reflexivity.
  - destruct (Hfull 2%nat) as (s & Hs & _ & _ & Hzero); [simpl; lia|simpl; lia|].
    vm_compute in Hs. injection Hs as <-.
    apply Hzero. left. vm_compute. reflexivity.
Defined.

End Binary64Facts.

(** ** Further facts about the valuation engine, the solver and the ratios *)

Module FinanceExtra.
Import Finance FinanceAux Ratios Statistics Recurrences RealFacts FinanceFacts.

(** *** Capital ratios *)

(** X1.  The total value to paid-in is the distributed plus the residual
    value to paid-in, and the multiple on invested capital is the same
    number, on every input: all four are not-a-number exactly when the
    invested capital is not positive. *)
Theorem tvpi_is_dpi_plus_rvpi (total_distributions current_value total_invested : R) :
  calculate_tvpi total_distributions current_value total_invested
  = metric_add (calculate_dpi total_distributions total_invested)
               (calculate_rvpi current_value total_invested)
  /\ calculate_moic total_distributions current_value total_invested
     = calculate_tvpi total_distributions current_value total_invested
  /\ (calculate_tvpi total_distributions current_value total_invested = NotANumber
      <-> total_invested <= 0).
Proof.
  unfold calculate_tvpi, calculate_dpi, calculate_rvpi, calculate_moic, metric_add.
  destruct (Rle_dec total_invested 0) as [Hle|Hgt].
  - repeat split; auto.
  - split; [f_equal; unfold Rdiv; lra|]. split; [reflexivity|].
    split; [discriminate|contradiction].
Qed.

(** X2.  The ratios do not depend on the unit of account: multiplying
    every amount by the same positive factor leaves each of them
    unchanged. *)
Theorem ratios_scale_invariant (k d c i : R) :
  0 < k ->
  calculate_moic (k * d) (k * c) (k * i) = calculate_moic d c i
  /\ calculate_dpi (k * d) (k * i) = calculate_dpi d i
  /\ calculate_tvpi (k * d) (k * c) (k * i) = calculate_tvpi d c i
  /\ calculate_rvpi (k * c) (k * i) = calculate_rvpi c i.
Proof.
  intros Hk.
  unfold calculate_moic, calculate_dpi, calculate_tvpi, calculate_rvpi.
  destruct (Rle_dec i 0) as [Hle|Hgt];
    destruct (Rle_dec (k * i) 0) as [Hle'|Hgt']; try (exfalso; nra).
  - repeat split; reflexivity.
  - repeat split; f_equal; field; lra.
Qed.

Lemma ratios_scale_invariant_witness :
  calculate_moic (100 * 3) (100 * 5) (100 * 4) = calculate_moic 3 5 4
  /\ calculate_dpi (100 * 3) (100 * 4) = calculate_dpi 3 4
  /\ calculate_tvpi (100 * 3) (100 * 5) (100 * 4) = calculate_tvpi 3 5 4
  /\ calculate_rvpi (100 * 5) (100 * 4) = calculate_rvpi 5 4.
Proof. apply (ratios_scale_invariant 100 3 5 4). lra. Defined.

(** *** Algebra of the present value *)

Lemma calculate_npv_app (cfs1 cfs2 : list CashFlow) (rate : R) :
  calculate_npv (cfs1 ++ cfs2) rate
  = calculate_npv cfs1 rate + calculate_npv cfs2 rate.
Proof.
  induction cfs1 as [|cf cfs1 IH]; simpl.
  - rewrite calculate_npv_nil. lra.
  - rewrite !calculate_npv_cons, IH. lra.
Qed.

Lemma calculate_npv_perm (cfs1 cfs2 : list CashFlow) (rate : R) :
  Permutation cfs1 cfs2 -> calculate_npv cfs1 rate = calculate_npv cfs2 rate.
Proof.
  induction 1 as [|cf l1 l2 _ IH|cf1 cf2 l|l1 l2 l3 _ IH1 _ IH2].
  - reflexivity.
  - rewrite !calculate_npv_cons, IH. reflexivity.
  - rewrite !calculate_npv_cons. lra.
  - rewrite IH1. exact IH2.
Qed.

Lemma calculate_npv_derivative_perm (cfs1 cfs2 : list CashFlow) (rate : R) :
  Permutation cfs1 cfs2 ->
  calculate_npv_derivative cfs1 rate = calculate_npv_derivative cfs2 rate.
Proof.
  induction 1 as [|cf l1 l2 _ IH|cf1 cf2 l|l1 l2 l3 _ IH1 _ IH2].
  - reflexivity.
  - rewrite !calculate_npv_derivative_cons, IH. reflexivity.
  - rewrite !calculate_npv_derivative_cons. lra.
  - rewrite IH1. exact IH2.
Qed.

(** X3.  At rate 0 nothing is discounted: the present value is the sum
    of the amounts, whatever the offsets. *)
Theorem npv_at_zero_rate (cfs : list CashFlow) :
  calculate_npv cfs 0 = total_amount cfs.
Proof.
  unfold total_amount, sum_list. induction cfs as [|cf cfs IH].
  - reflexivity.
  - rewrite calculate_npv_cons, IH. unfold discounted. simpl.
    replace (1 + 0) with 1 by lra. rewrite Rpower_base_1. lra.
Qed.

(** The two loops of the solver see the cash flows only through the
    present value and its derivative. *)
Lemma newton_ext (cfs1 cfs2 : list CashFlow) :
  (forall rate, calculate_npv cfs1 rate = calculate_npv cfs2 rate) ->
  (forall rate, calculate_npv_derivative cfs1 rate
                = calculate_npv_derivative cfs2 rate) ->
  forall iterations guess,
    newton iterations cfs1 guess = newton iterations cfs2 guess.
Proof.
  intros Hnpv Hder. induction iterations as [|k IH]; intros guess.
  - reflexivity.
  - simpl. rewrite !Hnpv, !Hder, IH. reflexivity.
Qed.

Lemma binary_search_ext (cfs1 cfs2 : list CashFlow) :
  (forall rate, calculate_npv cfs1 rate = calculate_npv cfs2 rate) ->
  forall iterations low high npv_low npv_high,
    binary_search iterations cfs1 low high npv_low npv_high
    = binary_search iterations cfs2 low high npv_low npv_high.
Proof.
  intros Hnpv. induction iterations as [|k IH]; intros low high npv_low npv_high.
  - reflexivity.
  - simpl. rewrite !Hnpv.
    destruct (Rlt_dec (Rabs (calculate_npv cfs2 ((low + high) / 2))) TOLERANCE);
      [reflexivity|].
    destruct (Rlt_dec (calculate_npv cfs2 ((low + high) / 2) * npv_low) 0);
      (destruct Rlt_dec; [reflexivity|apply IH]).
Qed.

(** X4.  In exact arithmetic the order of the cash flows is immaterial:
    two sequences that are permutations of each other have the same
    present value and derivative at every rate, and the solver returns
    the same result on both from every initial guess. *)
Theorem xirr_order_independent (cfs1 cfs2 : list CashFlow) :
  Permutation cfs1 cfs2 ->
  (forall rate,
     calculate_npv cfs1 rate = calculate_npv cfs2 rate
     /\ calculate_npv_derivative cfs1 rate = calculate_npv_derivative cfs2 rate)
  /\ (forall initial_guess,
        calculate_xirr cfs1 initial_guess = calculate_xirr cfs2 initial_guess).
Proof.
  intros Hperm.
  assert (Hnpv : forall rate, calculate_npv cfs1 rate = calculate_npv cfs2 rate)
    by (intros rate; apply calculate_npv_perm; exact Hperm).
  assert (Hder : forall rate, calculate_npv_derivative cfs1 rate
                              = calculate_npv_derivative cfs2 rate)
    by (intros rate; apply calculate_npv_derivative_perm; exact Hperm).
  split; [intros rate; split; [apply Hnpv|apply Hder]|].
  intros guess. unfold calculate_xirr, fallback.
  rewrite (Permutation_length Hperm), (newton_ext cfs1 cfs2 Hnpv Hder), !Hnpv.
  destruct (length cfs2 <? 2)%nat; [reflexivity|].
  destruct (newton MAX_NEWTON_ITERATIONS cfs2 guess); [reflexivity|].
  destruct Rgt_dec; [reflexivity|]. apply binary_search_ext. exact Hnpv.
Qed.

Lemma xirr_order_independent_witness :
  (forall rate,
     calculate_npv one_year_gain rate = calculate_npv (rev one_year_gain) rate
     /\ calculate_npv_derivative one_year_gain rate
        = calculate_npv_derivative (rev one_year_gain) rate)
  /\ (forall initial_guess,
        calculate_xirr one_year_gain initial_guess
        = calculate_xirr (rev one_year_gain) initial_guess).
Proof.
  apply (xirr_order_independent one_year_gain (rev one_year_gain)).
  apply Permutation_rev.
Defined.

(** *** The bisection fallback *)

(** Each iteration that does not return halves the bracket, so a loop
    with enough iterations for the bracket to shrink below the tolerance
    always returns a rate, strictly inside the bracket it started from. *)
Lemma binary_search_returns (cfs : list CashFlow) (iterations : nat) :
  forall low high npv_low npv_high,
    TOLERANCE <= high - low ->
    high - low < TOLERANCE * 2 ^ iterations ->
    exists r,
      binary_search iterations cfs low high npv_low npv_high = Rate r
      /\ low < r < high.
Proof.
  assert (Htol : 0 < TOLERANCE) by (unfold TOLERANCE; lra).
  induction iterations as [|k IH]; intros low high npv_low npv_high Hwide Hfuel.
  - simpl in Hfuel. lra.
  - simpl. set (mid := (low + high) / 2).
    assert (Hmid : low < mid < high) by (unfold mid; lra).
    assert (Hpow : high - low < TOLERANCE * 2 * 2 ^ k) by (simpl in Hfuel; lra).
    destruct (Rlt_dec (Rabs (calculate_npv cfs mid)) TOLERANCE) as [Hacc|_];
      [exists mid; auto|].
    destruct (Rlt_dec (calculate_npv cfs mid * npv_low) 0) as [Hsign|Hsign].
    + destruct (Rlt_dec (mid - low) TOLERANCE) as [Hnarrow|Hnarrow].
      * exists ((low + mid) / 2). split; [reflexivity|lra].
      * destruct (IH low mid npv_low (calculate_npv cfs mid))
          as (r & Hr & Hin); [lra|unfold mid; lra|].
        exists r. split; [exact Hr|lra].
    + destruct (Rlt_dec (high - mid) TOLERANCE) as [Hnarrow|Hnarrow].
      * exists ((mid + high) / 2). split; [reflexivity|lra].
      * destruct (IH mid high (calculate_npv cfs mid) npv_high)
          as (r & Hr & Hin); [lra|unfold mid; lra|].
        exists r. split; [exact Hr|lra].
Qed.

Lemma fallback_bisects (cfs : list CashFlow) :
  ~ calculate_npv cfs MIN_RATE * calculate_npv cfs MAX_RATE > 0 ->
  exists r, fallback cfs = Rate r /\ MIN_RATE < r < MAX_RATE.
Proof.
  intros Hsign. unfold fallback.
  destruct Rgt_dec as [Hpos|_]; [contradiction|].
  apply binary_search_returns;
    unfold TOLERANCE, MIN_RATE, MAX_RATE, MAX_BINARY_ITERATIONS; lra.
Qed.

Lemma calculate_xirr_no_solution (cfs : list CashFlow) (initial_guess : R) :
  (length cfs < 2)%nat
  \/ (newton MAX_NEWTON_ITERATIONS cfs initial_guess = Fallback
      /\ calculate_npv cfs MIN_RATE * calculate_npv cfs MAX_RATE > 0) ->
  calculate_xirr cfs initial_guess = NaN.
Proof.
  unfold calculate_xirr. intros [Hlen|[Hn Hpos]].
  - apply Nat.ltb_lt in Hlen. rewrite Hlen. reflexivity.
  - destruct (length cfs <? 2)%nat; [reflexivity|].
    rewrite Hn. unfold fallback. destruct Rgt_dec; [reflexivity|contradiction].
Qed.

(** X5.  The [return NaN] that follows the bisection loop is never
    reached: 100 halvings of [[-0.999, 10]] always bring the bracket
    below the tolerance.  The solver returns the not-a-number sentinel
    exactly when fewer than two cash flows are given, or when the Newton
    phase falls through and the present values at the two ends of
    [[MIN_RATE, MAX_RATE]] have a positive product. *)
Theorem xirr_nan_iff (cfs : list CashFlow) (initial_guess : R) :
  calculate_xirr cfs initial_guess = NaN
  <-> (length cfs < 2)%nat
      \/ (newton MAX_NEWTON_ITERATIONS cfs initial_guess = Fallback
          /\ calculate_npv cfs MIN_RATE * calculate_npv cfs MAX_RATE > 0).
Proof.
  unfold calculate_xirr.
  destruct (length cfs <? 2)%nat eqn:Hlen.
  - apply Nat.ltb_lt in Hlen. split; auto.
  - apply Nat.ltb_ge in Hlen.
    destruct (newton MAX_NEWTON_ITERATIONS cfs initial_guess) as [r|] eqn:Hn.
    + split; [discriminate|]. intros [H|[H _]]; [lia|discriminate].
    + destruct (Rgt_dec (calculate_npv cfs MIN_RATE * calculate_npv cfs MAX_RATE) 0)
        as [Hpos|Hneg].
      * split; [auto|]. intros _. unfold fallback.
        destruct Rgt_dec; [reflexivity|contradiction].
      * destruct (fallback_bisects cfs Hneg) as (r & -> & _).
        split; [discriminate|]. intros [H|[_ H]]; [lia|contradiction].
Qed.

(** X6.  A rate returned by the solver always lies in the operational
    bounds [[MIN_RATE, MAX_RATE]], whatever the cash flows and the
    initial guess. *)
Theorem xirr_within_bounds (cfs : list CashFlow) (initial_guess r : R) :
  calculate_xirr cfs initial_guess = Rate r -> MIN_RATE <= r <= MAX_RATE.
Proof.
  unfold calculate_xirr. destruct (length cfs <? 2)%nat; [discriminate|].
  destruct (newton MAX_NEWTON_ITERATIONS cfs initial_guess) as [r'|] eqn:Hn.
  - intros [= <-]. apply newton_Returned_range in Hn. tauto.
  - intros Hfb.
    destruct (Rgt_dec (calculate_npv cfs MIN_RATE * calculate_npv cfs MAX_RATE) 0)
      as [Hpos|Hneg].
    + unfold fallback in Hfb. destruct Rgt_dec; [discriminate|contradiction].
    + destruct (fallback_bisects cfs Hneg) as (r' & Hr' & Hin).
      rewrite Hr' in Hfb. injection Hfb as <-. lra.
Qed.

Lemma xirr_within_bounds_witness :
  exists r,
    calculate_xirr one_year_gain default_guess = Rate r
    /\ MIN_RATE <= r <= MAX_RATE.
Proof.
  destruct one_year_solution as (r & Hr & _).
  exists r. split; [exact Hr|].
  exact (xirr_within_bounds one_year_gain default_guess r Hr).
Defined.

(** *** Soundness of the returned rate *)

Lemma calculate_npv_continuous (cfs : list CashFlow) (rate : R) :
  -1 < rate -> continuity_pt (calculate_npv cfs) rate.
Proof.
  intros Hdom. apply derivable_continuous_pt.
  exists (calculate_npv_derivative cfs rate).
  apply calculate_npv_derivable. exact Hdom.
Qed.

(** A bracket above -1 on which the present value changes sign, or
    vanishes at an end, holds a rate where it is exactly zero. *)
Lemma calculate_npv_root (cfs : list CashFlow) (l h : R) :
  -1 < l -> l < h ->
  calculate_npv cfs l * calculate_npv cfs h <= 0 ->
  exists root, l <= root <= h /\ calculate_npv cfs root = 0.
Proof.
  intros Hdom Hlh Hsign.
  destruct (Rtotal_order (calculate_npv cfs l) 0) as [Hl|[Hl|Hl]].
  - destruct (Rtotal_order (calculate_npv cfs h) 0) as [Hh|[Hh|Hh]].
    + exfalso. nra.
    + exists h. split; [lra|exact Hh].
    + destruct (IVT_interv (calculate_npv cfs) l h) as (root & Hin & Hroot);
        try assumption.
      { intros a Ha. apply calculate_npv_continuous. lra. }
      exists root. auto.
  - exists l. split; [lra|exact Hl].
  - destruct (Rtotal_order (calculate_npv cfs h) 0) as [Hh|[Hh|Hh]].
    + destruct (IVT_interv (opp_fct (calculate_npv cfs)) l h)
        as (root & Hin & Hroot); try assumption.
      { intros a Ha. apply continuity_pt_opp.
        apply calculate_npv_continuous. lra. }
      { unfold opp_fct. lra. }
      { unfold opp_fct. lra. }
      exists root. split; [exact Hin|]. unfold opp_fct in Hroot. lra.
    + exists h. split; [lra|exact Hh].
    + exfalso. nra.
Qed.

(** The bisection keeps the sign change inside its bracket as long as the
    present value at the lower end is not zero. *)
Lemma binary_search_sound (cfs : list CashFlow) (iterations : nat) :
  forall low high npv_low npv_high r,
    npv_low = calculate_npv cfs low -> npv_low <> 0 ->
    npv_low * calculate_npv cfs high <= 0 ->
    low < high ->
    binary_search iterations cfs low high npv_low npv_high = Rate r ->
    Rabs (calculate_npv cfs r) < TOLERANCE
    \/ exists l h,
         low <= l /\ h <= high /\ l < r < h /\ h - l < TOLERANCE
         /\ calculate_npv cfs l * calculate_npv cfs h <= 0.
Proof.
  assert (Htol : 0 < TOLERANCE) by (unfold TOLERANCE; lra).
  induction iterations as [|k IH];
    intros low high npv_low npv_high r Hlow Hnz Hsign Hlh; [discriminate|].
  simpl. set (mid := (low + high) / 2).
  assert (Hmid : low < mid < high) by (unfold mid; lra).
  destruct (Rlt_dec (Rabs (calculate_npv cfs mid)) TOLERANCE) as [Hacc|Hrej].
  { intros [= <-]. left. exact Hacc. }
  destruct (Rlt_dec (calculate_npv cfs mid * npv_low) 0) as [Hneg|Hpos].
  - destruct (Rlt_dec (mid - low) TOLERANCE) as [Hnarrow|Hnarrow].
    + intros [= <-]. right. exists low, mid. subst npv_low.
      repeat split; try lra.
    + intros Hrec.
      assert (Hsign' : npv_low * calculate_npv cfs mid <= 0) by lra.
      destruct (IH low mid npv_low (calculate_npv cfs mid) r Hlow Hnz Hsign'
                  (proj1 Hmid) Hrec)
        as [Hres|(l & h & Hl & Hh & Hres)]; [left; exact Hres|].
      right. exists l, h. repeat split; try tauto; lra.
  - assert (Hmid_nz : calculate_npv cfs mid <> 0).
    { intros Hz. rewrite Hz, Rabs_R0 in Hrej. lra. }
    assert (Hsign' : calculate_npv cfs mid * calculate_npv cfs high <= 0).
    { destruct (Rtotal_order npv_low 0) as [Hl|[Hl|Hl]]; [|contradiction|]; nra. }
    destruct (Rlt_dec (high - mid) TOLERANCE) as [Hnarrow|Hnarrow].
    + intros [= <-]. right. exists mid, high. repeat split; lra.
    + intros Hrec.
      destruct (IH mid high (calculate_npv cfs mid) npv_high r eq_refl Hmid_nz
                  Hsign' (proj2 Hmid) Hrec)
        as [Hres|(l & h & Hl & Hh & Hres)]; [left; exact Hres|].
      right. exists l, h. repeat split; try tauto; lra.
Qed.

(** X7.  When the present value at [MIN_RATE] is not exactly zero, every
    rate the solver returns is sound: either the present value there is
    within the tolerance, or the rate is less than the tolerance away
    from a rate in [[MIN_RATE, MAX_RATE]] at which the present value is
    exactly zero. *)
Theorem xirr_sound (cfs : list CashFlow) (initial_guess r : R) :
  calculate_npv cfs MIN_RATE <> 0 ->
  calculate_xirr cfs initial_guess = Rate r ->
  Rabs (calculate_npv cfs r) < TOLERANCE
  \/ exists root,
       MIN_RATE <= root <= MAX_RATE
       /\ calculate_npv cfs root = 0
       /\ Rabs (r - root) < TOLERANCE.
Proof.
  intros Hnz. unfold calculate_xirr.
  destruct (length cfs <? 2)%nat; [discriminate|].
  destruct (newton MAX_NEWTON_ITERATIONS cfs initial_guess) as [r'|] eqn:Hn.
  - intros [= <-]. left. apply newton_Returned_range in Hn. tauto.
  - unfold fallback. destruct Rgt_dec as [|Hsign]; [discriminate|].
    intros Hbs.
    assert (Hsign' : calculate_npv cfs MIN_RATE * calculate_npv cfs MAX_RATE <= 0)
      by lra.
    assert (Hlh : MIN_RATE < MAX_RATE) by (unfold MIN_RATE, MAX_RATE; lra).
    destruct (binary_search_sound cfs _ _ _ _ _ r eq_refl Hnz Hsign' Hlh Hbs)
      as [Hacc|(l & h & Hl & Hh & Hin & Hnarrow & Hchange)];
      [left; exact Hacc|].
    + right.
      destruct (calculate_npv_root cfs l h) as (root & Hroot_in & Hroot);
        try assumption; try (unfold MIN_RATE in *; lra).
      exists root. split; [lra|]. split; [exact Hroot|].
      apply Rabs_def1; lra.
Qed.

Lemma xirr_sound_witness :
  exists r,
    calculate_xirr one_year_gain default_guess = Rate r
    /\ (Rabs (calculate_npv one_year_gain r) < TOLERANCE
        \/ exists root,
             MIN_RATE <= root <= MAX_RATE
             /\ calculate_npv one_year_gain root = 0
             /\ Rabs (r - root) < TOLERANCE).
Proof.
  destruct one_year_solution as (r & Hr & _).
  exists r. split; [exact Hr|].
  apply (xirr_sound one_year_gain default_guess r); [|exact Hr].
  pose proof one_year_monotone as [Hall Hex].
  pose proof (calculate_npv_strictly_decreasing one_year_gain MIN_RATE
                one_year_root ltac:(unfold MIN_RATE; lra)
                ltac:(pose proof one_year_root_bounds; unfold MIN_RATE; lra)
                Hall Hex) as Hdec.
  rewrite one_year_npv_root in Hdec. lra.
Defined.

(** *** Cash flows on a single day, and a change of reference date *)

Lemma calculate_npv_same_day (cfs : list CashFlow) (rate : R) :
  Forall (fun cf => days_from_start cf = 0) cfs ->
  calculate_npv cfs rate = total_amount cfs
  /\ calculate_npv_derivative cfs rate = 0.
Proof.
  unfold total_amount, sum_list.
  induction 1 as [|cf cfs Hcf _ [IHn IHd]].
  - split; reflexivity.
  - rewrite calculate_npv_cons, calculate_npv_derivative_cons, IHn, IHd.
    unfold discounted. rewrite Hcf. simpl.
    replace (0 / 365.25) with 0 by lra. rewrite Rpower_0.
    split; unfold Rdiv; lra.
Qed.

(** X21.  When every cash flow is dated day 0 the present value is the
    sum of the amounts at every rate, and its derivative is zero at every
    rate above -1; unless that sum is within the tolerance of zero, the
    solver returns the not-a-number sentinel from every initial guess. *)
Theorem xirr_same_day (cfs : list CashFlow) (initial_guess : R) :
  Forall (fun cf => days_from_start cf = 0) cfs ->
  TOLERANCE <= Rabs (total_amount cfs) ->
  (forall rate, calculate_npv cfs rate = total_amount cfs)
  /\ (forall rate, -1 < rate -> calculate_npv_derivative cfs rate = 0)
  /\ calculate_xirr cfs initial_guess = NaN.
Proof.
  intros Hday Hsum.
  assert (Hflat : forall rate, calculate_npv cfs rate = total_amount cfs)
    by (intros rate; apply calculate_npv_same_day; exact Hday).
  split; [exact Hflat|]. split.
  { intros rate _. apply calculate_npv_same_day. exact Hday. }
  apply calculate_xirr_no_solution.
  destruct (decide (length cfs < 2)%nat) as [Hlen|Hlen]; [left; exact Hlen|].
  right. split.
  - apply newton_Fallback. intros rate. rewrite (Hflat rate). exact Hsum.
  - rewrite (Hflat MIN_RATE), (Hflat MAX_RATE).
    assert (Htol : 0 < TOLERANCE) by (unfold TOLERANCE; lra).
    assert (Hnz : total_amount cfs <> 0).
    { intros Hz. rewrite Hz, Rabs_R0 in Hsum. lra. }
    nra.
Qed.

Lemma xirr_same_day_witness :
  (forall rate,
     calculate_npv [mkCashFlow 0 (-1000); mkCashFlow 0 1100] rate
     = total_amount [mkCashFlow 0 (-1000); mkCashFlow 0 1100])
  /\ (forall rate, -1 < rate ->
       calculate_npv_derivative [mkCashFlow 0 (-1000); mkCashFlow 0 1100] rate
       = 0)
  /\ calculate_xirr [mkCashFlow 0 (-1000); mkCashFlow 0 1100] default_guess = NaN.
Proof.
  apply (xirr_same_day [mkCashFlow 0 (-1000); mkCashFlow 0 1100] default_guess).
  - repeat constructor.
  - unfold total_amount, sum_list, TOLERANCE. simpl.
    unfold Rabs. destruct Rcase_abs; lra.
Defined.

(** X22.  Dating every cash flow [d] days later divides the present
    value by the discount factor of [d] days, so the rates at which it
    vanishes do not depend on the reference date. *)
Theorem npv_postponed (cfs : list CashFlow) (d rate : R) :
  -1 < rate ->
  calculate_npv (postpone d cfs) rate
  = calculate_npv cfs rate / Rpower (1 + rate) (d / 365.25)
  /\ (calculate_npv (postpone d cfs) rate = 0 <-> calculate_npv cfs rate = 0).
Proof.
  intros Hdom.
  pose proof (Rpower_positive (1 + rate) (d / 365.25)) as Hp.
  assert (Heq : calculate_npv (postpone d cfs) rate
                = calculate_npv cfs rate / Rpower (1 + rate) (d / 365.25)).
  { induction cfs as [|cf cfs IH].
    - simpl. rewrite calculate_npv_nil. unfold Rdiv. lra.
    - simpl. rewrite !calculate_npv_cons, IH. unfold discounted. simpl.
      replace ((days_from_start cf + d) / 365.25)
        with (days_from_start cf / 365.25 + d / 365.25) by lra.
      rewrite Rpower_plus.
      pose proof (Rpower_positive (1 + rate) (days_from_start cf / 365.25)).
      field. split; lra. }
  split; [exact Heq|]. rewrite Heq. split.
  - intros Hz. apply (Rmult_eq_compat_r (Rpower (1 + rate) (d / 365.25))) in Hz.
    unfold Rdiv in Hz. rewrite Rmult_assoc, Rinv_l, Rmult_0_l in Hz by lra. lra.
  - intros ->. unfold Rdiv. lra.
Qed.

Lemma npv_postponed_witness :
  calculate_npv (postpone 30 one_year_gain) 0.1
  = calculate_npv one_year_gain 0.1 / Rpower (1 + 0.1) (30 / 365.25)
  /\ (calculate_npv (postpone 30 one_year_gain) 0.1 = 0
      <-> calculate_npv one_year_gain 0.1 = 0).
Proof. apply (npv_postponed one_year_gain 30 0.1). lra. Defined.


End FinanceExtra.

(** ** Further facts about the indicators *)

Module IndicatorsExtra.
Import Indicators Statistics IndicatorsAux Recurrences RealFacts IndicatorsFacts.

(** *** Inputs outside the intended range *)

(** X8.  The convergence/divergence indicator has no guard on the length
    of the series: when it is no longer than the slow period (in
    particular when it is empty) the read of [ptr[0]] or the access to
    index [slow_period] of the buffers falls outside them, and no output
    is produced. *)
Theorem macd_short_series_out_of_bounds (ptr : list R)
    (fast_period slow_period signal_period : Z) :
  (0 <= slow_period)%Z -> (Z.of_nat (length ptr) <= slow_period)%Z ->
  calculate_macd ptr fast_period slow_period signal_period = None.
Proof.
  intros Hslow Hn. unfold calculate_macd.
  destruct (ptr !! 0%nat) as [p0|] eqn:Hp0; [|reflexivity].
  apply lookup_lt_Some in Hp0 as Hlen. simpl.
  rewrite !write_Some by (rewrite length_zeros; lia). simpl.
  destruct (for_loop_invariant
              (fun k s => ema_upto ptr (2 / IZR (fast_period + 1))
                            (2 / IZR (slow_period + 1)) p0 k s)
              (macd_ema ptr (2 / IZR (fast_period + 1)) (2 / IZR (slow_period + 1)))
              (length ptr - 1) 1
              (<[0%nat := p0]> (zeros (length ptr)),
               <[0%nat := p0]> (zeros (length ptr)), zeros (length ptr)))
    as ([[ema_fast ema_slow] spread] & -> & Hema).
  - unfold ema_upto. rewrite !length_insert, !length_zeros.
    do 3 (split; [reflexivity|]).
    rewrite !list_lookup_insert_eq by (rewrite length_zeros; lia).
    do 2 (split; [reflexivity|]).
    split; [apply lookup_zeros; lia|]. intros Hk. lia.
  - intros i s Hi Hs. apply macd_ema_upto; [lia|exact Hs].
  - simpl. destruct Hema as (_ & _ & Hm & _).
    rewrite (to_size_t_nonneg slow_period) by lia.
    rewrite (lookup_ge_None_2 spread) by lia. reflexivity.
Qed.

Lemma macd_short_series_out_of_bounds_witness :
  calculate_macd [] 12 26 9 = None
  /\ calculate_macd [1; 2; 3] 12 26 9 = None.
Proof.
  split.
  - apply (macd_short_series_out_of_bounds [] 12 26 9); simpl; lia.
  - apply (macd_short_series_out_of_bounds [1; 2; 3] 12 26 9); simpl; lia.
Defined.

Lemma to_size_t_negative (z : Z) (n : nat) :
  (- 2 ^ 31 <= z < 0)%Z -> (Z.of_nat n < 2 ^ 63)%Z -> (n - to_size_t z = 0)%nat.
Proof.
  intros Hz Hn. unfold to_size_t.
  destruct (z <? 0)%Z eqn:E; [|apply Z.ltb_ge in E; lia].
  change (2 ^ 64)%Z with 18446744073709551616%Z.
  change (2 ^ 63)%Z with 9223372036854775808%Z in Hn.
  change (2 ^ 31)%Z with 2147483648%Z in Hz. lia.
Qed.

(** X9.  A window that is not positive makes the loop bound wrap around
    to a huge [size_t]: on any series that fits in memory the volatility
    bands and the rolling correlation run no iteration and return
    all-zero outputs of the input length, and so does the oscillator for
    a negative period. *)
Theorem nonpositive_window_all_zero (ptr ptr_y : list R) (w : Z) (num_std : R) :
  (- 2 ^ 31 < w <= 0)%Z -> (Z.of_nat (length ptr) < 2 ^ 63)%Z ->
  calculate_bollinger_bands ptr w num_std
  = Some (mkBollingerBands (zeros (length ptr)) (zeros (length ptr))
            (zeros (length ptr)))
  /\ rolling_correlation ptr ptr_y w = Some (zeros (length ptr))
  /\ ((w < 0)%Z -> calculate_rsi ptr w = Some (zeros (length ptr))).
Proof.
  intros Hw Hn. split; [|split].
  - unfold calculate_bollinger_bands.
    rewrite to_size_t_negative by (try exact Hn; lia). reflexivity.
  - unfold rolling_correlation.
    rewrite to_size_t_negative by (try exact Hn; lia). reflexivity.
  - intros Hneg. unfold calculate_rsi.
    destruct (rsi_changes_buffers ptr) as (gains & losses & -> & _).
    simpl. unfold rsi_initial_average.
    replace (Z.to_nat w) with 0%nat by lia. simpl.
    unfold rsi_smoothing.
    rewrite to_size_t_negative by (try exact Hn; lia). reflexivity.
Qed.

Lemma nonpositive_window_all_zero_witness :
  calculate_bollinger_bands [1; 2; 3] (-5) 2
  = Some (mkBollingerBands [0; 0; 0] [0; 0; 0] [0; 0; 0])
  /\ rolling_correlation [1; 2; 3] [3; 2; 1] (-5) = Some [0; 0; 0]
  /\ calculate_rsi [1; 2; 3] (-5) = Some [0; 0; 0].
Proof.
  destruct (nonpositive_window_all_zero [1; 2; 3] [3; 2; 1] (-5) 2)
    as (Hb & Hc & Hr).
  - change (2 ^ 31)%Z with 2147483648%Z. lia.
  - change (2 ^ 63)%Z with 9223372036854775808%Z. simpl. lia.
  - split; [exact Hb|]. split; [exact Hc|]. apply Hr. lia.
Defined.

(** *** Volatility bands *)

Lemma population_std_nonneg (xs : list R) : 0 <= population_std xs.
Proof. unfold population_std. apply sqrt_pos. Qed.

(** X10.  For a nonnegative multiplier the bands are ordered and
    symmetric at every index: lower <= middle <= upper, and the upper
    band is as far above the middle as the lower band is below it. *)
Theorem bollinger_bands_ordered (ptr : list R) (period : Z) (num_std : R) :
  (1 <= period)%Z -> 0 <= num_std ->
  exists bands,
    calculate_bollinger_bands ptr period num_std = Some bands
    /\ forall i, (i < length ptr)%nat ->
         exists l m u,
           lower bands !! i = Some l /\ middle bands !! i = Some m
           /\ upper bands !! i = Some u
           /\ l <= m <= u /\ u - m = m - l.
Proof.
  intros Hp Hk.
  destruct (calculate_bollinger_bands_full ptr period num_std Hp)
    as (bands & Hbands & _ & _ & _ & Hzero & Hvalues).
  exists bands. split; [exact Hbands|]. intros i Hi.
  destruct (decide (i < Z.to_nat (period - 1))%nat) as [Hbefore|Hafter].
  - destruct (Hzero i Hbefore Hi) as (Hm & Hu & Hl).
    exists 0, 0, 0. repeat split; try assumption; lra.
  - destruct (Hvalues i ltac:(lia)) as (Hm & Hu & Hl).
    set (w := trailing_window ptr (Z.to_nat period) i) in *.
    pose proof (population_std_nonneg w) as Hstd.
    exists (mean w - num_std * population_std w), (mean w),
      (mean w + num_std * population_std w).
    repeat split; try assumption; nra.
Qed.

Lemma bollinger_bands_ordered_witness :
  exists bands,
    calculate_bollinger_bands [1; 3; 5] 2 2 = Some bands
    /\ forall i, (i < length [1; 3; 5])%nat ->
         exists l m u,
           lower bands !! i = Some l /\ middle bands !! i = Some m
           /\ upper bands !! i = Some u
           /\ l <= m <= u /\ u - m = m - l.
Proof. apply (bollinger_bands_ordered [1; 3; 5] 2 2); [lia|lra]. Defined.

Lemma sum_list_constant (xs : list R) (c : R) :
  Forall (fun x => x = c) xs -> sum_list xs = INR (length xs) * c.
Proof.
  unfold sum_list. induction 1 as [|x xs -> _ IH].
  - simpl. lra.
  - cbn [foldr length]. rewrite IH, S_INR. lra.
Qed.

Lemma sum_list_map_zero (f : R -> R) (xs : list R) :
  Forall (fun x => f x = 0) xs -> sum_list (map f xs) = 0.
Proof.
  unfold sum_list. induction 1 as [|x xs Hx _ IH]; simpl; [|rewrite Hx, IH]; lra.
Qed.

(** A window whose entries are all [c] has mean [c] and standard
    deviation zero. *)
Lemma constant_window_statistics (xs : list R) (c : R) :
  xs <> [] -> Forall (fun x => x = c) xs ->
  mean xs = c /\ population_std xs = 0.
Proof.
  intros Hne Hall.
  assert (Hlen : 0 < INR (length xs)).
  { apply lt_0_INR. destruct xs; [contradiction|simpl; lia]. }
  assert (Hmean : mean xs = c).
  { unfold mean. rewrite (sum_list_constant xs c Hall). field. lra. }
  split; [exact Hmean|].
  unfold population_std, population_variance. rewrite Hmean.
  rewrite sum_list_map_zero.
  - unfold Rdiv. rewrite Rmult_0_l. apply sqrt_0.
  - apply (Forall_impl _ _ _ Hall). intros x ->. lra.
Qed.

(** X11.  Where the trailing window is flat (all its prices equal) the
    three bands coincide with that price, whatever the multiplier. *)
Theorem bollinger_flat_window (ptr : list R) (period : Z) (num_std : R) :
  (1 <= period)%Z ->
  exists bands,
    calculate_bollinger_bands ptr period num_std = Some bands
    /\ forall i c, (Z.to_nat period <= S i)%nat -> (i < length ptr)%nat ->
         Forall (fun x => x = c) (trailing_window ptr (Z.to_nat period) i) ->
         lower bands !! i = Some c /\ middle bands !! i = Some c
         /\ upper bands !! i = Some c.
Proof.
  intros Hp.
  destruct (calculate_bollinger_bands_full ptr period num_std Hp)
    as (bands & Hbands & _ & _ & _ & _ & Hvalues).
  exists bands. split; [exact Hbands|]. intros i c Hi Hin Hflat.
  destruct (Hvalues i ltac:(lia)) as (Hm & Hu & Hl).
  assert (Hne : trailing_window ptr (Z.to_nat period) i <> []).
  { intros Hnil. apply (f_equal length) in Hnil.
    rewrite length_trailing_window in Hnil by assumption. simpl in Hnil. lia. }
  destruct (constant_window_statistics _ c Hne Hflat) as [Hmean Hstd].
  rewrite Hmean, Hstd in *.
  rewrite Hm, Hu, Hl. repeat split; f_equal; lra.
Qed.

Lemma bollinger_flat_window_witness :
  exists bands,
    calculate_bollinger_bands [7; 7; 7; 9] 3 2 = Some bands
    /\ lower bands !! 2%nat = Some 7 /\ middle bands !! 2%nat = Some 7
    /\ upper bands !! 2%nat = Some 7.
Proof.
  destruct (bollinger_flat_window [7; 7; 7; 9] 3 2) as (bands & Hb & Hflat);
    [lia|].
  exists bands. split; [exact Hb|].
  apply Hflat; [simpl; lia|simpl; lia|].
  repeat constructor.
Defined.

(** *** Oscillator on monotone series *)

Lemma all_zero_zeros (n : nat) : all_zero (zeros n).
Proof. apply Forall_replicate. reflexivity. Qed.

(** On a rising series no loss is recorded. *)
Lemma rsi_changes_rising (ptr : list R) :
  rising ptr ->
  exists gains losses,
    rsi_changes ptr = Some (gains, losses)
    /\ length gains = length ptr /\ length losses = length ptr
    /\ all_zero losses.
Proof.
  intros Hup. unfold rsi_changes.
  destruct (for_loop_invariant
              (fun _ s => length s.1 = length ptr /\ length s.2 = length ptr
                          /\ all_zero s.2)
              (rsi_change ptr) (length ptr - 1) 1
              (zeros (length ptr), zeros (length ptr)))
    as ([gains losses] & Hloop & Hg & Hl & Hz).
  - simpl. rewrite length_zeros. auto using all_zero_zeros.
  - intros i [gains losses] Hi (Hg & Hl & Hz). simpl in *.
    destruct (lookup_lt_is_Some_2 ptr i ltac:(lia)) as [p Hp].
    destruct (lookup_lt_is_Some_2 ptr (i - 1) ltac:(lia)) as [q Hq].
    assert (Hqp : q <= p).
    { apply (Hup (i - 1)%nat); [exact Hq|].
      replace (S (i - 1)) with i by lia. exact Hp. }
    unfold rsi_change. rewrite Hp, Hq. simpl.
    destruct (Rgt_dec (p - q) 0) as [Hgain|Hflat].
    + rewrite write_Some by lia. simpl. eexists. split; [reflexivity|]. simpl.
      rewrite length_insert. auto.
    + rewrite write_Some by lia. simpl. eexists. split; [reflexivity|]. simpl.
      rewrite length_insert. repeat split; try assumption.
      apply Forall_insert; [exact Hz|lra].
  - exists gains, losses. simpl in *. auto.
Qed.

(** On a falling series no gain is recorded and every loss from index
    1 on is positive. *)
Lemma rsi_changes_falling (ptr : list R) :
  falling ptr ->
  exists gains losses,
    rsi_changes ptr = Some (gains, losses)
    /\ length gains = length ptr /\ length losses = length ptr
    /\ all_zero gains
    /\ forall i, (1 <= i < length ptr)%nat ->
         exists l, losses !! i = Some l /\ 0 < l.
Proof.
  intros Hdown. unfold rsi_changes.
  destruct (for_loop_invariant
              (fun k s => length s.1 = length ptr /\ length s.2 = length ptr
                          /\ all_zero s.1
                          /\ forall i, (1 <= i < k)%nat ->
                               exists l, s.2 !! i = Some l /\ 0 < l)
              (rsi_change ptr) (length ptr - 1) 1
              (zeros (length ptr), zeros (length ptr)))
    as ([gains losses] & Hloop & Hg & Hl & Hz & Hpos).
  - simpl. rewrite length_zeros.
    repeat split; auto using all_zero_zeros. intros i Hi. lia.
  - intros i [gains losses] Hi (Hg & Hl & Hz & Hpos). simpl in *.
    destruct (lookup_lt_is_Some_2 ptr i ltac:(lia)) as [p Hp].
    destruct (lookup_lt_is_Some_2 ptr (i - 1) ltac:(lia)) as [q Hq].
    assert (Hpq : p < q).
    { apply (Hdown (i - 1)%nat); [exact Hq|].
      replace (S (i - 1)) with i by lia. exact Hp. }
    unfold rsi_change. rewrite Hp, Hq. simpl.
    destruct (Rgt_dec (p - q) 0) as [Hgain|_]; [exfalso; lra|].
    rewrite write_Some by lia. simpl. eexists. split; [reflexivity|]. simpl.
    rewrite length_insert. do 3 (split; [assumption|]).
    intros k Hk. destruct (decide (k = i)) as [->|Hne].
    + rewrite list_lookup_insert_eq by lia. eexists. split; [reflexivity|lra].
    + rewrite list_lookup_insert_ne by lia. apply Hpos. lia.
  - exists gains, losses. simpl in *. do 4 (split; [assumption|]).
    intros i Hi. apply Hpos. lia.
Qed.

Lemma for_loop_step {St : Type} (count first : nat)
    (body : nat -> St -> option St) (s : St) :
  for_loop (S count) first body s
  = body first s ≫= for_loop count (S first) body.
Proof. reflexivity. Qed.

(** The seeding loop adds up the entries it reads. *)
Lemma rsi_seed_sums (gains losses : list R) (count : nat) :
  forall first a b,
    (first + count <= length gains)%nat -> length losses = length gains ->
    for_loop count first (rsi_seed gains losses) (a, b)
    = Some (a + sum_list (take count (drop first gains)),
            b + sum_list (take count (drop first losses))).
Proof.
  induction count as [|count IH]; intros first a b Hlen Hll.
  - simpl. unfold sum_list. simpl. do 2 f_equal; lra.
  - destruct (lookup_lt_is_Some_2 gains first ltac:(lia)) as [g Hg].
    destruct (lookup_lt_is_Some_2 losses first ltac:(lia)) as [l Hl].
    assert (Hbody : rsi_seed gains losses first (a, b) = Some (a + g, b + l))
      by (unfold rsi_seed; rewrite Hg, Hl; reflexivity).
    rewrite for_loop_step, Hbody. simpl.
    rewrite IH by lia.
    rewrite (drop_S gains g first Hg), (drop_S losses l first Hl).
    unfold sum_list. simpl. do 2 f_equal; lra.
Qed.

Lemma all_zero_sum (xs : list R) : all_zero xs -> sum_list xs = 0.
Proof.
  intros Hz. rewrite (sum_list_constant xs 0 Hz). lra.
Qed.

Lemma all_zero_sublist (xs : list R) (first count : nat) :
  all_zero xs -> all_zero (take count (drop first xs)).
Proof. intros Hz. apply Forall_take, Forall_drop, Hz. Qed.

Lemma wilder_zero (period : Z) : wilder period 0 0 = 0.
Proof. unfold wilder, Rdiv. lra. Qed.

(** A smoothing loop whose averages keep a property under which the
    stored value is always [v] fills the output with [v]. *)
Lemma rsi_smoothing_constant (v : R) (P : R -> R -> Prop) (steps : nat)
    (period : Z) (gains losses rsi : list R) (avg_gain avg_loss : R) :
  (0 <= period)%Z ->
  (Z.to_nat period + steps <= length rsi)%nat ->
  length gains = length rsi -> length losses = length rsi ->
  P avg_gain avg_loss ->
  (forall i g l a b, (Z.to_nat period <= i < length rsi)%nat ->
     gains !! i = Some g -> losses !! i = Some l -> P a b ->
     P (wilder period a g) (wilder period b l)
     /\ rsi_value (wilder period a g) (wilder period b l) = v) ->
  exists rsi' avg_gain' avg_loss',
    rsi_smoothing steps period gains losses rsi avg_gain avg_loss
    = Some (rsi', avg_gain', avg_loss')
    /\ length rsi' = length rsi
    /\ forall i, (Z.to_nat period <= i < Z.to_nat period + steps)%nat ->
         rsi' !! i = Some v.
Proof.
  intros Hp Hsteps Hg Hl Hinit Hstep.
  unfold rsi_smoothing. rewrite to_size_t_nonneg by lia.
  destruct (for_loop_invariant
              (fun k s => length s.1.1 = length rsi /\ P s.1.2 s.2
                          /\ forall i, (Z.to_nat period <= i < k)%nat ->
                               s.1.1 !! i = Some v)
              (rsi_smooth period gains losses) steps (Z.to_nat period)
              (rsi, avg_gain, avg_loss))
    as ([[rsi' ag] al] & Hloop & Hlen & _ & Hvals).
  - simpl. repeat split; auto. intros i Hi. lia.
  - intros i [[r a] b] Hi (Hlen & HP & Hvals). simpl in *.
    destruct (lookup_lt_is_Some_2 gains i ltac:(lia)) as [g Hgi].
    destruct (lookup_lt_is_Some_2 losses i ltac:(lia)) as [l Hli].
    destruct (Hstep i g l a b ltac:(lia) Hgi Hli HP) as [HP' Hv].
    unfold rsi_smooth. rewrite Hgi, Hli. simpl.
    rewrite write_Some by lia. simpl. eexists. split; [reflexivity|]. simpl.
    rewrite length_insert. do 2 (split; [assumption|]).
    intros k Hk. destruct (decide (k = i)) as [->|Hne].
    + rewrite list_lookup_insert_eq by lia. f_equal. exact Hv.
    + rewrite list_lookup_insert_ne by lia. apply Hvals. lia.
  - exists rsi', ag, al. simpl in *. auto.
Qed.

Lemma sum_list_positive (xs : list R) :
  xs <> [] -> Forall (fun x => 0 < x) xs -> 0 < sum_list xs.
Proof.
  intros Hne Hpos. unfold sum_list.
  induction Hpos as [|x xs Hx Hrest IH]; [contradiction|].
  simpl. destruct xs as [|y ys].
  - simpl. lra.
  - assert (0 < foldr Rplus 0 (y :: ys)) by (apply IH; discriminate). lra.
Qed.

Lemma rsi_value_no_gain (avg_loss : R) : 0 < avg_loss -> rsi_value 0 avg_loss = 0.
Proof.
  intros Hl. unfold rsi_value. destruct Req_dec_T as [Hz|_]; [lra|].
  unfold Rdiv. rewrite Rmult_0_l, Rplus_0_r, Rinv_1. lra.
Qed.

(** X12.  On a series in which no price falls below the previous one
    (a flat series included) no loss is ever recorded, the average loss
    stays exactly zero, and the oscillator is 100 at every index from the
    period on. *)
Theorem rsi_rising_is_100 (ptr : list R) (period : Z) :
  (1 <= period)%Z -> (period < Z.of_nat (length ptr))%Z -> rising ptr ->
  exists rsi,
    calculate_rsi ptr period = Some rsi
    /\ forall i, (Z.to_nat period <= i < length ptr)%nat -> rsi !! i = Some 100.
Proof.
  intros Hp Hn Hup. unfold calculate_rsi.
  destruct (rsi_changes_rising ptr Hup) as (gains & losses & -> & Hg & Hl & Hz).
  simpl. unfold rsi_initial_average.
  rewrite rsi_seed_sums by lia. simpl.
  rewrite (all_zero_sum _ (all_zero_sublist losses 1 _ Hz)).
  destruct (rsi_smoothing_constant 100 (fun _ b => b = 0)
              (length ptr - to_size_t period) period gains losses
              (zeros (length ptr))
              ((0 + sum_list (take (Z.to_nat period) (drop 1 gains))) / IZR period)
              ((0 + 0) / IZR period))
    as (rsi & ag & al & -> & Hlen & Hvals); rewrite ?length_zeros; try lia.
  - rewrite to_size_t_nonneg by lia. lia.
  - unfold Rdiv. lra.
  - intros i g l a b Hi Hgi Hli ->.
    pose proof (Forall_lookup_1 _ _ _ _ Hz Hli) as Hl0. simpl in Hl0. subst l.
    rewrite wilder_zero. split; [reflexivity|apply rsi_value_zero_loss].
  - simpl. exists rsi. split; [reflexivity|].
    intros i Hi. apply Hvals. rewrite to_size_t_nonneg by lia. lia.
Qed.

Lemma rsi_rising_is_100_witness :
  exists rsi,
    calculate_rsi [1; 2; 2; 5] 2 = Some rsi
    /\ rsi !! 2%nat = Some 100 /\ rsi !! 3%nat = Some 100.
Proof.
  destruct (rsi_rising_is_100 [1; 2; 2; 5] 2) as (rsi & Hr & Hvals).
  - lia.
  - simpl. lia.
  - intros [|[|[|[|i]]]] p q Hp Hq; simpl in Hp, Hq;
      try discriminate; injection Hp as <-; injection Hq as <-; lra.
  - exists rsi. split; [exact Hr|]. split; apply Hvals; simpl; lia.
Defined.

(** X13.  On a series in which every price is below the previous one no
    gain is ever recorded, the average gain stays exactly zero while the
    average loss stays positive, and the oscillator is 0 at every index
    from the period on. *)
Theorem rsi_falling_is_0 (ptr : list R) (period : Z) :
  (1 <= period)%Z -> (period < Z.of_nat (length ptr))%Z -> falling ptr ->
  exists rsi,
    calculate_rsi ptr period = Some rsi
    /\ forall i, (Z.to_nat period <= i < length ptr)%nat -> rsi !! i = Some 0.
Proof.
  intros Hp Hn Hdown. unfold calculate_rsi.
  destruct (rsi_changes_falling ptr Hdown)
    as (gains & losses & -> & Hg & Hl & Hz & Hpos).
  simpl. unfold rsi_initial_average.
  rewrite rsi_seed_sums by lia. simpl.
  rewrite (all_zero_sum _ (all_zero_sublist gains 1 _ Hz)).
  assert (Hperiod : 0 < IZR period) by (apply IZR_lt; lia).
  assert (Hseed : 0 < sum_list (take (Z.to_nat period) (drop 1 losses))).
  { apply sum_list_positive.
    - intros Hnil. apply (f_equal length) in Hnil.
      rewrite length_take, length_drop in Hnil. simpl in Hnil. lia.
    - apply Forall_lookup_2. intros j x Hj.
      apply lookup_take_Some in Hj as [Hj Hjlt]. rewrite lookup_drop in Hj.
      destruct (Hpos (1 + j)%nat) as (l & Hlj & Hl0).
      + apply lookup_lt_Some in Hj. lia.
      + congruence. }
  destruct (rsi_smoothing_constant 0 (fun a b => a = 0 /\ 0 < b)
              (length ptr - to_size_t period) period gains losses
              (zeros (length ptr))
              ((0 + 0) / IZR period)
              ((0 + sum_list (take (Z.to_nat period) (drop 1 losses))) / IZR period))
    as (rsi & ag & al & -> & Hlen & Hvals); rewrite ?length_zeros; try lia.
  - rewrite to_size_t_nonneg by lia. lia.
  - split; [unfold Rdiv; lra|]. apply Rdiv_lt_0_compat; lra.
  - intros i g l a b Hi Hgi Hli [-> Hb].
    pose proof (Forall_lookup_1 _ _ _ _ Hz Hgi) as Hg0. simpl in Hg0. subst g.
    destruct (Hpos i ltac:(lia)) as (l' & Hli' & Hl0).
    assert (l' = l) as -> by congruence.
    rewrite wilder_zero.
    assert (Hw : 0 < wilder period b l).
    { unfold wilder. apply Rdiv_lt_0_compat; [|exact Hperiod].
      assert (0 <= IZR (period - 1)) by (apply IZR_le; lia). nra. }
    split; [split; [reflexivity|exact Hw]|apply rsi_value_no_gain; exact Hw].
  - simpl. exists rsi. split; [reflexivity|].
    intros i Hi. apply Hvals. rewrite to_size_t_nonneg by lia. lia.
Qed.

Lemma rsi_falling_is_0_witness :
  exists rsi,
    calculate_rsi [9; 7; 4; 1] 2 = Some rsi
    /\ rsi !! 2%nat = Some 0 /\ rsi !! 3%nat = Some 0.
Proof.
  destruct (rsi_falling_is_0 [9; 7; 4; 1] 2) as (rsi & Hr & Hvals).
  - lia.
  - simpl. lia.
  - intros [|[|[|[|i]]]] p q Hp Hq; simpl in Hp, Hq;
      try discriminate; injection Hp as <-; injection Hq as <-; lra.
  - exists rsi. split; [exact Hr|]. split; apply Hvals; simpl; lia.
Defined.

(** *** The recurrences of the convergence/divergence indicator *)

Lemma nth_lookup_Some (xs : list R) (i : nat) (x : R) :
  xs !! i = Some x -> nth i xs 0 = x.
Proof. intros H. rewrite nth_lookup, H. reflexivity. Qed.

Lemma signal_at_before (alpha : R) (m : nat -> R) (seed i : nat) :
  (i < seed)%nat -> signal_at alpha m seed i = 0.
Proof.
  intros Hi. destruct i as [|j]; simpl.
  - destruct (Nat.eqb_spec seed 0); [lia|reflexivity].
  - destruct (Nat.ltb_spec (S j) seed); [reflexivity|lia].
Qed.

Lemma signal_at_seed (alpha : R) (m : nat -> R) (seed : nat) :
  signal_at alpha m seed seed = m seed.
Proof.
  destruct seed as [|j]; simpl; [reflexivity|].
  destruct (Nat.ltb_spec (S j) (S j)); [lia|].
  rewrite Nat.eqb_refl. reflexivity.
Qed.

Lemma signal_at_after (alpha : R) (m : nat -> R) (seed j : nat) :
  (seed <= j)%nat ->
  signal_at alpha m seed (S j)
  = alpha * m (S j) + (1 - alpha) * signal_at alpha m seed j.
Proof.
  intros Hj. cbn [signal_at].
  destruct (Nat.ltb_spec (S j) seed); [lia|].
  destruct (Nat.eqb_spec (S j) seed); [lia|reflexivity].
Qed.

Lemma macd_ema_values (ptr : list R) (alpha_fast alpha_slow : R) (i : nat)
    (s : list R * list R * list R) :
  (1 <= i < length ptr)%nat ->
  ema_values_upto ptr alpha_fast alpha_slow i s ->
  exists s', macd_ema ptr alpha_fast alpha_slow i s = Some s'
             /\ ema_values_upto ptr alpha_fast alpha_slow (S i) s'.
Proof.
  intros Hi. destruct s as [[ema_fast ema_slow] spread].
  intros (Hf & Hs & Hm & Hvals).
  destruct (lookup_lt_is_Some_2 ptr i ltac:(lia)) as [p Hp].
  destruct (Hvals (i - 1)%nat ltac:(lia) ltac:(lia)) as (Hfp & Hsp & _).
  unfold macd_ema. rewrite Hp. simpl. rewrite Hfp. simpl.
  rewrite write_Some by lia. simpl. rewrite Hsp. simpl.
  rewrite write_Some by lia. simpl.
  rewrite !list_lookup_insert_eq by lia. simpl.
  rewrite write_Some by lia. simpl.
  eexists. split; [reflexivity|].
  unfold ema_values_upto. rewrite !length_insert.
  do 3 (split; [assumption|]).
  intros j Hj Hjn. destruct (decide (j = i)) as [->|Hne].
  - rewrite !list_lookup_insert_eq by lia.
    unfold spread_at. destruct i as [|i']; [lia|].
    simpl. rewrite (nth_lookup_Some ptr (S i') p Hp).
    rewrite Nat.sub_0_r. auto.
  - rewrite !list_lookup_insert_ne by lia. apply Hvals; lia.
Qed.

Lemma macd_signal_values (spread : list R) (alpha : R) (m : nat -> R)
    (seed i : nat) (s : list R * list R) :
  (forall j, (j < length spread)%nat -> spread !! j = Some (m j)) ->
  (seed < i < length spread)%nat ->
  signal_values_upto (length spread) alpha m seed i s ->
  exists s', macd_signal spread alpha i s = Some s'
             /\ signal_values_upto (length spread) alpha m seed (S i) s'.
Proof.
  intros Hm Hi. destruct s as [signal_line histogram_line].
  intros (Hs & Hh & Hsv & Hhv).
  unfold macd_signal. rewrite (Hm i) by lia. simpl.
  rewrite (Hsv (i - 1)%nat) by lia. simpl.
  rewrite write_Some by lia. simpl.
  rewrite list_lookup_insert_eq by lia. simpl.
  rewrite write_Some by lia. simpl.
  eexists. split; [reflexivity|].
  unfold signal_values_upto. rewrite !length_insert.
  do 2 (split; [assumption|]).
  assert (Hnew : alpha * m i + (1 - alpha) * signal_at alpha m seed (i - 1)
                 = signal_at alpha m seed i).
  { destruct i as [|i']; [lia|]. rewrite signal_at_after by lia.
    replace (S i' - 1)%nat with i' by lia. reflexivity. }
  split.
  - intros j Hj Hjn. destruct (decide (j = i)) as [->|Hne].
    + rewrite list_lookup_insert_eq by lia. f_equal. exact Hnew.
    + rewrite list_lookup_insert_ne by lia. apply Hsv; lia.
  - intros j Hjn. destruct (decide (j = i)) as [->|Hne].
    + rewrite list_lookup_insert_eq by lia.
      destruct (Nat.ltb_spec i (S i)); [|lia].
      unfold histogram_at. destruct (Nat.leb_spec i seed); [lia|].
      rewrite Hnew. reflexivity.
    + rewrite list_lookup_insert_ne by lia. rewrite Hhv by exact Hjn.
      destruct (Nat.ltb_spec j i), (Nat.ltb_spec j (S i));
        try reflexivity; lia.
Qed.

(** The three outputs of the indicator, index by index. *)
Lemma calculate_macd_values (ptr : list R)
    (fast_period slow_period signal_period : Z) :
  (0 <= slow_period)%Z -> (slow_period < Z.of_nat (length ptr))%Z ->
  let alpha_fast := 2 / IZR (fast_period + 1) in
  let alpha_slow := 2 / IZR (slow_period + 1) in
  let alpha_signal := 2 / IZR (signal_period + 1) in
  let m := spread_at alpha_fast alpha_slow ptr in
  exists result,
    calculate_macd ptr fast_period slow_period signal_period = Some result
    /\ length (macd result) = length ptr
    /\ length (signal result) = length ptr
    /\ length (histogram result) = length ptr
    /\ forall i, (i < length ptr)%nat ->
         macd result !! i = Some (m i)
         /\ signal result !! i
            = Some (signal_at alpha_signal m (Z.to_nat slow_period) i)
         /\ histogram result !! i
            = Some (histogram_at alpha_signal m (Z.to_nat slow_period) i).
Proof.
  intros Hslow Hn alpha_fast alpha_slow alpha_signal m. unfold calculate_macd.
  fold alpha_fast alpha_slow alpha_signal.
  destruct (lookup_lt_is_Some_2 ptr 0 ltac:(lia)) as [p0 Hp0].
  rewrite Hp0. simpl.
  rewrite !write_Some by (rewrite length_zeros; lia). simpl.
  destruct (for_loop_invariant
              (fun k s => ema_values_upto ptr alpha_fast alpha_slow k s)
              (macd_ema ptr alpha_fast alpha_slow) (length ptr - 1) 1
              (<[0%nat := p0]> (zeros (length ptr)),
               <[0%nat := p0]> (zeros (length ptr)), zeros (length ptr)))
    as ([[ema_fast ema_slow] spread] & -> & Hema).
  - unfold ema_values_upto. rewrite !length_insert, !length_zeros.
    do 3 (split; [reflexivity|]).
    intros j Hj Hjn. replace j with 0%nat by lia.
    rewrite !list_lookup_insert_eq by (rewrite length_zeros; lia).
    rewrite lookup_zeros by lia. unfold spread_at. simpl.
    rewrite (nth_lookup_Some ptr 0 p0 Hp0).
    repeat split; f_equal; lra.
  - intros i s Hi Hs. apply macd_ema_values; [lia|exact Hs].
  - simpl. destruct Hema as (_ & _ & Hm & Hvals).
    replace (1 + (length ptr - 1))%nat with (length ptr) in Hvals by lia.
    assert (Hspread : forall j, (j < length spread)%nat -> spread !! j = Some (m j)).
    { intros j Hj. rewrite Hm in Hj. apply (Hvals j Hj Hj). }
    rewrite (to_size_t_nonneg slow_period), (to_size_t_nonneg (slow_period + 1))
      by lia.
    rewrite (Hspread (Z.to_nat slow_period)) by lia. simpl.
    rewrite write_Some by (rewrite length_zeros; lia). simpl.
    destruct (for_loop_invariant
                (fun k s => signal_values_upto (length spread) alpha_signal m
                              (Z.to_nat slow_period) k s)
                (macd_signal spread alpha_signal)
                (length ptr - Z.to_nat (slow_period + 1))
                (Z.to_nat (slow_period + 1))
                (<[Z.to_nat slow_period := m (Z.to_nat slow_period)]>
                   (zeros (length ptr)),
                 zeros (length ptr)))
      as ([signal_line histogram_line] & -> & Hsig).
    + unfold signal_values_upto. rewrite length_insert, !length_zeros.
      do 2 (split; [congruence|]). split.
      * intros j Hj Hjn.
        destruct (decide (j = Z.to_nat slow_period)) as [->|Hne].
        -- rewrite list_lookup_insert_eq by (rewrite length_zeros; lia).
           rewrite signal_at_seed. reflexivity.
        -- rewrite list_lookup_insert_ne by lia.
           rewrite lookup_zeros by lia. rewrite signal_at_before by lia.
           reflexivity.
      * intros j Hjn. rewrite lookup_zeros by lia.
        destruct (Nat.ltb_spec j (Z.to_nat (slow_period + 1))); [|reflexivity].
        unfold histogram_at. destruct (Nat.leb_spec j (Z.to_nat slow_period));
          [reflexivity|lia].
    + intros i s Hi Hs. apply macd_signal_values; [exact Hspread|lia|exact Hs].
    + simpl. eexists. split; [reflexivity|]. simpl.
      destruct Hsig as (Hs & Hh & Hsv & Hhv).
      rewrite Hm in Hs, Hh, Hsv, Hhv.
      do 3 (split; [assumption|]).
      intros i Hi. split; [apply Hspread; lia|].
      split; [apply Hsv; lia|].
      rewrite Hhv by exact Hi.
      destruct (Nat.ltb_spec i
                  (Z.to_nat (slow_period + 1)
                   + (length ptr - Z.to_nat (slow_period + 1))));
        [reflexivity|lia].
Qed.

(** X14.  On a series longer than the slow period the buffers of the
    convergence/divergence indicator hold, at every index, the values of
    the recurrences: the primary line is the spread of the two
    exponential moving averages seeded with the first price, the signal
    line is zero before the slow period, equal to the primary line at
    the slow period and its moving average after it, and the histogram is
    zero up to the slow period and primary minus signal after it. *)
Theorem macd_recurrences (ptr : list R)
    (fast_period slow_period signal_period : Z) :
  (0 <= slow_period)%Z -> (slow_period < Z.of_nat (length ptr))%Z ->
  exists result,
    calculate_macd ptr fast_period slow_period signal_period = Some result
    /\ forall i, (i < length ptr)%nat ->
         macd result !! i
         = Some (spread_at (2 / IZR (fast_period + 1))
                   (2 / IZR (slow_period + 1)) ptr i)
         /\ signal result !! i
            = Some (signal_at (2 / IZR (signal_period + 1))
                      (spread_at (2 / IZR (fast_period + 1))
                         (2 / IZR (slow_period + 1)) ptr)
                      (Z.to_nat slow_period) i)
         /\ histogram result !! i
            = Some (histogram_at (2 / IZR (signal_period + 1))
                      (spread_at (2 / IZR (fast_period + 1))
                         (2 / IZR (slow_period + 1)) ptr)
                      (Z.to_nat slow_period) i).
Proof.
  intros Hslow Hn.
  destruct (calculate_macd_values ptr fast_period slow_period signal_period
              Hslow Hn) as (result & Hres & _ & _ & _ & Hvals).
  exists result. split; [exact Hres|exact Hvals].
Qed.

Lemma macd_recurrences_witness :
  exists result,
    calculate_macd [1; 2; 4; 8] 1 2 1 = Some result
    /\ forall i, (i < length [1; 2; 4; 8])%nat ->
         macd result !! i
         = Some (spread_at (2 / IZR (1 + 1)) (2 / IZR (2 + 1)) [1; 2; 4; 8] i)
         /\ signal result !! i
            = Some (signal_at (2 / IZR (1 + 1))
                      (spread_at (2 / IZR (1 + 1)) (2 / IZR (2 + 1)) [1; 2; 4; 8])
                      (Z.to_nat 2) i)
         /\ histogram result !! i
            = Some (histogram_at (2 / IZR (1 + 1))
                      (spread_at (2 / IZR (1 + 1)) (2 / IZR (2 + 1)) [1; 2; 4; 8])
                      (Z.to_nat 2) i).
Proof. apply (macd_recurrences [1; 2; 4; 8] 1 2 1); simpl; lia. Defined.

Lemma signal_at_ext (alpha : R) (m1 m2 : nat -> R) (seed i : nat) :
  (forall j, (j <= i)%nat -> m1 j = m2 j) ->
  signal_at alpha m1 seed i = signal_at alpha m2 seed i.
Proof.
  induction i as [|i IH]; intros Hm; cbn [signal_at].
  - destruct (Nat.eqb_spec seed 0); [apply Hm; lia|reflexivity].
  - destruct (Nat.ltb_spec (S i) seed); [reflexivity|].
    destruct (Nat.eqb_spec (S i) seed); [apply Hm; lia|].
    rewrite (Hm (S i)) by lia. rewrite IH; [reflexivity|].
    intros j Hj. apply Hm. lia.
Qed.

Lemma histogram_at_ext (alpha : R) (m1 m2 : nat -> R) (seed i : nat) :
  (forall j, (j <= i)%nat -> m1 j = m2 j) ->
  histogram_at alpha m1 seed i = histogram_at alpha m2 seed i.
Proof.
  intros Hm. unfold histogram_at.
  rewrite (signal_at_ext alpha m1 m2 seed i Hm), (Hm i) by lia. reflexivity.
Qed.





Lemma ema_at_flat (alpha c : R) (ptr : list R) (i : nat) :
  Forall (fun p => p = c) ptr -> (i < length ptr)%nat -> ema_at alpha ptr i = c.
Proof.
  intros Hflat.
  assert (Hnth : forall j, (j < length ptr)%nat -> nth j ptr 0 = c).
  { intros j Hj. destruct (lookup_lt_is_Some_2 ptr j Hj) as [p Hp].
    rewrite (nth_lookup_Some ptr j p Hp).
    exact (Forall_lookup_1 _ _ _ _ Hflat Hp). }
  induction i as [|i IH]; intros Hi; cbn [ema_at].
  - apply Hnth. exact Hi.
  - rewrite Hnth by exact Hi. rewrite IH by lia. lra.
Qed.

Lemma signal_at_zero (alpha : R) (seed i : nat) :
  signal_at alpha (fun _ => 0) seed i = 0.
Proof.
  induction i as [|i IH]; cbn [signal_at].
  - destruct (seed =? 0)%nat; reflexivity.
  - destruct (S i <? seed)%nat; [reflexivity|].
    destruct (S i =? seed)%nat; [reflexivity|]. rewrite IH. lra.
Qed.

(** X16.  For a fast, a slow and a signal period that are not negative,
    on a flat series longer than the slow period, both moving averages
    stay at the price in exact arithmetic, so the primary line, the signal
    line and the histogram are zero everywhere. *)
Theorem macd_flat_is_zero (ptr : list R) (c : R)
    (fast_period slow_period signal_period : Z) :
  (0 <= fast_period)%Z -> (0 <= signal_period)%Z ->
  (0 <= slow_period)%Z -> (slow_period < Z.of_nat (length ptr))%Z ->
  Forall (fun p => p = c) ptr ->
  exists result,
    calculate_macd ptr fast_period slow_period signal_period = Some result
    /\ macd result = zeros (length ptr)
    /\ signal result = zeros (length ptr)
    /\ histogram result = zeros (length ptr).
Proof.
  intros _ _ Hslow Hn Hflat.
  destruct (calculate_macd_values ptr fast_period slow_period signal_period
              Hslow Hn) as (result & Hres & Hm & Hs & Hh & Hvals).
  exists result. split; [exact Hres|].
  assert (Hspread : forall j, (j < length ptr)%nat ->
            spread_at (2 / IZR (fast_period + 1)) (2 / IZR (slow_period + 1)) ptr j
            = 0).
  { intros j Hj. unfold spread_at.
    rewrite !(ema_at_flat _ c ptr j Hflat Hj). lra. }
  assert (Heq : forall l : list R,
            length l = length ptr ->
            (forall i, (i < length ptr)%nat -> l !! i = Some 0) ->
            l = zeros (length ptr)).
  { intros l Hl H. apply list_eq. intros i.
    destruct (decide (i < length ptr)%nat) as [Hi|Hi].
    - rewrite H, lookup_zeros by exact Hi. reflexivity.
    - rewrite !lookup_ge_None_2 by (rewrite ?length_zeros; lia). reflexivity. }
  split; [|split]; apply Heq; try assumption; intros i Hi;
    destruct (Hvals i Hi) as (Hmi & Hsi & Hhi).
  - rewrite Hmi, Hspread by exact Hi. reflexivity.
  - rewrite Hsi. f_equal.
    rewrite (signal_at_ext _ _ (fun _ => 0)); [apply signal_at_zero|].
    intros j Hj. apply Hspread. lia.
  - rewrite Hhi. f_equal.
    rewrite (histogram_at_ext _ _ (fun _ => 0)).
    + unfold histogram_at. destruct (i <=? Z.to_nat slow_period)%nat;
        [reflexivity|]. rewrite signal_at_zero. lra.
    + intros j Hj. apply Hspread. lia.
Qed.

Lemma macd_flat_is_zero_witness :
  exists result,
    calculate_macd [5; 5; 5; 5] 1 2 1 = Some result
    /\ macd result = [0; 0; 0; 0]
    /\ signal result = [0; 0; 0; 0]
    /\ histogram result = [0; 0; 0; 0].
Proof.
  apply (macd_flat_is_zero [5; 5; 5; 5] 5 1 2 1).
  - lia.
  - lia.
  - lia.
  - simpl. lia.
  - repeat constructor.
Defined.

(** *** The rolling correlation coefficient *)

Lemma sum_products_squares (xs : list R) :
  sum_list (map (fun v => v * v) xs) = sum_products xs xs.
Proof.
  unfold sum_products, sum_list.
  induction xs as [|x xs IH]; simpl; [|rewrite IH]; reflexivity.
Qed.

Lemma sum_products_take_S (xs ys : list R) (d c : nat) (vx vy : R) :
  xs !! (d + c)%nat = Some vx -> ys !! (d + c)%nat = Some vy ->
  sum_products (take (S c) (drop d xs)) (take (S c) (drop d ys))
  = sum_products (take c (drop d xs)) (take c (drop d ys)) + vx * vy.
Proof.
  intros Hx Hy. unfold sum_products.
  rewrite (take_S_r _ c vx) by (rewrite lookup_drop; exact Hx).
  rewrite (take_S_r _ c vy) by (rewrite lookup_drop; exact Hy).
  rewrite zip_with_app.
  - rewrite sum_list_app. unfold sum_list at 2. simpl. lra.
  - apply lookup_lt_Some in Hx. apply lookup_lt_Some in Hy.
    rewrite !length_take, !length_drop. lia.
Qed.

Lemma correlation_products_fold (ptr_x ptr_y : list R) (i count : nat) :
  forall j s0,
    (j + count <= S i)%nat -> (i < length ptr_x)%nat -> (i < length ptr_y)%nat ->
    exists s,
      for_loop count j (correlation_accumulate ptr_x ptr_y i) s0 = Some s
      /\ sum_xy s = sum_xy s0
           + sum_products (take count (drop (S i - j - count) ptr_x))
                          (take count (drop (S i - j - count) ptr_y)).
Proof.
  induction count as [|count IH]; intros j s0 Hj Hx Hy.
  - exists s0. split; [reflexivity|]. unfold sum_products, sum_list. simpl. lra.
  - destruct (lookup_lt_is_Some_2 ptr_x (i - j) ltac:(lia)) as [vx Hvx].
    destruct (lookup_lt_is_Some_2 ptr_y (i - j) ltac:(lia)) as [vy Hvy].
    assert (Hbody : correlation_accumulate ptr_x ptr_y i j s0
                    = Some (mkSums (sum_x s0 + vx) (sum_y s0 + vy)
                              (sum_xx s0 + vx * vx) (sum_yy s0 + vy * vy)
                              (sum_xy s0 + vx * vy))).
    { unfold correlation_accumulate. rewrite !read_back_eq by lia.
      rewrite Hvx, Hvy. reflexivity. }
    rewrite for_loop_step, Hbody. simpl.
    destruct (IH (S j) (mkSums (sum_x s0 + vx) (sum_y s0 + vy)
                          (sum_xx s0 + vx * vx) (sum_yy s0 + vy * vy)
                          (sum_xy s0 + vx * vy)))
      as (s & Hloop & Hsxy); try lia.
    exists s. split; [exact Hloop|]. simpl in Hsxy.
    replace (S i - j - S count)%nat with (i - j - count)%nat by lia.
    rewrite (sum_products_take_S ptr_x ptr_y (i - j - count) count vx vy).
    + rewrite Hsxy. lra.
    + rewrite <- Hvx. f_equal. lia.
    + rewrite <- Hvy. f_equal. lia.
Qed.

(** The five sums of the inner loop. *)
Lemma correlation_sums_all (ptr_x ptr_y : list R) (window : Z) (i : nat) :
  (Z.to_nat window <= S i)%nat ->
  (i < length ptr_x)%nat -> (i < length ptr_y)%nat ->
  let wx := trailing_window ptr_x (Z.to_nat window) i in
  let wy := trailing_window ptr_y (Z.to_nat window) i in
  exists s,
    correlation_sums ptr_x ptr_y window i = Some s
    /\ sum_x s = sum_list wx /\ sum_y s = sum_list wy
    /\ sum_xx s = sum_products wx wx /\ sum_yy s = sum_products wy wy
    /\ sum_xy s = sum_products wx wy.
Proof.
  intros Hw Hx Hy wx wy.
  destruct (correlation_sums_eq ptr_x ptr_y window i Hw Hx Hy)
    as (s & Hs & Hsx & Hsy & Hsxx & Hsyy).
  destruct (correlation_products_fold ptr_x ptr_y i (Z.to_nat window) 0
              (mkSums 0 0 0 0 0)) as (s' & Hs' & Hsxy); try lia.
  unfold correlation_sums in Hs. rewrite Hs in Hs'. injection Hs' as <-.
  exists s. split; [exact Hs|].
  rewrite <- !sum_products_squares.
  do 4 (split; [assumption|]).
  rewrite Hsxy. simpl. unfold wx, wy, trailing_window.
  replace (S i - 0 - Z.to_nat window)%nat with (S i - Z.to_nat window)%nat by lia.
  lra.
Qed.

Lemma correlation_step_values (ptr_x ptr_y : list R) (window : Z) (i : nat)
    (corr : list R) :
  (1 <= window)%Z -> (length ptr_x <= length ptr_y)%nat ->
  (Z.to_nat (window - 1) <= i < length ptr_x)%nat ->
  correlation_values_upto ptr_x ptr_y window i corr ->
  exists corr', correlation_step ptr_x ptr_y window i corr = Some corr'
                /\ correlation_values_upto ptr_x ptr_y window (S i) corr'.
Proof.
  intros Hw Hxy Hi (Hlen & Hvals).
  unfold correlation_step.
  destruct (correlation_sums_all ptr_x ptr_y window i)
    as (s & -> & Hsx & Hsy & Hsxx & Hsyy & Hsxy); try lia.
  simpl. unfold rolling_std. rewrite Hsx, Hsy, Hsxx, Hsyy, Hsxy.
  set (wx := trailing_window ptr_x (Z.to_nat window) i).
  set (wy := trailing_window ptr_y (Z.to_nat window) i).
  assert (Hn : INR (length wx) = IZR window).
  { unfold wx. rewrite length_trailing_window by lia. apply INR_to_nat. lia. }
  assert (Hpearson :
    pearson wx wy
    = if Rgt_dec (sqrt (sum_products wx wx / IZR window
                        - sum_list wx / IZR window * (sum_list wx / IZR window))) 0
      then
        if Rgt_dec (sqrt (sum_products wy wy / IZR window
                          - sum_list wy / IZR window * (sum_list wy / IZR window))) 0
        then (sum_products wx wy / IZR window
              - sum_list wx / IZR window * (sum_list wy / IZR window))
             / (sqrt (sum_products wx wx / IZR window
                      - sum_list wx / IZR window * (sum_list wx / IZR window))
                * sqrt (sum_products wy wy / IZR window
                        - sum_list wy / IZR window * (sum_list wy / IZR window)))
        else 0
      else 0).
  { unfold pearson. rewrite Hn. reflexivity. }
  assert (Hkeep : forall v,
            v = pearson wx wy ->
            forall corr',
              length corr' = length ptr_x ->
              corr' !! i = Some v ->
              (forall j, j <> i -> corr' !! j = corr !! j) ->
              correlation_values_upto ptr_x ptr_y window (S i) corr').
  { intros v Hv corr' Hlen' Hi' Hother. split; [exact Hlen'|].
    intros j Hj. destruct (decide (j = i)) as [->|Hne].
    - rewrite Hi'. destruct (Nat.ltb_spec i (Z.to_nat (window - 1))); [lia|].
      destruct (Nat.ltb_spec i (S i)); [|lia]. rewrite Hv. reflexivity.
    - rewrite Hother, Hvals by assumption.
      destruct (Nat.ltb_spec j i), (Nat.ltb_spec j (S i)); try reflexivity; lia. }
  assert (Hold : corr !! i = Some 0).
  { rewrite Hvals by lia.
    destruct (Nat.ltb_spec i (Z.to_nat (window - 1))); [reflexivity|].
    destruct (Nat.ltb_spec i i); [lia|reflexivity]. }
  rewrite Hpearson in Hkeep.
  destruct Rgt_dec as [Hx|Hx];
    [|exists corr; split; [reflexivity|]; apply (Hkeep 0); auto].
  destruct Rgt_dec as [Hy|Hy];
    [|exists corr; split; [reflexivity|]; apply (Hkeep 0); auto].
  rewrite write_Some by lia. eexists. split; [reflexivity|].
  eapply Hkeep; [reflexivity|rewrite length_insert; exact Hlen| |].
  - apply list_lookup_insert_eq. lia.
  - intros j Hne. apply list_lookup_insert_ne. auto.
Qed.

(** Every entry of the output is the coefficient of the two trailing
    windows, or zero before the first full window. *)
Lemma rolling_correlation_values (ptr_x ptr_y : list R) (window : Z) :
  (1 <= window)%Z -> (length ptr_x <= length ptr_y)%nat ->
  exists corr,
    rolling_correlation ptr_x ptr_y window = Some corr
    /\ length corr = length ptr_x
    /\ forall i, (i < length ptr_x)%nat ->
         corr !! i
         = Some (if (i <? Z.to_nat (window - 1))%nat then 0
                 else pearson (trailing_window ptr_x (Z.to_nat window) i)
                              (trailing_window ptr_y (Z.to_nat window) i)).
Proof.
  intros Hw Hxy. unfold rolling_correlation.
  rewrite to_size_t_nonneg by lia.
  set (start := Z.to_nat (window - 1)).
  destruct (for_loop_invariant
              (fun k corr => correlation_values_upto ptr_x ptr_y window k corr)
              (correlation_step ptr_x ptr_y window) (length ptr_x - start) start
              (zeros (length ptr_x)))
    as (corr & Hloop & Hlen & Hvals).
  - split; [apply length_zeros|]. intros i Hi. rewrite lookup_zeros by exact Hi.
    fold start. destruct (Nat.ltb_spec i start); [reflexivity|].
    destruct (Nat.ltb_spec i start); [lia|reflexivity].
  - intros i s Hi Hs. apply correlation_step_values; try assumption.
    unfold start in *. lia.
  - exists corr. split; [exact Hloop|]. split; [exact Hlen|].
    intros i Hi. rewrite Hvals by exact Hi. fold start.
    destruct (Nat.ltb_spec i start); [reflexivity|].
    destruct (Nat.ltb_spec i (start + (length ptr_x - start))); [reflexivity|lia].
Qed.

Lemma sum_products_comm (xs ys : list R) :
  sum_products xs ys = sum_products ys xs.
Proof.
  unfold sum_products, sum_list. revert ys.
  induction xs as [|x xs IH]; intros [|y ys]; simpl; try reflexivity.
  rewrite IH. lra.
Qed.

Lemma pearson_symmetric (xs ys : list R) :
  length xs = length ys -> pearson xs ys = pearson ys xs.
Proof.
  intros Hlen. unfold pearson. rewrite <- Hlen.
  rewrite (sum_products_comm ys xs).
  destruct (Rgt_dec (sqrt (sum_products xs xs / INR (length xs)
                           - sum_list xs / INR (length xs)
                             * (sum_list xs / INR (length xs)))) 0);
    destruct (Rgt_dec (sqrt (sum_products ys ys / INR (length xs)
                             - sum_list ys / INR (length xs)
                               * (sum_list ys / INR (length xs)))) 0);
    try reflexivity.
  unfold Rdiv. f_equal; [ring|f_equal; ring].
Qed.

(** X19.  For two inputs of equal length the rolling correlation does
    not depend on their order. *)
Theorem rolling_correlation_symmetric (ptr_x ptr_y : list R) (window : Z) :
  (1 <= window)%Z -> length ptr_x = length ptr_y ->
  rolling_correlation ptr_x ptr_y window = rolling_correlation ptr_y ptr_x window
  /\ rolling_correlation ptr_x ptr_y window <> None.
Proof.
  intros Hw Hlen.
  destruct (rolling_correlation_values ptr_x ptr_y window Hw ltac:(lia))
    as (c1 & Hc1 & Hl1 & Hv1).
  destruct (rolling_correlation_values ptr_y ptr_x window Hw ltac:(lia))
    as (c2 & Hc2 & Hl2 & Hv2).
  rewrite Hc1, Hc2. split; [|discriminate]. f_equal.
  apply list_eq. intros i.
  destruct (decide (i < length ptr_x)%nat) as [Hi|Hi].
  - rewrite Hv1 by exact Hi. rewrite Hv2 by lia.
    destruct (Nat.ltb_spec i (Z.to_nat (window - 1))); [reflexivity|].
    f_equal. apply pearson_symmetric.
    rewrite !length_trailing_window by lia. reflexivity.
  - rewrite !lookup_ge_None_2 by lia. reflexivity.
Qed.

Lemma rolling_correlation_symmetric_witness :
  rolling_correlation [5; 5; 7] [1; 2; 3] 2
  = rolling_correlation [1; 2; 3] [5; 5; 7] 2
  /\ rolling_correlation [5; 5; 7] [1; 2; 3] 2 <> None.
Proof.
  apply (rolling_correlation_symmetric [5; 5; 7] [1; 2; 3] 2); [lia|reflexivity].
Defined.

(** X20.  The length of the output and the loop bounds come from the
    first input only: when the second input is shorter than the first,
    and the first holds at least one full window, the inner loop reads
    the second input past its end and no output is produced. *)
Theorem rolling_correlation_short_second_input (ptr_x ptr_y : list R)
    (window : Z) :
  (1 <= window)%Z -> (window <= Z.of_nat (length ptr_x))%Z ->
  (length ptr_y < length ptr_x)%nat ->
  rolling_correlation ptr_x ptr_y window = None.
Proof.
  intros Hw Hn Hshort. unfold rolling_correlation.
  rewrite to_size_t_nonneg by lia.
  apply (for_loop_fails _ _ (Nat.max (Z.to_nat (window - 1)) (length ptr_y)));
    [lia|].
  intros corr. unfold correlation_step, correlation_sums.
  replace (Z.to_nat window) with (S (Z.to_nat (window - 1))) by lia.
  rewrite for_loop_step.
  unfold correlation_accumulate at 2. rewrite !read_back_eq by lia.
  rewrite (lookup_ge_None_2 ptr_y) by lia.
  destruct (ptr_x !! _); reflexivity.
Qed.

Lemma rolling_correlation_short_second_input_witness :
  rolling_correlation [1; 2; 3; 4] [1; 2] 2 = None.
Proof.
  apply (rolling_correlation_short_second_input [1; 2; 3; 4] [1; 2] 2);
    simpl; lia.
Defined.


End IndicatorsExtra.
